(** * cones.py: a NSGA-II search over cone shapes

    A shallow embedding of [src/cones.py] and of the DEAP operators it
    registers and calls ([tools.initRepeat], [tools.mutUniformInt],
    [tools.selNSGA2], [tools.ParetoFront], [algorithms.eaMuPlusLambda]),
    followed by the properties of the program.

    Conventions of the embedding.
    - Python integers are [Z]; list positions and loop counts are [nat].
    - Python floats are modelled by exact rationals ([Q]): every finite
      binary64 value is a rational and float comparison agrees with the
      comparison of rationals.  Rounding is not modelled: the two float
      formulas of the fitness enter the engine as parameters
      ([calculate_volume], [calculate_surface_area] of the section below),
      and their reading over the real numbers is given separately.
    - The process-wide generator of Python's [random] module is a tape of
      raw draws with a cursor; each library call consumes raw draws and
      maps them into its documented range.
    - Objects have an identity ([oid]).  Two list entries with the same
      [oid] denote the same Python object; [deepcopy] allocates a new one. *)

From Stdlib Require Import ZArith QArith Reals Lia Psatz.
From stdpp Require Import functions sorting list.

(** ** Exceptions, process state and the monad of the program *)

Inductive exn : Type :=
| IndexError
| ValueError
| AssertionError.

(** Ghost record of the calls to the two variation operators, by the
    identity of the objects they were applied to. *)
Inductive event : Type :=
| Mated (o1 o2 : nat)
| Mutated (o : nat).

Record State : Type := mkState {
  tape : nat → N;      (* the raw output sequence of the generator *)
  cursor : nat;        (* how many raw draws were consumed *)
  next_oid : nat;      (* allocator of object identities *)
  trace : list event   (* ghost: the operator calls so far *)
}.

Inductive result (A : Type) : Type :=
| Ok (a : A) (s : State)
| Raise (e : exn).
Arguments Ok {A} a s.
Arguments Raise {A} e.

Definition M (A : Type) : Type := State → result A.

Definition ret {A} (a : A) : M A := λ s, Ok a s.

Definition bind {A B} (m : M A) (k : A → M B) : M B :=
  λ s, match m s with
       | Ok a s' => k a s'
       | Raise e => Raise e
       end.

Definition raise {A} (e : exn) : M A := λ _, Raise e.

Notation "x <~ m ;; k" := (bind m (λ x, k))
  (at level 20, m at level 99, k at level 200, only parsing).
Notation "' pat <~ m ;; k" := (bind m (λ x, match x with pat => k end))
  (at level 20, pat pattern, m at level 99, k at level 200, only parsing).

(** A partial operation whose failure is the exception [e]. *)
Definition liftE {A} (e : exn) (o : option A) : M A :=
  match o with Some a => ret a | None => raise e end.

(** [for x in xs: acc = body(acc, x)] *)
Fixpoint foldM {A B} (body : B → A → M B) (acc : B) (xs : list A) : M B :=
  match xs with
  | [] => ret acc
  | x :: xs' => acc' <~ body acc x ;; foldM body acc' xs'
  end.

(** [[f() for _ in range(n)]] *)
Fixpoint repeatM {A} (n : nat) (f : M A) : M (list A) :=
  match n with
  | O => ret []
  | S n' => x <~ f ;; xs <~ repeatM n' f ;; ret (x :: xs)
  end.

(** Allocation of an object identity, and the ghost log. *)
Definition fresh_oid : M nat :=
  λ s, Ok (next_oid s)
          (mkState (tape s) (cursor s) (S (next_oid s)) (trace s)).

Definition log (e : event) : M unit :=
  λ s, Ok tt (mkState (tape s) (cursor s) (next_oid s) (trace s ++ [e])).

(** ** Python's [random] module *)

Definition raw : M N :=
  λ s, Ok (tape s (cursor s))
          (mkState (tape s) (S (cursor s)) (next_oid s) (trace s)).

(** [random.random()]: a multiple of 2^-53 in [0, 1). *)
Definition random_random : M Q :=
  n <~ raw ;;
  ret (Z.of_N (n mod 2 ^ 53) # 2 ^ 53).

(** [random.randint(a, b)]: an integer N with a <= N <= b. *)
Definition random_randint (a b : Z) : M Z :=
  if (b <? a)%Z then raise ValueError
  else n <~ raw ;; ret (a + Z.of_N n mod (b - a + 1))%Z.

(** [random.choice(seq)]; an empty sequence raises IndexError. *)
Definition random_choice {A} (seq : list A) : M A :=
  if (length seq =? 0)%nat then raise IndexError
  else
    n <~ raw ;;
    liftE IndexError (seq !! N.to_nat (n mod N.of_nat (length seq))).

(** [random.sample(population, 2)]: the elements at two distinct
    positions.  The second index is drawn below [n - 1] from a pool in
    which the chosen slot was refilled with the last element. *)
Definition random_sample2 {A} (population : list A) : M (A * A) :=
  let n := length population in
  if (n <? 2)%nat then raise ValueError
  else
    j0 <~ raw ;;
    j1 <~ raw ;;
    let i0 := N.to_nat (j0 mod N.of_nat n) in
    let i1 := N.to_nat (j1 mod N.of_nat (n - 1)) in
    x <~ liftE IndexError (population !! i0) ;;
    y <~ liftE IndexError
           (population !! (if (i1 =? i0)%nat then (n - 1)%nat else i1)) ;;
    ret (x, y).

(** ** Individuals and fitness

    [creator.create("Fitness", base.Fitness, weights=(1.0, -1.0))] and
    [creator.create("Individual", list, fitness=creator.Fitness)]. *)

Definition weights : Q * Q := (1, -1)%Q.

(** The float [inf] of the crowding distance. *)
Inductive Dist : Type :=
| Fin (q : Q)
| Inf.

Record Individual : Type := mkInd {
  oid : nat;
  genes : list Z;                    (* the list itself: [radius, height] *)
  wvalues : option (Q * Q);          (* fitness.wvalues; None is the empty tuple *)
  crowding_dist : option Dist        (* fitness.crowding_dist, once assigned *)
}.

(** [fitness.valid] *)
Definition valid (ind : Individual) : bool :=
  match wvalues ind with Some _ => true | None => false end.

(** [fitness.values = values]: stores the weighted values. *)
Definition weighted (values : Q * Q) : Q * Q :=
  (fst values * fst weights, snd values * snd weights)%Q.

Definition setValues (ind : Individual) (values : Q * Q) : Individual :=
  mkInd (oid ind) (genes ind) (Some (weighted values)) (crowding_dist ind).

(** [fitness.values]: the weighted values divided by the weights. *)
Definition getValues (w : Q * Q) : Q * Q :=
  (fst w / fst weights, snd w / snd weights)%Q.

(** [del fitness.values] *)
Definition delValues (ind : Individual) : Individual :=
  mkInd (oid ind) (genes ind) None (crowding_dist ind).

Definition setGenes (ind : Individual) (g : list Z) : Individual :=
  mkInd (oid ind) g (wvalues ind) (crowding_dist ind).

Definition setCrowdingDist (ind : Individual) (d : Dist) : Individual :=
  mkInd (oid ind) (genes ind) (wvalues ind) (Some d).

(** [copy.deepcopy(ind)], which is also [toolbox.clone]: a new object with
    the same contents. *)
Definition deepcopy (ind : Individual) : M Individual :=
  o <~ fresh_oid ;;
  ret (mkInd o (genes ind) (wvalues ind) (crowding_dist ind)).

Definition Qltb (x y : Q) : bool := negb (Qle_bool y x).

(** [Fitness.dominates]: over the weighted values, no component smaller
    and at least one greater. *)
Definition dominates (self other : Q * Q) : bool :=
  let step (acc : option bool) (s o : Q) : option bool :=
    match acc with
    | None => None                              (* return False *)
    | Some not_equal =>
        if Qltb o s then Some true
        else if Qltb s o then None
        else Some not_equal
    end in
  match step (step (Some false) (fst self) (fst other)) (snd self) (snd other) with
  | Some not_equal => not_equal
  | None => false
  end.

(** [Fitness.__eq__]: equality of the weighted values. *)
Definition fitness_eq (self other : Q * Q) : bool :=
  Qeq_bool (fst self) (fst other) && Qeq_bool (snd self) (snd other).

(** [Fitness.__le__] and [__lt__]: tuple comparison of the weighted values. *)
Definition fitness_le (self other : Q * Q) : bool :=
  if Qeq_bool (fst self) (fst other) then Qle_bool (snd self) (snd other)
  else Qltb (fst self) (fst other).

Definition fitness_lt (self other : Q * Q) : bool :=
  if Qeq_bool (fst self) (fst other) then Qltb (snd self) (snd other)
  else Qltb (fst self) (fst other).

(** ** The cone: [calculate_volume], [calculate_surface_area],
    [evaluate_fitness] *)

(** The two formulas read over the real numbers. *)
Definition calculate_volume (r h : Z) : R :=
  (PI * (IZR r) ^ 2 * (IZR h / 3))%R.

Definition calculate_surface_area (r h : Z) : R :=
  (PI * IZR r * (IZR r + sqrt (IZR h ^ 2 + IZR r ^ 2)))%R.

(** [evaluate_fitness], for any carrier [F] of the float results.  The call
    to [plt.plot] only draws and is left out. *)
Definition evaluate_fitness {F : Type} (volume_of surface_area_of : Z → Z → F)
    (individual : list Z) : option (F * F) :=
  r ← individual !! 0%nat;
  h ← individual !! 1%nat;
  let volume := volume_of r h in
  let surface_area := surface_area_of r h in
  Some (volume, surface_area).

(** ** [crossover] *)

(** The four assignments of the source in order, on the two lists; [None]
    is Python's IndexError.  The parents are two distinct objects (the
    caller clones each before mating). *)
Definition crossover (ind1 ind2 : list Z) : option (list Z * list Z) :=
  r1 ← ind1 !! 0%nat;
  h1 ← ind1 !! 1%nat;
  v ← ind2 !! 0%nat;
  let ind1 := <[0%nat := v]> ind1 in
  let ind2 := <[0%nat := r1]> ind2 in
  w ← ind2 !! 1%nat;
  let ind1 := <[1%nat := w]> ind1 in
  let ind2 := <[0%nat := h1]> ind2 in
  Some (ind1, ind2).

(** [toolbox.mate]: [crossover] on two individuals.  The lists are changed
    in place, so identity, fitness and crowding distance stay. *)
Definition mate (ind1 ind2 : Individual) : M (Individual * Individual) :=
  _ <~ log (Mated (oid ind1) (oid ind2)) ;;
  '(g1, g2) <~ liftE IndexError (crossover (genes ind1) (genes ind2)) ;;
  ret (setGenes ind1 g1, setGenes ind2 g2).

(** ** [tools.mutUniformInt] *)

(** [for i in range(size): if random.random() < indpb:
       individual[i] = random.randint(low, up)] *)
Definition mutUniformInt (low up : Z) (indpb : Q) (individual : list Z)
  : M (list Z) :=
  foldM (λ ind i,
           u <~ random_random ;;
           if Qltb u indpb
           then v <~ random_randint low up ;; ret (<[i := v]> ind)
           else ret ind)
        individual (seq 0 (length individual)).

(** [toolbox.mutate]: the registered [mutUniformInt], on an individual. *)
Definition mutate (low up : Z) (indpb : Q) (ind : Individual) : M Individual :=
  _ <~ log (Mutated (oid ind)) ;;
  g <~ mutUniformInt low up indpb (genes ind) ;;
  ret (setGenes ind g).

(** ** [tools.initRepeat] and the registered generators *)

Definition MAX_ATTRIBUTE_SIZE : Z := 25.

(** [toolbox.attr_item] *)
Definition attr_item : M Z := random_randint 1 MAX_ATTRIBUTE_SIZE.

(** [creator.Individual(...)]: a new list object with an empty fitness. *)
Definition new_Individual (g : list Z) : M Individual :=
  o <~ fresh_oid ;;
  ret (mkInd o g None None).

(** [tools.initRepeat(container, func, n)]: [container(func() for _ in range(n))] *)
Definition initRepeat {A B} (container : list A → M B) (func : M A) (n : Z)
  : M B :=
  xs <~ repeatM (Z.to_nat n) func ;; container xs.

(** [toolbox.individual] and [toolbox.population] *)
Definition individual : M Individual := initRepeat new_Individual attr_item 2.

Definition population (n : Z) : M (list Individual) := initRepeat ret individual n.

(** ** [tools.sortNondominated]

    A fitness without values has the empty tuple as weighted values: it
    dominates nothing, nothing dominates it, and it equals only another
    empty one. *)

Definition key_dominates (a b : option (Q * Q)) : bool :=
  match a, b with
  | Some x, Some y => dominates x y
  | _, _ => false
  end.

Definition key_eq (a b : option (Q * Q)) : bool :=
  match a, b with
  | Some x, Some y => fitness_eq x y
  | None, None => true
  | _, _ => false
  end.

(** [map_fit_ind[ind.fitness].append(ind)] on a dict that keeps its keys in
    insertion order; a key is found by equality of fitness. *)
Fixpoint dict_append (d : list (option (Q * Q) * list Individual))
    (ind : Individual) : list (option (Q * Q) * list Individual) :=
  match d with
  | [] => [(wvalues ind, [ind])]
  | (k, l) :: d' =>
      if key_eq k (wvalues ind) then (k, l ++ [ind]) :: d'
      else (k, l) :: dict_append d' ind
  end.

(** The ranking proper.  [fits] is the list of the distinct fitnesses; the
    dicts [dominating_fits] and [dominated_fits] are keyed by those
    fitnesses, which the model names by their position in [fits]:
    [D i j] is [fits[i].dominates(fits[j])], [weight i] is
    [len(map_fit_ind[fits[i]])], and a front is a list of positions. *)
Section Ranking.
Variable m : nat.                     (* len(fits) *)
Variable D : nat → nat → bool.
Variable weight : nat → nat.

(** The body of [for fit_j in fits[i+1:]] *)
Definition rank_pair (i : nat) (st : (nat → Z) * (nat → list nat)) (j : nat)
  : (nat → Z) * (nat → list nat) :=
  let '(dominating_fits, dominated_fits) := st in
  if D i j then
    (<[j := (dominating_fits j + 1)%Z]> dominating_fits,
     <[i := dominated_fits i ++ [j]]> dominated_fits)
  else if D j i then
    (<[i := (dominating_fits i + 1)%Z]> dominating_fits,
     <[j := dominated_fits j ++ [i]]> dominated_fits)
  else st.

(** The body of [for i, fit_i in enumerate(fits)] *)
Definition rank_row (st : (nat → Z) * (nat → list nat) * list nat) (i : nat)
  : (nat → Z) * (nat → list nat) * list nat :=
  let '(dominating_fits, dominated_fits, current_front) := st in
  let '(dominating_fits, dominated_fits) :=
    foldl (rank_pair i) (dominating_fits, dominated_fits)
          (seq (S i) (m - S i)) in
  if (dominating_fits i =? 0)%Z
  then (dominating_fits, dominated_fits, current_front ++ [i])
  else (dominating_fits, dominated_fits, current_front).

(** "Rank first Pareto front" *)
Definition rank_first : (nat → Z) * (nat → list nat) * list nat :=
  foldl rank_row (λ _, 0%Z, λ _, [], []) (seq 0 m).

(** The body of [for fit_d in dominated_fits[fit_p]] *)
Definition release (st : (nat → Z) * list nat * nat) (d : nat)
  : (nat → Z) * list nat * nat :=
  let '(dominating_fits, next_front, pareto_sorted) := st in
  let dominating_fits := <[d := (dominating_fits d - 1)%Z]> dominating_fits in
  if (dominating_fits d =? 0)%Z
  then (dominating_fits, next_front ++ [d], (pareto_sorted + weight d)%nat)
  else (dominating_fits, next_front, pareto_sorted).

(** One round of [while pareto_sorted < N]: the two nested [for] loops. *)
Definition next_round (dominated_fits : nat → list nat)
    (dominating_fits : nat → Z) (current_front : list nat)
    (pareto_sorted : nat) : (nat → Z) * list nat * nat :=
  foldl (λ st fit_p, foldl release st (dominated_fits fit_p))
        (dominating_fits, [], pareto_sorted) current_front.

(** [while pareto_sorted < N].  [None]: the loop is still running after
    [fuel] rounds. *)
Fixpoint rank_rest (fuel : nat) (N : Z) (dominated_fits : nat → list nat)
    (dominating_fits : nat → Z) (current_front : list nat)
    (fronts : list (list nat)) (pareto_sorted : nat)
  : option (list (list nat)) :=
  if (Z.of_nat pareto_sorted <? N)%Z then
    match fuel with
    | O => None
    | S fuel' =>
        let '(dominating_fits, next_front, pareto_sorted) :=
          next_round dominated_fits dominating_fits current_front
                     pareto_sorted in
        rank_rest fuel' N dominated_fits dominating_fits next_front
                  (fronts ++ [next_front]) pareto_sorted
    end
  else Some fronts.

Definition rank_fronts (N : Z) : option (list (list nat)) :=
  let '(dominating_fits, dominated_fits, current_front) := rank_first in
  rank_rest m N dominated_fits dominating_fits current_front
            [current_front] (sum_list_with weight current_front).
End Ranking.

(** [sortNondominated(individuals, k)], with [first_front_only=False].
    The rounds of the [while] loop are bounded by [len(fits)]; that this
    bound is never reached is [sortNondominated_total] below. *)
Definition sortNondominated (individuals : list Individual) (k : Z)
  : option (list (list Individual)) :=
  if (k =? 0)%Z then Some []
  else
    let map_fit_ind := foldl dict_append [] individuals in
    let fits := map_fit_ind.*1 in
    let group (i : nat) := default [] (map_fit_ind.*2 !! i) in
    let D (i j : nat) :=
      match fits !! i, fits !! j with
      | Some fit_i, Some fit_j => key_dominates fit_i fit_j
      | _, _ => false
      end in
    let N := (Z.of_nat (length individuals) `min` k)%Z in
    match rank_fronts (length fits) D (λ i, length (group i)) N with
    | Some fronts =>
        Some ((λ front : list nat, concat (group <$> front)) <$> fronts)
    | None => None
    end.

(** ** [tools.emo.assignCrowdingDist] *)

(** A stable sort: [x] goes before the first element it is smaller than,
    so after every earlier element that is not greater. *)
Fixpoint insert_sorted {A} (lt : A → A → bool) (x : A) (l : list A) : list A :=
  match l with
  | [] => [x]
  | y :: l' => if lt x y then x :: y :: l' else y :: insert_sorted lt x l'
  end.

Definition stable_sort {A} (lt : A → A → bool) (l : list A) : list A :=
  foldl (λ acc x, insert_sorted lt x acc) [] l.

Definition obj (i : nat) (v : Q * Q) : Q :=
  match i with O => fst v | _ => snd v end.

(** [d += q] on floats *)
Definition Dist_add (q : Q) (d : Dist) : Dist :=
  match d with Fin a => Fin (a + q) | Inf => Inf end.

Definition Dist_ltb (a b : Dist) : bool :=
  match a, b with
  | Fin x, Fin y => Qltb x y
  | Fin _, Inf => true
  | Inf, _ => false
  end.

(** The body of [for i in range(nobj)] *)
Definition crowd_objective (nobj : nat)
    (st : list ((Q * Q) * nat) * list Dist) (i : nat)
  : list ((Q * Q) * nat) * list Dist :=
  let '(crowd, distances) := st in
  let crowd := stable_sort (λ a b, Qltb (obj i a.1) (obj i b.1)) crowd in
  match head crowd, list.last crowd with
  | Some lo, Some hi =>
      let distances := <[lo.2 := Inf]> distances in
      let distances := <[hi.2 := Inf]> distances in
      if Qeq_bool (obj i hi.1) (obj i lo.1) then (crowd, distances)
      else
        let norm := (inject_Z (Z.of_nat nobj) * (obj i hi.1 - obj i lo.1))%Q in
        let n := length crowd in
        (crowd,
         foldl (λ ds '(prev, (cur, next)),
                  alter (Dist_add ((obj i next.1 - obj i prev.1) / norm)) cur.2 ds)
               distances
               (zip (take (n - 2) crowd)
                    (zip (drop 1 (take (n - 1) crowd)) (drop 2 crowd))))
  | _, _ => (crowd, distances)
  end.

(** [individuals[i].fitness.crowding_dist = dist]: a write to the object,
    seen through every entry of the front that is this object. *)
Definition write_dist (individuals : list Individual) (w : nat * Dist)
  : list Individual :=
  match individuals !! w.1 with
  | Some target =>
      (λ ind, if (oid ind =? oid target)%nat then setCrowdingDist ind w.2
              else ind) <$> individuals
  | None => individuals
  end.

(** [assignCrowdingDist(individuals)]; [None] is the IndexError of a sort
    key on a fitness without values. *)
Definition assignCrowdingDist (individuals : list Individual)
  : option (list Individual) :=
  match individuals with
  | [] => Some []
  | first :: _ =>
      let distances := replicate (length individuals) (Fin 0) in
      match wvalues first with
      | None => Some (foldl write_dist individuals (imap pair distances))
      | Some _ =>
          let nobj := 2%nat in
          values ← mapM (λ ind, getValues <$> wvalues ind) individuals;
          let crowd := imap (λ i v, (v, i)) values in
          let '(_, distances) :=
            foldl (crowd_objective nobj) (crowd, distances) (seq 0 nobj) in
          Some (foldl write_dist individuals (imap pair distances))
      end
  end.

(** ** [tools.selNSGA2], with [nd='standard'] *)

(** [None] is an exception: the IndexError above, or the AttributeError of
    reading a crowding distance that was never assigned. *)
Definition selNSGA2 (individuals : list Individual) (k : Z)
  : option (list Individual) :=
  pareto_fronts ← sortNondominated individuals k;
  pareto_fronts ← mapM assignCrowdingDist pareto_fronts;
  let chosen := concat (removelast pareto_fronts) in
  let k := (k - Z.of_nat (length chosen))%Z in
  if (0 <? k)%Z then
    last_front ← list.last pareto_fronts;
    keyed ← mapM (λ ind, d ← crowding_dist ind; Some (d, ind)) last_front;
    let sorted_front :=
      (stable_sort (λ a b, Dist_ltb b.1 a.1) keyed).*2 in
    Some (chosen ++ take (Z.to_nat k) sorted_front)
  else Some chosen.

(** ** [tools.ParetoFront] (a [HallOfFame] with [maxsize=None] and
    [similar=operator.eq]) *)

Record ParetoFront : Type := mkHof {
  keys : list (option (Q * Q));     (* the fitnesses, ascending *)
  items : list Individual           (* the members, best first *)
}.

Definition key_lt (a b : option (Q * Q)) : bool :=
  match a, b with
  | Some x, Some y => fitness_lt x y
  | None, Some _ => true
  | _, None => false
  end.

(** [bisect.bisect_right(a, x)]; the loop halves [hi - lo], so [len(a)]
    rounds are enough. *)
Fixpoint bisect_loop (fuel : nat) (a : list (option (Q * Q)))
    (x : option (Q * Q)) (lo hi : nat) : nat :=
  match fuel with
  | O => lo
  | S fuel' =>
      if (lo <? hi)%nat then
        let mid := ((lo + hi) / 2)%nat in
        match a !! mid with
        | Some a_mid =>
            if key_lt x a_mid then bisect_loop fuel' a x lo mid
            else bisect_loop fuel' a x (S mid) hi
        | None => lo
        end
      else lo
  end.

Definition bisect_right (a : list (option (Q * Q))) (x : option (Q * Q)) : nat :=
  bisect_loop (S (length a)) a x 0 (length a).

(** [list.insert(i, x)] for [0 <= i] *)
Definition list_insert_at {A} (i : nat) (x : A) (l : list A) : list A :=
  take i l ++ x :: drop i l.

(** [HallOfFame.insert(item)] *)
Definition hof_insert (hof : ParetoFront) (item : Individual) : M ParetoFront :=
  item <~ deepcopy item ;;
  let i := bisect_right (keys hof) (wvalues item) in
  ret (mkHof (list_insert_at i (wvalues item) (keys hof))
             (list_insert_at (length (items hof) - i) item (items hof))).

(** [HallOfFame.remove(index)] *)
Definition hof_remove (hof : ParetoFront) (index : nat) : ParetoFront :=
  let n := length (items hof) in
  mkHof (delete (n - (index mod n + 1))%nat (keys hof))
        (delete index (items hof)).

(** [operator.eq] on two individuals: equality of the lists. *)
Definition similar (a b : Individual) : bool := bool_decide (genes a = genes b).

(** [for i, hofer in enumerate(self)] of [ParetoFront.update], from position
    [i] on; the result is [(is_dominated, has_twin, to_remove)]. *)
Fixpoint hof_scan (ind : Individual) (i : nat) (hofers : list Individual)
    (dominates_one : bool) (to_remove : list nat) : bool * bool * list nat :=
  match hofers with
  | [] => (false, false, to_remove)
  | hofer :: rest =>
      if negb dominates_one && key_dominates (wvalues hofer) (wvalues ind)
      then (true, false, to_remove)                                (* break *)
      else if key_dominates (wvalues ind) (wvalues hofer)
      then hof_scan ind (S i) rest true (to_remove ++ [i])
      else if key_eq (wvalues ind) (wvalues hofer) && similar ind hofer
      then (false, true, to_remove)                                (* break *)
      else hof_scan ind (S i) rest dominates_one to_remove
  end.

(** The body of [for ind in population] of [ParetoFront.update] *)
Definition hof_update_one (hof : ParetoFront) (ind : Individual) : M ParetoFront :=
  let '(is_dominated, has_twin, to_remove) :=
    hof_scan ind 0 (items hof) false [] in
  let hof := foldl hof_remove hof (reverse to_remove) in
  if negb is_dominated && negb has_twin then hof_insert hof ind
  else ret hof.

(** [ParetoFront.update(population)] *)
Definition hof_update (hof : ParetoFront) (population : list Individual)
  : M ParetoFront :=
  foldM hof_update_one hof population.

(** ** [algorithms.varOr] and [algorithms.eaMuPlusLambda] *)

(** The toolbox: the operations registered under the names the algorithm
    calls. *)
Record Toolbox : Type := mkToolbox {
  tb_evaluate : Individual → M (Q * Q);
  tb_mate : Individual → Individual → M (Individual * Individual);
  tb_mutate : Individual → M Individual;
  tb_select : list Individual → Z → M (list Individual);
  tb_clone : Individual → M Individual
}.

Definition varOr (population : list Individual) (toolbox : Toolbox)
    (lambda_ : Z) (cxpb mutpb : Q) : M (list Individual) :=
  if Qle_bool (cxpb + mutpb) 1 then
    foldM (λ offspring (_ : nat),
             op_choice <~ random_random ;;
             if Qltb op_choice cxpb then                 (* Apply crossover *)
               '(p1, p2) <~ random_sample2 population ;;
               ind1 <~ tb_clone toolbox p1 ;;
               ind2 <~ tb_clone toolbox p2 ;;
               '(ind1, ind2) <~ tb_mate toolbox ind1 ind2 ;;
               ret (offspring ++ [delValues ind1])
             else if Qltb op_choice (cxpb + mutpb) then  (* Apply mutation *)
               p <~ random_choice population ;;
               ind <~ tb_clone toolbox p ;;
               ind <~ tb_mutate toolbox ind ;;
               ret (offspring ++ [delValues ind])
             else                                        (* Apply reproduction *)
               p <~ random_choice population ;;
               ret (offspring ++ [p]))
          [] (seq 0 (Z.to_nat lambda_))
  else raise AssertionError.

(** "Evaluate the individuals with an invalid fitness" *)
Definition evaluate_invalid (toolbox : Toolbox) (inds : list Individual)
  : M (list Individual) :=
  foldM (λ done ind,
           if valid ind then ret (done ++ [ind])
           else fit <~ tb_evaluate toolbox ind ;;
                ret (done ++ [setValues ind fit]))
        [] inds.

(** The body of [for gen in range(1, ngen + 1)].  The logbook and the
    statistics only record and print. *)
Definition generation (toolbox : Toolbox) (mu lambda_ : Z) (cxpb mutpb : Q)
    (st : list Individual * ParetoFront) : M (list Individual * ParetoFront) :=
  let '(population, halloffame) := st in
  offspring <~ varOr population toolbox lambda_ cxpb mutpb ;;
  offspring <~ evaluate_invalid toolbox offspring ;;
  halloffame <~ hof_update halloffame offspring ;;
  population <~ tb_select toolbox (population ++ offspring) mu ;;
  ret (population, halloffame).

Fixpoint generations (n : nat) (toolbox : Toolbox) (mu lambda_ : Z)
    (cxpb mutpb : Q) (st : list Individual * ParetoFront)
  : M (list Individual * ParetoFront) :=
  match n with
  | O => ret st
  | S n' =>
      st <~ generation toolbox mu lambda_ cxpb mutpb st ;;
      generations n' toolbox mu lambda_ cxpb mutpb st
  end.

Definition eaMuPlusLambda (population : list Individual) (toolbox : Toolbox)
    (mu lambda_ : Z) (cxpb mutpb : Q) (ngen : Z) (halloffame : ParetoFront)
  : M (list Individual * ParetoFront) :=
  population <~ evaluate_invalid toolbox population ;;
  halloffame <~ hof_update halloffame population ;;
  generations (Z.to_nat ngen) toolbox mu lambda_ cxpb mutpb
              (population, halloffame).

(** ** [main] *)

Section Main.
(** The binary64 results of [calculate_volume] and
    [calculate_surface_area], as rationals. *)
Variables fl_volume fl_surface_area : Z → Z → Q.

(** The four [toolbox.register] calls of [main]; [clone] is the
    toolbox's default, [deepcopy]. *)
Definition toolbox : Toolbox :=
  mkToolbox
    (λ ind, liftE IndexError
              (evaluate_fitness fl_volume fl_surface_area (genes ind)))
    mate
    (mutate 1 MAX_ATTRIBUTE_SIZE 0.05)
    (λ individuals k, liftE IndexError (selNSGA2 individuals k))
    deepcopy.

(** [main] returns [(pop, stats, hof)]; [stats] is the statistics object
    it created, which holds no data of the run. *)
Definition main (population_size max_generations : Z)
  : M (list Individual * ParetoFront) :=
  let NGEN := max_generations in
  let MU := population_size in
  let LAMBDA := 100%Z in
  let CXPB := 0.7%Q in
  let MUTPB := 0.2%Q in
  pop <~ population MU ;;
  let hof := mkHof [] [] in
  eaMuPlusLambda pop toolbox MU LAMBDA CXPB MUTPB NGEN hof.
End Main.

(** ** The script

    [pop, stats, hof = main(500, 200)], then the loop
    [for ind in hof: x.append(calculate_volume(ind[0], ind[1]));
     y.append(calculate_surface_area(ind[0], ind[1]))].
    The result is the pair of lists that the script plots; the calls to
    [plt] only draw and are left out.  Iterating the archive yields its
    items in order. *)
Definition objective_space {F : Type} (volume_of surface_area_of : Z → Z → F)
    (hof : ParetoFront) : option (list F * list F) :=
  foldl (λ acc ind,
           '(x, y) ← acc;
           r ← genes ind !! 0%nat;
           h ← genes ind !! 1%nat;
           let x := x ++ [volume_of r h] in
           r ← genes ind !! 0%nat;
           h ← genes ind !! 1%nat;
           let y := y ++ [surface_area_of r h] in
           Some (x, y))
        (Some ([], [])) (items hof).

Definition script (fl_volume fl_surface_area : Z → Z → Q)
  : M (list Q * list Q) :=
  '(pop, hof) <~ main fl_volume fl_surface_area 500 200 ;;
  liftE IndexError (objective_space fl_volume fl_surface_area hof).

(** * Vocabulary of the properties

    The predicates, invariants and auxiliary functions in which the
    properties of the program are stated and proved, and the concrete
    inputs on which they are run. *)

(** Occurrences of [x] in [l]. *)
Definition occ (x : nat) (l : list nat) : nat :=
  length (filter (λ y, y = x) l).

Section RankingVocabulary.
Variable m : nat.
Variable D : nat → nat → bool.
Variable weight : nat → nat.

(** The edges into [x] from the fitnesses outside [P]: the number of
    occurrences of [x] in their [dominated_fits] lists. *)
Definition indeg (dominated : nat → list nat) (P : list nat) (x : nat) : nat :=
  sum_list_with (λ y, occ x (dominated y)) (filter (λ y, y ∉ P) (seq 0 m)).

(** What the first loop establishes: the counters are the in-degrees, and
    the edges are dominance pairs between positions below [m]. *)
Definition counted (dominating : nat → Z) (dominated : nat → list nat) : Prop :=
  (∀ x, dominating x = Z.of_nat (indeg dominated [] x))
  ∧ (∀ y x, x ∈ dominated y → D y x = true ∧ x < m ∧ y < m).

(** The invariant of [while pareto_sorted < N] at the loop head: [P] lists
    the positions of the fronts before the current one. *)
Definition ranked (dominated : nat → list nat) (dominating : nat → Z)
    (P cur : list nat) : Prop :=
  NoDup (P ++ cur)
  ∧ (∀ x, x ∈ P ++ cur → x < m)
  ∧ (∀ x, dominating x = Z.of_nat (indeg dominated P x))
  ∧ (∀ x, x < m → (x ∈ P ++ cur ↔ dominating x = 0%Z)).

(** A position whose dominators... a dominator has fewer dominators. *)
Definition npred (x : nat) : nat :=
  length (filter (λ y, D y x = true) (seq 0 m)).

(** The number of individuals in a list of fronts. *)
Definition wsum (fronts : list (list nat)) : nat :=
  sum_list_with (sum_list_with weight) fronts.
End RankingVocabulary.

(** Two records of the same object state, up to the crowding distance. *)
Definition same_ind (a b : Individual) : Prop :=
  oid a = oid b ∧ genes a = genes b ∧ wvalues a = wvalues b.

(** [c] is an individual of [pool], up to its crowding distance. *)
Definition from_pool (pool : list Individual) (c : Individual) : Prop :=
  ∃ p, p ∈ pool ∧ same_ind p c.

Definition safe {A} (F : Prop) (m : M A) (s : State) (Q : A → State → Prop)
  : Prop :=
  match m s with
  | Ok a s' => Q a s'
  | Raise _ => F
  end.

Definition in_bounds (g : list Z) : Prop :=
  Forall (λ x, (1 ≤ x ≤ MAX_ATTRIBUTE_SIZE)%Z) g.

(** The positions, counted from [i], of the members that [ind] dominates. *)
Fixpoint dominated_positions (ind : Individual) (i : nat)
    (hofers : list Individual) : list nat :=
  match hofers with
  | [] => []
  | hofer :: rest =>
      if key_dominates (wvalues ind) (wvalues hofer)
      then i :: dominated_positions ind (S i) rest
      else dominated_positions ind (S i) rest
  end.

Definition twin (ind hofer : Individual) : bool :=
  key_eq (wvalues ind) (wvalues hofer) && similar ind hofer.

Section ArchiveVocabulary.
(** The fitness of a decision vector, as the evaluation stores it. *)
Variable fit : list Z → option (Q * Q).

Definition evaluated (ind : Individual) : Prop :=
  wvalues ind = fit (genes ind).

(** No member dominates another, and no decision vector occurs twice. *)
Definition hof_inv (hof : ParetoFront) : Prop :=
  Forall evaluated (items hof)
  ∧ (∀ a b, a ∈ items hof → b ∈ items hof →
       key_dominates (wvalues a) (wvalues b) = false)
  ∧ NoDup (genes <$> items hof).

(** Every member of [old] is still in [new] or is dominated by a member
    of [new]. *)
Definition covers (old new : ParetoFront) : Prop :=
  ∀ a, a ∈ items old →
    a ∈ items new
    ∨ ∃ b, b ∈ items new ∧ key_dominates (wvalues b) (wvalues a) = true.

(** Every member of [new] is a member of [old] or a copy of one of
    [inds]. *)
Definition drawn_from (old : ParetoFront) (inds : list Individual)
    (new : ParetoFront) : Prop :=
  ∀ b, b ∈ items new →
    b ∈ items old
    ∨ ∃ ind, ind ∈ inds ∧ genes b = genes ind ∧ wvalues b = wvalues ind.
End ArchiveVocabulary.

Section RunVocabulary.
Variables fl_volume fl_surface_area : Z → Z → Q.

(** The weighted fitness that the evaluation stores for a decision
    vector. *)
Definition fit_of (g : list Z) : option (Q * Q) :=
  weighted <$> evaluate_fitness fl_volume fl_surface_area g.

(** A well-formed individual: two genes within the bounds, and a fitness
    that, when present, is the one of its genes. *)
Definition shaped (ind : Individual) : Prop :=
  length (genes ind) = 2 ∧ in_bounds (genes ind)
  ∧ (wvalues ind = None ∨ wvalues ind = fit_of (genes ind)).

(** ... and evaluated. *)
Definition good (ind : Individual) : Prop :=
  length (genes ind) = 2 ∧ in_bounds (genes ind)
  ∧ wvalues ind = fit_of (genes ind).

(** The invariant of the generational loop. *)
Definition run_inv (mu : Z) (st : list Individual * ParetoFront) : Prop :=
  length st.1 = Z.to_nat mu ∧ Forall good st.1
  ∧ hof_inv fit_of st.2 ∧ Forall good (items st.2).
End RunVocabulary.

Section SortKeyVocabulary.
Context {A : Type} (key : A → Q).

Definition key_le (a b : A) : Prop := (key a <= key b)%Q.

Definition key_ltb (a b : A) : bool := Qltb (key a) (key b).
End SortKeyVocabulary.

(** The value of objective [i] of an individual, as [fitness.values[i]]. *)
Definition objective (i : nat) (ind : Individual) : option Q :=
  (λ w, obj i (getValues w)) <$> wvalues ind.

(** A front with a tie: two distinct individuals with the genes [1, 1] and
    one with [2, 2], with their fitness values to three decimals. *)
Definition tie_front : list Individual :=
  [ setValues (mkInd 0 [1; 1]%Z None None) (1.047, 7.584)%Q;
    setValues (mkInd 1 [1; 1]%Z None None) (1.047, 7.584)%Q;
    setValues (mkInd 2 [2; 2]%Z None None) (8.378, 30.338)%Q ].

Definition tie_assigned : list Individual :=
  default [] (assignCrowdingDist tie_front).

(** The statement on the extremes, in the specification's words: whoever holds
    the least or the greatest value of an objective has an infinite
    distance. *)
Definition extremes_infinite (assigned : list Individual) : Prop :=
  ∀ i ind v,
    i < 2 → ind ∈ assigned → objective i ind = Some v →
    (∀ other v', other ∈ assigned → objective i other = Some v' → (v <= v')%Q)
    ∨ (∀ other v', other ∈ assigned → objective i other = Some v' → (v' <= v)%Q) →
    crowding_dist ind = Some Inf.

(** Two states from which the generator yields the same draws and the
    allocator the same identities. *)
Definition same_future (s1 s2 : State) : Prop :=
  (∀ i, tape s1 (cursor s1 + i) = tape s2 (cursor s2 + i))
  ∧ next_oid s1 = next_oid s2.

(** [m] depends on the state only through that future. *)
Definition deterministic {A} (m : M A) : Prop :=
  ∀ s1 s2, same_future s1 s2 →
    match m s1, m s2 with
    | Ok a s1', Ok b s2' => a = b ∧ same_future s1' s2'
    | Raise e1, Raise e2 => e1 = e2
    | _, _ => False
    end.

(** Stand-ins for the two float formulas, to run the engine on concrete
    inputs: the objectives of the example scenario, the square root rounded
    down. *)
Definition demo_volume (r h : Z) : Q := inject_Z (r * r * h).

Definition demo_surface_area (r h : Z) : Q :=
  inject_Z (r * Z.sqrt (r * r + h * h) + r * r).

(** What a caller sees of a run: the decision vectors of the final
    population and of the archive. *)
Definition outcome (r : result (list Individual * ParetoFront))
  : option (list (list Z) * list (list Z)) :=
  match r with
  | Ok (pop, hof) _ => Some (genes <$> pop, genes <$> items hof)
  | Raise _ => None
  end.

(** The identities an event mentions. *)
Definition event_oids (e : event) : list nat :=
  match e with
  | Mated o1 o2 => [o1; o2]
  | Mutated o => [o]
  end.

(** A step that allocates nothing and logs nothing. *)
Definition quiet (s s' : State) : Prop :=
  next_oid s' = next_oid s ∧ trace s' = trace s.

(** The value [random.random()] returns in state [s]. *)
Definition next_random (s : State) : Q :=
  Z.of_N (tape s (cursor s) mod 2 ^ 53) # 2 ^ 53.

Definition trace_oids (evs : list event) : list nat :=
  concat (event_oids <$> evs).

(** How an offspring came about, by the events of the call that produced
    it: as the first child of a crossover and not mutated; by mutation and
    not mated; or as a member of the population that no operator touched. *)
Definition by_crossover (evs : list event) (child : Individual) : Prop :=
  (∃ o2, Mated (oid child) o2 ∈ evs) ∧ (Mutated (oid child) ∉ evs)
  ∧ wvalues child = None.

Definition by_mutation (evs : list event) (child : Individual) : Prop :=
  Mutated (oid child) ∈ evs
  ∧ (∀ o1 o2, Mated o1 o2 ∈ evs → o1 ≠ oid child ∧ o2 ≠ oid child)
  ∧ wvalues child = None.

Definition by_reproduction (population : list Individual) (evs : list event)
    (child : Individual) : Prop :=
  child ∈ population ∧ ∀ e, e ∈ evs → oid child ∉ event_oids e.

Section OneOperationVocabulary.
Variable population : list Individual.
Variable s : State.

(** What the loop knows of an offspring while it runs. *)
Definition origin (evs : list event) (child : Individual) : Prop :=
  (∃ o2, Mated (oid child) o2 ∈ evs ∧ wvalues child = None)
  ∨ (Mutated (oid child) ∈ evs ∧ wvalues child = None)
  ∨ child ∈ population.

Definition varOr_inv (pre : list nat) (offspring : list Individual)
    (st : State) : Prop :=
  ∃ evs,
    trace st = trace s ++ evs
    ∧ next_oid s ≤ next_oid st
    ∧ NoDup (trace_oids evs)
    ∧ (∀ o, o ∈ trace_oids evs → next_oid s ≤ o < next_oid st)
    ∧ length offspring = length pre
    ∧ Forall (origin evs) offspring.
End OneOperationVocabulary.

(** ** The variation step as the specification words it

    Crossover first, on a selected pair of parents, with probability
    [cxpb], the pair passing through unchanged otherwise; then the mutation
    pass on each of the two, with probability [mutpb].  This definition
    follows the specification, not the code; it is what [varOr] is compared
    with. *)
Definition spec_mutation_pass (toolbox : Toolbox) (mutpb : Q)
    (ind : Individual) : M Individual :=
  u <~ random_random ;;
  if Qltb u mutpb then
    ind <~ tb_mutate toolbox ind ;;
    ret (delValues ind)
  else ret ind.

Definition spec_vary_pair (population : list Individual) (toolbox : Toolbox)
    (cxpb mutpb : Q) : M (list Individual) :=
  '(p1, p2) <~ random_sample2 population ;;
  ind1 <~ tb_clone toolbox p1 ;;
  ind2 <~ tb_clone toolbox p2 ;;
  u <~ random_random ;;
  '(ind1, ind2) <~ (if Qltb u cxpb then
                      '(ind1, ind2) <~ tb_mate toolbox ind1 ind2 ;;
                      ret (delValues ind1, delValues ind2)
                    else ret (ind1, ind2)) ;;
  ind1 <~ spec_mutation_pass toolbox mutpb ind1 ;;
  ind2 <~ spec_mutation_pass toolbox mutpb ind2 ;;
  ret [ind1; ind2].

Definition spec_vary (population : list Individual) (toolbox : Toolbox)
    (lambda_ : Z) (cxpb mutpb : Q) : M (list Individual) :=
  pairs <~ repeatM (Z.to_nat ((lambda_ + 1) / 2))
                   (spec_vary_pair population toolbox cxpb mutpb) ;;
  ret (take (Z.to_nat lambda_) (concat pairs)).

(** The decision vectors of the offspring of a variation step, and the
    operator calls it made. *)
Definition offspring_genes (r : result (list Individual))
  : option (list (list Z)) :=
  match r with
  | Ok offspring _ => Some (genes <$> offspring)
  | Raise _ => None
  end.

Definition operator_calls (r : result (list Individual)) : list event :=
  match r with
  | Ok _ s => trace s
  | Raise _ => []
  end.

Definition demo_parents : list Individual :=
  [mkInd 0 [5; 6]%Z None None; mkInd 1 [7; 8]%Z None None].

Definition zero_draws : State := mkState (λ _, 0%N) 0 2 [].

(** A run of [varOr] in which all three branches are taken. *)
Definition mixed_draws : State :=
  mkState (λ i, (N.of_nat (i + 3) * 7205759403792793)%N) 0 2 [].

(** A run of [main] on which the archive is followed from the initial
    population to the first generation. *)
Definition counting_draws : State := mkState (λ i, N.of_nat i) 0 0 [].

(** A front without ties: the individuals [1, 1], [2, 2], [3, 3] as
    distinct objects, and the list of the values and positions that
    [assignCrowdingDist] sorts for it. *)
Definition plain_front : list Individual :=
  [ setValues (mkInd 0 [1; 1]%Z None None) (1, 7)%Q;
    setValues (mkInd 1 [2; 2]%Z None None) (8, 30)%Q;
    setValues (mkInd 2 [3; 3]%Z None None) (28, 68)%Q ].

Definition plain_crowd : list (Q * Q * nat) :=
  [ ((1, 7)%Q, 0); ((8, 30)%Q, 1); ((28, 68)%Q, 2) ].

(** The value [toolbox.attr_item()] returns on the raw draw [k] places
    after the cursor of [s]. *)
Definition drawn_gene (s : State) (k : nat) : Z :=
  (1 + Z.of_N (tape s (cursor s + k)) mod 25)%Z.


(** The order of [bisect_right] on the keys of the archive:
    [key_leq a b] is [not (b < a)]. *)
Definition key_leq (a b : option (Q * Q)) : Prop := key_lt b a = false.

(** The keys of the archive are the fitnesses of its members in reverse
    order, and ascend. *)
Definition hof_sorted (hof : ParetoFront) : Prop :=
  keys hof = reverse (wvalues <$> items hof)
  ∧ StronglySorted key_leq (keys hof).

(** A member of the archive dominates [ind] or has its decision vector and
    its fitness. *)
Definition matched (hof : ParetoFront) (ind : Individual) : Prop :=
  ∃ b, b ∈ items hof
       ∧ (key_dominates (wvalues b) (wvalues ind) = true
          ∨ (genes b = genes ind ∧ wvalues b = wvalues ind)).

(** The invariant of the generational loop on the population and the
    archive together. *)
Definition archive_inv (fl_volume fl_surface_area : Z → Z → Q) (mu : Z)
    (st : list Individual * ParetoFront) : Prop :=
  run_inv fl_volume fl_surface_area mu st
  ∧ hof_sorted st.2
  ∧ Forall (matched st.2) st.1.


(** Two points of the objective space, the first listed before the second
    in the archive: the second has less volume and less surface area, or
    the two coincide. *)
Definition descends (p q : Q * Q) : Prop :=
  (q.1 < p.1 ∧ q.2 < p.2)%Q ∨ (q.1 == p.1 ∧ q.2 == p.2)%Q.

(** An offspring that carries the decision vector of a member of the
    population. *)
Definition copies_parent (population : list Individual) (child : Individual)
  : Prop :=
  ∃ p, p ∈ population ∧ genes child = genes p.

(** A population of two evaluated individuals, for the runs below. *)
Definition demo_evaluated : list Individual :=
  [ mkInd 0 [5; 6]%Z (fit_of demo_volume demo_surface_area [5; 6]%Z) None;
    mkInd 1 [7; 8]%Z (fit_of demo_volume demo_surface_area [7; 8]%Z) None ].

(** [m] started in [s] returns, or raises an exception that satisfies
    [E]. *)
Definition raises_only {A} (E : exn → Prop) (m : M A) (s : State) : Prop :=
  match m s with
  | Ok _ _ => True
  | Raise e => E e
  end.

(** The decision vectors within the bounds: [r, h] with both in
    [1, MAX_ATTRIBUTE_SIZE]. *)
Definition decision_vectors : list (list Z) :=
  r ← seqZ 1 MAX_ATTRIBUTE_SIZE; h ← seqZ 1 MAX_ATTRIBUTE_SIZE; [[r; h]].

(** The dict [map_fit_ind]: no list is empty, and the members of a list
    have the fitness of its key. *)
Definition grouped (d : list (option (Q * Q) * list Individual)) : Prop :=
  Forall (λ kl, kl.2 ≠ []
                ∧ Forall (λ x, key_eq kl.1 (wvalues x) = true) kl.2) d.

(** An individual of [pool] that no individual of [pool] dominates. *)
Definition nondominated_in (pool : list Individual) (p : Individual) : Prop :=
  p ∈ pool ∧ ∀ q, q ∈ pool → key_dominates (wvalues q) (wvalues p) = false.

(** Fronts that are layers of a dominance relation: nothing in a front
    dominates another member of it, and every member of a front after the
    first is dominated by a member of the front before. *)
Definition layered {A} (dom : A → A → bool) (fronts : list (list A)) : Prop :=
  (∀ f x y, f ∈ fronts → x ∈ f → y ∈ f → dom y x = false)
  ∧ (∀ i f g x, fronts !! i = Some f → fronts !! S i = Some g → x ∈ g →
       ∃ y, y ∈ f ∧ dom y x = true).


(** A pool that is a chain of dominance, with fitness values picked for
    the example: the second individual dominates the third, which
    dominates the first. *)
Definition chain_pool : list Individual :=
  [ setValues (mkInd 0 [1; 1]%Z None None) (1, 9)%Q;
    setValues (mkInd 1 [2; 2]%Z None None) (8, 3)%Q;
    setValues (mkInd 2 [3; 3]%Z None None) (5, 6)%Q ].

(** * Properties *)

(** ** Comparisons of rationals *)

Lemma Qltb_lt (x y : Q) : Qltb x y = true ↔ (x < y)%Q.
Proof.
  unfold Qltb. rewrite negb_true_iff, <- not_true_iff_false, Qle_bool_iff.
  split; [apply Qnot_le_lt | apply Qlt_not_le].
Qed.

Lemma Qltb_ge (x y : Q) : Qltb x y = false ↔ (y <= x)%Q.
Proof.
  unfold Qltb. rewrite negb_false_iff. apply Qle_bool_iff.
Qed.

Lemma Qeq_bool_false (x y : Q) : Qeq_bool x y = false ↔ ¬ (x == y)%Q.
Proof.
  rewrite <- not_true_iff_false, Qeq_bool_iff. tauto.
Qed.

(** Every boolean comparison in the context becomes its proposition. *)
Ltac qprop :=
  repeat match goal with
  | H : Qltb _ _ = true |- _ => apply Qltb_lt in H
  | H : Qltb _ _ = false |- _ => apply Qltb_ge in H
  | H : Qle_bool _ _ = true |- _ => apply Qle_bool_iff in H
  | H : Qle_bool _ _ = false |- _ =>
      apply not_true_iff_false in H; rewrite Qle_bool_iff in H
  | H : Qeq_bool _ _ = true |- _ => apply Qeq_bool_iff in H
  | H : Qeq_bool _ _ = false |- _ => apply Qeq_bool_false in H
  end.

(** [dominates] is Pareto dominance on the weighted values. *)
Lemma dominates_spec (a b : Q * Q) :
  dominates a b = true ↔
  (fst b <= fst a ∧ snd b <= snd a ∧ (fst b < fst a ∨ snd b < snd a))%Q.
Proof.
  unfold dominates.
  destruct (Qltb (fst b) (fst a)) eqn:E1, (Qltb (fst a) (fst b)) eqn:E2,
           (Qltb (snd b) (snd a)) eqn:E3, (Qltb (snd a) (snd b)) eqn:E4;
    qprop; split; intros; try discriminate; try reflexivity;
    repeat split; try lra; destruct_and?; try lra;
    match goal with H : _ ∨ _ |- _ => destruct H; lra end.
Qed.

(** ** The fitness evaluator *)


(** ** [crossover] *)

Example crossover_run : crossover [1; 2]%Z [3; 4]%Z = Some ([3; 4]%Z, [2; 4]%Z).
Proof. reflexivity. Qed.

(** C1: the specification has the two children together hold exactly the
    parents' values, the second child being [r1, h1].  The code instead
    returns [r2, h2] and [h1, h2]: the last assignment writes [h1] to
    position 0 of the second list, so [r1] is lost and [h2] occurs twice. *)
Theorem crossover_clobbers_radius (r1 h1 r2 h2 : Z) :
  crossover [r1; h1] [r2; h2] = Some ([r2; h2], [h1; h2]).
Proof. reflexivity. Qed.

(** ** The ranking of [sortNondominated] *)

Lemma foldl_concat {A B} (f : A → B → A) (a : A) (ls : list (list B)) :
  foldl f a (concat ls) = foldl (λ acc l, foldl f acc l) a ls.
Proof.
  revert a. induction ls as [|l ls IH]; intros a; simpl; [done|].
  by rewrite foldl_app, IH.
Qed.

Lemma elem_of_concat {A} (x : A) (ls : list (list A)) :
  x ∈ concat ls ↔ ∃ l, x ∈ l ∧ l ∈ ls.
Proof.
  induction ls as [|l ls IH]; simpl.
  - split; [by intros ?%elem_of_nil | by intros (? & _ & ?%elem_of_nil)].
  - rewrite elem_of_app, IH. split.
    + intros [Hx|(l' & Hx & Hl')]; [exists l; split; [done|left] |].
      exists l'. split; [done|by right].
    + intros (l' & Hx & [->|Hl']%elem_of_cons); [by left|right; eauto].
Qed.

Lemma foldl_seq_S {A} (f : A → nat → A) (a : A) (n : nat) :
  foldl f a (seq 0 (S n)) = f (foldl f a (seq 0 n)) n.
Proof. by rewrite seq_S, foldl_app. Qed.

Lemma occ_cons x y l :
  occ x (y :: l) = (if decide (y = x) then 1 else 0) + occ x l.
Proof.
  unfold occ. rewrite filter_cons. by destruct (decide (y = x)).
Qed.

Lemma occ_app x l1 l2 : occ x (l1 ++ l2) = occ x l1 + occ x l2.
Proof. unfold occ. by rewrite list.filter_app, length_app. Qed.

Lemma occ_pos x l : 0 < occ x l ↔ x ∈ l.
Proof.
  induction l as [|y l IH]; [split; [inversion 1 | by intros ?%elem_of_nil]|].
  rewrite occ_cons, elem_of_cons.
  destruct (decide (y = x)) as [->|Hne]; split; intros H; try lia; auto.
  - right. apply IH. lia.
  - destruct H as [->|H]; [done|]. apply IH in H. lia.
Qed.

Lemma occ_zero x l : occ x l = 0 ↔ x ∉ l.
Proof. rewrite <- occ_pos. lia. Qed.

Lemma occ_concat x (ls : list (list nat)) :
  occ x (concat ls) = sum_list_with (occ x) ls.
Proof.
  induction ls as [|l ls IH]; [done|]. simpl. by rewrite occ_app, IH.
Qed.

Lemma sum_list_with_fmap {A B} (f : B → nat) (g : A → B) (l : list A) :
  sum_list_with f (g <$> l) = sum_list_with (f ∘ g) l.
Proof. induction l as [|a l IH]; [done|]. csimpl. by rewrite IH. Qed.

Lemma sum_list_with_ext_in {A} (f g : A → nat) (l : list A) :
  (∀ x, x ∈ l → f x = g x) → sum_list_with f l = sum_list_with g l.
Proof.
  induction l as [|a l IH]; intros H; [done|]. simpl.
  rewrite H by left. rewrite IH; [done|]. intros; apply H; by right.
Qed.

Lemma sum_list_with_zero {A} (f : A → nat) (l : list A) :
  (∀ x, x ∈ l → f x = 0) → sum_list_with f l = 0.
Proof.
  induction l as [|a l IH]; intros H; [done|]. simpl.
  rewrite H by left. rewrite IH; [done|]. intros; apply H; by right.
Qed.

(** Changing a function at one point changes a sum over a duplicate-free list
    by the difference at that point. *)
Lemma sum_list_with_fn_insert {T} (g : T → nat) (f : nat → T) (i : nat) (v : T)
    (l : list nat) :
  NoDup l → i ∈ l →
  sum_list_with (λ y, g (<[i := v]> f y)) l + g (f i)
  = sum_list_with (λ y, g (f y)) l + g v.
Proof.
  induction 1 as [|y l Hy Hl IH]; intros Hi; [by apply elem_of_nil in Hi|].
  simpl. destruct (decide (i = y)) as [->|Hne].
  - rewrite fn_lookup_insert.
    rewrite (sum_list_with_ext_in (λ y0, g (<[y:=v]> f y0)) (λ y0, g (f y0)) l).
    + lia.
    + intros x Hx. rewrite fn_lookup_insert_ne; [done|]. by intros ->.
  - rewrite fn_lookup_insert_ne by done.
    apply elem_of_cons in Hi as [?|Hi]; [done|].
    specialize (IH Hi). lia.
Qed.

Lemma exists_min (f : nat → nat) (l : list nat) :
  l ≠ [] → ∃ x, x ∈ l ∧ ∀ y, y ∈ l → f x ≤ f y.
Proof.
  induction l as [|a l IH]; [done|]. intros _.
  destruct l as [|b l].
  - exists a. split; [left|]. by intros y ->%list_elem_of_singleton.
  - destruct IH as (x & Hx & Hmin); [done|].
    destruct (decide (f a ≤ f x)).
    + exists a. split; [left|]. intros y [->|Hy]%elem_of_cons; [done|].
      specialize (Hmin y Hy). lia.
    + exists x. split; [by right|]. intros y [->|Hy]%elem_of_cons; [lia|].
      by apply Hmin.
Qed.

Lemma length_filter_strict {A} (P Q : A → Prop) `{∀ x, Decision (P x)}
    `{∀ x, Decision (Q x)} (l : list A) (y : A) :
  (∀ z, P z → Q z) → y ∈ l → Q y → ¬ P y →
  length (filter P l) < length (filter Q l).
Proof.
  intros HPQ Hy HQ HP.
  assert (filter P l = filter P (filter Q l)) as ->.
  { rewrite list_filter_filter. apply list_filter_iff.
    intros z. split; [intros ?; split; auto | intros [? _]; done]. }
  apply length_filter_lt with y; [|done].
  apply list_elem_of_filter. done.
Qed.

Section RankingProofs.
Variable m : nat.
Variable D : nat → nat → bool.
Variable weight : nat → nat.
Hypothesis D_irrefl : ∀ i, D i i = false.
Hypothesis D_trans : ∀ i j k, D i j = true → D j k = true → D i k = true.
Local Abbreviation indeg := (indeg m).
Local Abbreviation counted := (counted m D).
Local Abbreviation ranked := (ranked m).
Local Abbreviation npred := (npred m D).
Local Abbreviation wsum := (wsum weight).

Lemma filter_notin_nil (l : list nat) : filter (λ y, y ∉ []) l = l.
Proof.
  induction l as [|a l IH]; [done|].
  rewrite filter_cons_True; [by rewrite IH | apply not_elem_of_nil].
Qed.

Lemma indeg_append dominated i j x :
  i < m →
  indeg (<[i := dominated i ++ [j]]> dominated) [] x
  = indeg dominated [] x + (if decide (j = x) then 1 else 0).
Proof.
  intros Hi. unfold indeg. rewrite filter_notin_nil.
  pose proof (sum_list_with_fn_insert (occ x) dominated i
                (dominated i ++ [j]) (seq 0 m) (NoDup_seq 0 m)) as H.
  rewrite occ_app, occ_cons in H. unfold occ at 5 in H. simpl in H.
  assert (Hin : i ∈ seq 0 m) by (apply elem_of_seq; lia).
  specialize (H Hin). lia.
Qed.

Lemma rank_pair_counted i j dominating dominated dominating' dominated' :
  i < m → j < m →
  rank_pair D i (dominating, dominated) j = (dominating', dominated') →
  counted dominating dominated → counted dominating' dominated'.
Proof.
  intros Hi Hj Hrun [Hc He]. unfold rank_pair in Hrun.
  destruct (D i j) eqn:Hij; [|destruct (D j i) eqn:Hji];
    inversion Hrun; subst; clear Hrun; [| |done].
  - split.
    + intros x. rewrite indeg_append by done.
      destruct (decide (j = x)) as [->|Hne].
      * rewrite fn_lookup_insert, Hc. lia.
      * rewrite fn_lookup_insert_ne by done. rewrite Hc. lia.
    + intros y x. destruct (decide (i = y)) as [->|Hne].
      * rewrite fn_lookup_insert.
        intros [Hx| ->%list_elem_of_singleton]%elem_of_app; [by apply He|done].
      * rewrite fn_lookup_insert_ne by done. apply He.
  - split.
    + intros x. rewrite indeg_append by done.
      destruct (decide (i = x)) as [->|Hne].
      * rewrite fn_lookup_insert, Hc. lia.
      * rewrite fn_lookup_insert_ne by done. rewrite Hc. lia.
    + intros y x. destruct (decide (j = y)) as [->|Hne].
      * rewrite fn_lookup_insert.
        intros [Hx| ->%list_elem_of_singleton]%elem_of_app; [by apply He|done].
      * rewrite fn_lookup_insert_ne by done. apply He.
Qed.

(** A row leaves the counters of the earlier positions alone. *)
Lemma rank_pair_below i j dominating dominated dominating' dominated' x :
  x < i → x < j →
  rank_pair D i (dominating, dominated) j = (dominating', dominated') →
  dominating' x = dominating x.
Proof.
  intros Hxi Hxj Hrun. unfold rank_pair in Hrun.
  destruct (D i j); [|destruct (D j i)]; inversion Hrun; subst; [| |done];
    rewrite fn_lookup_insert_ne; [done|lia|done|lia].
Qed.

Lemma rank_pairs_fold i js : ∀ dominating dominated dominating' dominated',
  i < m → Forall (λ j, i < j < m) js →
  foldl (rank_pair D i) (dominating, dominated) js = (dominating', dominated') →
  (counted dominating dominated → counted dominating' dominated')
  ∧ (∀ x, x < i → dominating' x = dominating x).
Proof.
  induction js as [|j js IH]; intros c d c' d' Hi Hjs Hrun.
  - simpl in Hrun. by inversion Hrun.
  - cbn [foldl] in Hrun. apply list.Forall_cons in Hjs as [Hj Hjs].
    destruct (rank_pair D i (c, d) j) as [c1 d1] eqn:E.
    destruct (IH _ _ _ _ Hi Hjs Hrun) as [IH1 IH2].
    split.
    + intros Hc. apply IH1. eapply rank_pair_counted; [| |exact E|]; auto; lia.
    + intros x Hx. rewrite IH2 by done.
      eapply rank_pair_below; [| |exact E]; lia.
Qed.

(** The state after the rows of the positions below [i]. *)
Lemma rank_rows i :
  i ≤ m →
  ∃ dominating dominated current_front,
    foldl (rank_row m D) (λ _, 0%Z, λ _, [], []) (seq 0 i)
    = (dominating, dominated, current_front)
    ∧ counted dominating dominated
    ∧ NoDup current_front
    ∧ (∀ x, x ∈ current_front ↔ x < i ∧ dominating x = 0%Z).
Proof.
  induction i as [|i IH]; intros Hi.
  - eexists _, _, _. split; [reflexivity|]. split; [split|split].
    + intros x. unfold indeg. by rewrite sum_list_with_zero.
    + intros y x Hx. by apply elem_of_nil in Hx.
    + constructor.
    + intros x. split; [by intros Hx%elem_of_nil | intros [? _]; lia].
  - destruct IH as (c & d & cf & Hrun & Hcnt & Hnd & Hcf); [lia|].
    rewrite foldl_seq_S, Hrun. unfold rank_row.
    destruct (foldl (rank_pair D i) (c, d) (seq (S i) (m - S i)))
      as [c' d'] eqn:E.
    apply rank_pairs_fold in E as [E1 E2]; [|lia|].
    2:{ apply list.Forall_forall. intros j Hj%elem_of_seq. lia. }
    destruct (c' i =? 0)%Z eqn:Hz.
    + apply Z.eqb_eq in Hz. eexists _, _, _. split; [reflexivity|].
      split; [auto|]. split.
      * apply list.NoDup_app. split; [done|]. split; [|apply NoDup_singleton].
        intros x Hx ->%list_elem_of_singleton. apply Hcf in Hx. lia.
      * intros x. rewrite elem_of_app, list_elem_of_singleton, Hcf.
        split.
        -- intros [[Hx Hc]| ->]; [|split; [lia|done]].
           split; [lia|]. by rewrite E2.
        -- intros [Hx Hc]. destruct (decide (x = i)); [by right|left].
           split; [lia|]. rewrite <- E2 by lia. done.
    + apply Z.eqb_neq in Hz. eexists _, _, _. split; [reflexivity|].
      split; [auto|]. split; [done|].
      intros x. rewrite Hcf. split.
      * intros [Hx Hc]. split; [lia|]. by rewrite E2.
      * intros [Hx Hc]. destruct (decide (x = i)) as [->|]; [done|].
        split; [lia|]. rewrite <- E2 by lia. done.
Qed.

Lemma rank_first_spec :
  ∃ dominating dominated current_front,
    rank_first m D = (dominating, dominated, current_front)
    ∧ counted dominating dominated
    ∧ NoDup current_front
    ∧ (∀ x, x ∈ current_front ↔ x < m ∧ dominating x = 0%Z).
Proof. apply rank_rows. lia. Qed.

(** The inner loops of a round, along the list [ds] of the released
    positions: every counter drops by the occurrences, and the positions
    whose counter reaches zero are appended once each. *)
Lemma release_fold ds : ∀ dominating next_front pareto_sorted,
  (∀ x, (Z.of_nat (occ x ds) ≤ dominating x)%Z) →
  (∀ x, x ∈ next_front → x ∉ ds) →
  NoDup next_front →
  ∃ dominating' new,
    foldl (release weight) (dominating, next_front, pareto_sorted) ds
    = (dominating', next_front ++ new,
       pareto_sorted + sum_list_with weight new)
    ∧ (∀ x, dominating' x = (dominating x - Z.of_nat (occ x ds))%Z)
    ∧ NoDup (next_front ++ new)
    ∧ (∀ x, x ∈ new ↔ x ∈ ds ∧ dominating' x = 0%Z).
Proof.
  induction ds as [|d ds IH]; intros c nf ps Hle Hnf Hnd.
  - exists c, []. rewrite app_nil_r. simpl. split; [by rewrite Nat.add_0_r|].
    split; [intros x; unfold occ; simpl; lia|]. split; [done|].
    intros x. split; [by intros ?%elem_of_nil | by intros [?%elem_of_nil _]].
  - cbn [foldl]. unfold release at 2.
    rewrite fn_lookup_insert.
    assert (Hd := Hle d). rewrite occ_cons, decide_True in Hd by done.
    destruct (c d - 1 =? 0)%Z eqn:Hz.
    + apply Z.eqb_eq in Hz.
      assert (Hdds : d ∉ ds) by (apply occ_zero; lia).
      destruct (IH (<[d := (c d - 1)%Z]> c) (nf ++ [d]) (ps + weight d))
        as (c' & new & Hrun & Hc' & Hnd' & Hnew).
      * intros x. specialize (Hle x). rewrite occ_cons in Hle.
        destruct (decide (d = x)) as [->|Hne].
        -- rewrite fn_lookup_insert. lia.
        -- rewrite fn_lookup_insert_ne by done. lia.
      * intros x [Hx| ->%list_elem_of_singleton]%elem_of_app; [|done].
        apply Hnf in Hx. by apply not_elem_of_cons in Hx as [_ ?].
      * apply list.NoDup_app. split; [done|]. split; [|apply NoDup_singleton].
        intros x Hx ->%list_elem_of_singleton. apply Hnf in Hx.
        apply Hx. left.
      * exists c', (d :: new). rewrite Hrun. split.
        { f_equal; [f_equal; by rewrite <- app_assoc | simpl; lia]. }
        assert (Hcx : ∀ x, c' x = (c x - Z.of_nat (occ x (d :: ds)))%Z).
        { intros x. rewrite Hc', occ_cons.
          destruct (decide (d = x)) as [->|Hne].
          - rewrite fn_lookup_insert. lia.
          - rewrite fn_lookup_insert_ne by done. lia. }
        split; [done|]. split; [by rewrite <- app_assoc in Hnd'|].
        intros x. rewrite !elem_of_cons, Hnew. split.
        -- intros [->|[Hx Hc]]; [|by auto].
           split; [by left|]. rewrite Hcx, occ_cons, decide_True by done.
           apply occ_zero in Hdds. lia.
        -- intros [[->|Hx] Hc]; [by left | by right].
    + apply Z.eqb_neq in Hz.
      destruct (IH (<[d := (c d - 1)%Z]> c) nf ps)
        as (c' & new & Hrun & Hc' & Hnd' & Hnew).
      * intros x. specialize (Hle x). rewrite occ_cons in Hle.
        destruct (decide (d = x)) as [->|Hne].
        -- rewrite fn_lookup_insert. lia.
        -- rewrite fn_lookup_insert_ne by done. lia.
      * intros x Hx. apply Hnf in Hx. by apply not_elem_of_cons in Hx as [_ ?].
      * done.
      * exists c', new. rewrite Hrun. split; [done|].
        assert (Hcx : ∀ x, c' x = (c x - Z.of_nat (occ x (d :: ds)))%Z).
        { intros x. rewrite Hc', occ_cons.
          destruct (decide (d = x)) as [->|Hne].
          - rewrite fn_lookup_insert. lia.
          - rewrite fn_lookup_insert_ne by done. lia. }
        split; [done|]. split; [done|].
        intros x. rewrite elem_of_cons, Hnew. split; [by intros [? ?]; auto|].
        intros [[->|Hx] Hc]; [|done].
        split; [|done]. apply occ_pos.
        rewrite Hcx, occ_cons, decide_True in Hc by done. lia.
Qed.

Lemma indeg_split dominated P cur x :
  NoDup (P ++ cur) → (∀ y, y ∈ cur → y < m) →
  indeg dominated P x
  = indeg dominated (P ++ cur) x
    + sum_list_with (λ p, occ x (dominated p)) cur.
Proof.
  intros Hnd Hcur. unfold indeg.
  rewrite <- sum_list_with_app.
  apply sum_list_with_Permutation_proper.
  apply list.NoDup_app in Hnd as (HP & Hdisj & Hc).
  apply NoDup_Permutation.
  - apply NoDup_filter, NoDup_seq.
  - apply list.NoDup_app. split; [apply NoDup_filter, NoDup_seq|].
    split; [|done].
    intros y [Hy _]%list_elem_of_filter Hyc. apply Hy, elem_of_app. by right.
  - intros y. rewrite elem_of_app, !list_elem_of_filter, elem_of_seq,
      not_elem_of_app.
    split.
    + intros [HyP Hy]. destruct (decide (y ∈ cur)); [by right|by left].
    + intros [[[? ?] ?]|Hy]; [done|]. split.
      * intros HyP. by apply (Hdisj y).
      * specialize (Hcur y Hy). lia.
Qed.

Lemma foldl_fmap_l {A B C} (f : A → B → A) (g : C → B) (a : A) (l : list C) :
  foldl f a (g <$> l) = foldl (λ acc c, f acc (g c)) a l.
Proof. revert a. induction l as [|c l IH]; intros a; csimpl; [done|]. apply IH. Qed.

Lemma npred_lt y x : y < m → D y x = true → npred y < npred x.
Proof.
  intros Hy Hyx. unfold npred.
  apply length_filter_strict with y.
  - intros z Hz. by apply D_trans with y.
  - apply elem_of_seq. lia.
  - done.
  - by rewrite D_irrefl.
Qed.

Lemma next_round_spec dominated dominating P cur ps :
  (∀ y x, x ∈ dominated y → D y x = true ∧ x < m ∧ y < m) →
  ranked dominated dominating P cur →
  ∃ dominating' next,
    next_round weight dominated dominating cur ps
    = (dominating', next, ps + sum_list_with weight next)
    ∧ ranked dominated dominating' (P ++ cur) next
    ∧ ((∃ x, x < m ∧ x ∉ P ++ cur) → next ≠ []).
Proof.
  intros Hedge (Hnd & Hlt & Hcnt & Hzero).
  unfold next_round.
  rewrite <- (foldl_fmap_l (λ st l, foldl (release weight) st l) dominated).
  rewrite <- foldl_concat.
  set (ds := concat (dominated <$> cur)).
  assert (Hocc : ∀ x, occ x ds = sum_list_with (λ p, occ x (dominated p)) cur).
  { intros x. unfold ds. by rewrite occ_concat, sum_list_with_fmap. }
  assert (Hsplit : ∀ x, dominating x
            = (Z.of_nat (indeg dominated (P ++ cur) x) + Z.of_nat (occ x ds))%Z).
  { intros x. rewrite Hcnt, Hocc, (indeg_split dominated P cur x); [lia|done|].
    intros y Hy. apply Hlt, elem_of_app. by right. }
  destruct (release_fold ds dominating [] ps)
    as (c' & new & Hrun & Hc' & Hnd' & Hnew).
  { intros x. rewrite Hsplit. lia. }
  { by intros x ?%elem_of_nil. }
  { constructor. }
  simpl in Hrun, Hnd'.
  assert (Hc'' : ∀ x, c' x = Z.of_nat (indeg dominated (P ++ cur) x)).
  { intros x. rewrite Hc', Hsplit. lia. }
  assert (Hds : ∀ x, x ∈ ds → x < m).
  { intros x Hx. unfold ds in Hx. apply elem_of_concat in Hx as (l & Hx & Hl).
    apply list_elem_of_fmap in Hl as (p & -> & Hp).
    apply Hedge in Hx. tauto. }
  assert (Hnew_fresh : ∀ x, x ∈ new → x ∉ P ++ cur).
  { intros x [Hx Hcx]%Hnew HxS.
    assert (x < m) by auto. apply Hzero in HxS; [|done].
    apply occ_pos in Hx. rewrite Hc', HxS in Hcx. lia. }
  exists c', new. split; [done|]. split; [split; [|split; [|split]]|].
  - apply list.NoDup_app. split; [done|]. split; [|done].
    intros x HxS Hx. by apply (Hnew_fresh x).
  - intros x [Hx|Hx]%elem_of_app; [by apply Hlt|]. apply Hds. by apply Hnew.
  - done.
  - intros x Hx. rewrite elem_of_app. split.
    + intros [HxS|[_ ?]%Hnew]; [|done].
      apply Hzero in HxS; [|done]. rewrite Hc', HxS. rewrite Hsplit in HxS. lia.
    + intros Hcx. destruct (decide (x ∈ P ++ cur)) as [|HxS]; [by left|right].
      apply Hnew. split; [|done]. apply occ_pos.
      assert (dominating x ≠ 0%Z) by (by rewrite <- Hzero).
      rewrite Hc' in Hcx. lia.
  - intros (x0 & Hx0 & Hx0S) ->.
    destruct (exists_min npred (filter (λ y, y ∉ P ++ cur) (seq 0 m)))
      as (x & Hx & Hmin).
    { assert (Hin0 : x0 ∈ filter (λ y, y ∉ P ++ cur) (seq 0 m)).
      { apply list_elem_of_filter. split; [done|]. apply elem_of_seq. lia. }
      intros Hnil. rewrite Hnil in Hin0. by apply elem_of_nil in Hin0. }
    apply list_elem_of_filter in Hx as [HxS Hx%elem_of_seq].
    assert (Hin : indeg dominated (P ++ cur) x = 0).
    { unfold indeg. apply sum_list_with_zero.
      intros y Hy. apply occ_zero. intros Hxy.
      apply Hedge in Hxy as (Hyx & _ & Hym).
      specialize (Hmin y Hy).
      pose proof (npred_lt y x Hym Hyx). lia. }
    assert (Hcx : c' x = 0%Z) by (rewrite Hc'', Hin; done).
    assert (x ∈ []) as Hbad%elem_of_nil; [|done].
    apply Hnew. split; [|done]. apply occ_pos.
    assert (dominating x ≠ 0%Z) by (rewrite <- Hzero; [done|lia]).
    rewrite Hc' in Hcx. lia.
Qed.

Lemma wsum_snoc fronts cur :
  wsum (fronts ++ [cur]) = wsum fronts + sum_list_with weight cur.
Proof. unfold wsum. rewrite sum_list_with_app. simpl. lia. Qed.

Lemma wsum_concat fronts : wsum fronts = sum_list_with weight (concat fronts).
Proof.
  induction fronts as [|f fs IH]; [done|].
  unfold wsum in *. simpl. by rewrite sum_list_with_app, IH.
Qed.

(** The loop ends within the fuel, with at least [N] individuals ranked
    and fewer than [N] before the last front. *)
Lemma rank_rest_spec N dominated fuel : ∀ dominating cur init,
  (∀ y x, x ∈ dominated y → D y x = true ∧ x < m ∧ y < m) →
  ranked dominated dominating (concat init) cur →
  (N ≤ Z.of_nat (sum_list_with weight (seq 0 m)))%Z →
  m ≤ fuel + length (concat init ++ cur) →
  (init = [] ∨ (Z.of_nat (wsum init) < N)%Z) →
  ∃ init' last',
    rank_rest weight fuel N dominated dominating cur (init ++ [cur])
              (wsum (init ++ [cur]))
    = Some (init' ++ [last'])
    ∧ (init' = [] ∨ (Z.of_nat (wsum init') < N)%Z)
    ∧ (N ≤ Z.of_nat (wsum (init' ++ [last'])))%Z.
Proof.
  induction fuel as [|fuel IH]; intros c cur init Hedge Hr HN Hfuel Hinit.
  - simpl. destruct (Z.of_nat (wsum (init ++ [cur])) <? N)%Z eqn:Hlt.
    2:{ apply Z.ltb_ge in Hlt. eauto. }
    exfalso. apply Z.ltb_lt in Hlt.
    destruct Hr as (Hnd & Hm & _ & _).
    rewrite wsum_snoc, wsum_concat, <- sum_list_with_app in Hlt.
    assert (Hsub : concat init ++ cur ⊆+ seq 0 m).
    { apply NoDup_submseteq; [done|]. intros x Hx. apply elem_of_seq.
      specialize (Hm x Hx). lia. }
    apply submseteq_length_Permutation in Hsub;
      [|rewrite length_seq; simpl in Hfuel; lia].
    rewrite Hsub in Hlt. lia.
  - cbn [rank_rest].
    destruct (Z.of_nat (wsum (init ++ [cur])) <? N)%Z eqn:Hlt.
    2:{ apply Z.ltb_ge in Hlt. eauto. }
    apply Z.ltb_lt in Hlt.
    assert (Hex : ∃ x, x < m ∧ x ∉ concat init ++ cur).
    { destruct (filter (λ y, y ∉ concat init ++ cur) (seq 0 m))
        as [|x l] eqn:Hf.
      - exfalso. destruct Hr as (Hnd & Hm & _ & _).
        rewrite wsum_snoc, wsum_concat, <- sum_list_with_app in Hlt.
        assert (Hperm : concat init ++ cur ≡ₚ seq 0 m).
        { apply NoDup_Permutation; [done|apply NoDup_seq|].
          intros x. rewrite elem_of_seq. split.
          - intros Hx. specialize (Hm x Hx). lia.
          - intros Hx. destruct (decide (x ∈ concat init ++ cur)); [done|].
            assert (x ∈ filter (λ y, y ∉ concat init ++ cur) (seq 0 m)) as Hin.
            { apply list_elem_of_filter. split; [done|]. apply elem_of_seq. lia. }
            rewrite Hf in Hin. by apply elem_of_nil in Hin. }
        rewrite Hperm in Hlt. lia.
      - assert (x ∈ filter (λ y, y ∉ concat init ++ cur) (seq 0 m)) as Hin
          by (rewrite Hf; left).
        apply list_elem_of_filter in Hin as [? ?%elem_of_seq].
        exists x. split; [lia|done]. }
    destruct (next_round_spec dominated c (concat init) cur
                (wsum (init ++ [cur])) Hedge Hr)
      as (c' & next & Hrun & Hr' & Hprog).
    rewrite Hrun. specialize (Hprog Hex).
    replace (wsum (init ++ [cur]) + sum_list_with weight next)
      with (wsum ((init ++ [cur]) ++ [next])) by (by rewrite (wsum_snoc (init ++ [cur]))).
    assert (Hcat : concat (init ++ [cur]) = concat init ++ cur).
    { rewrite concat_app. simpl. by rewrite app_nil_r. }
    apply IH.
    + done.
    + by rewrite Hcat.
    + done.
    + rewrite Hcat, length_app. rewrite length_app in Hfuel.
      destruct next; [done|]. rewrite length_app. simpl. lia.
    + right. done.
Qed.

Lemma rank_fronts_spec N :
  (N ≤ Z.of_nat (sum_list_with weight (seq 0 m)))%Z →
  ∃ init last',
    rank_fronts m D weight N = Some (init ++ [last'])
    ∧ (init = [] ∨ (Z.of_nat (wsum init) < N)%Z)
    ∧ (N ≤ Z.of_nat (wsum (init ++ [last'])))%Z.
Proof.
  intros HN. unfold rank_fronts.
  destruct rank_first_spec as (c & d & cf & -> & [Hc He] & Hnd & Hcf).
  replace (sum_list_with weight cf) with (wsum ([] ++ [cf]))
    by (unfold wsum; simpl; lia).
  change [cf] with ([] ++ [cf]) at 1.
  apply rank_rest_spec; auto.
  - split; [done|]. split; [intros x Hx; by apply Hcf in Hx as [? _]|].
    split; [done|]. intros x Hx. simpl. rewrite Hcf. tauto.
  - simpl. lia.
Qed.
End RankingProofs.

(** ** Dominance is a strict partial order *)

Lemma fitness_eq_spec (a b : Q * Q) :
  fitness_eq a b = true ↔ (fst a == fst b ∧ snd a == snd b)%Q.
Proof.
  unfold fitness_eq. rewrite andb_true_iff, !Qeq_bool_iff. tauto.
Qed.

Lemma key_dominates_irrefl (a : option (Q * Q)) : key_dominates a a = false.
Proof.
  destruct a as [a|]; [|done]. simpl.
  apply not_true_iff_false. rewrite dominates_spec. lra.
Qed.

Lemma key_dominates_trans (a b c : option (Q * Q)) :
  key_dominates a b = true → key_dominates b c = true →
  key_dominates a c = true.
Proof.
  destruct a as [a|], b as [b|], c as [c|]; simpl; try done.
  rewrite !dominates_spec. lra.
Qed.

Lemma key_dominates_asym (a b : option (Q * Q)) :
  key_dominates a b = true → key_dominates b a = false.
Proof.
  intros H. apply not_true_iff_false. intros H'.
  pose proof (key_dominates_trans _ _ _ H H') as Hc.
  by rewrite key_dominates_irrefl in Hc.
Qed.

(** Equal fitnesses dominate and are dominated alike. *)
Lemma key_dominates_eq_l (a a' b : option (Q * Q)) :
  key_eq a a' = true → key_dominates a b = key_dominates a' b.
Proof.
  destruct a as [a|], a' as [a'|], b as [b|]; simpl; try done.
  rewrite fitness_eq_spec. intros [H1 H2].
  apply eq_true_iff_eq. rewrite !dominates_spec. rewrite H1, H2. tauto.
Qed.

Lemma key_dominates_eq_r (a b b' : option (Q * Q)) :
  key_eq b b' = true → key_dominates a b = key_dominates a b'.
Proof.
  destruct a as [a|], b as [b|], b' as [b'|]; simpl; try done.
  rewrite fitness_eq_spec. intros [H1 H2].
  apply eq_true_iff_eq. rewrite !dominates_spec. rewrite H1, H2. tauto.
Qed.

Lemma key_eq_refl (a : option (Q * Q)) : key_eq a a = true.
Proof.
  destruct a as [a|]; [|done]. simpl. apply fitness_eq_spec. split; reflexivity.
Qed.

(** ** [sortNondominated]: every individual is ranked, and only those *)

Lemma same_ind_refl a : same_ind a a.
Proof. done. Qed.

Lemma same_ind_trans a b c : same_ind a b → same_ind b c → same_ind a c.
Proof. unfold same_ind. intros (-> & -> & ->) (-> & -> & ->). done. Qed.

Lemma dict_append_elem (d : list (option (Q * Q) * list Individual)) ind x :
  x ∈ concat (dict_append d ind).*2 ↔ x = ind ∨ x ∈ concat d.*2.
Proof.
  induction d as [|[k l] d IH]; simpl.
  - rewrite ?app_nil_r, list_elem_of_singleton, elem_of_nil. tauto.
  - destruct (key_eq k (wvalues ind)); csimpl.
    + rewrite !elem_of_app, list_elem_of_singleton. tauto.
    + rewrite !elem_of_app, IH. tauto.
Qed.

Lemma dict_append_length (d : list (option (Q * Q) * list Individual)) ind :
  length (concat (dict_append d ind).*2) = S (length (concat d.*2)).
Proof.
  induction d as [|[k l] d IH]; simpl; [done|].
  destruct (key_eq k (wvalues ind)); csimpl.
  - rewrite !length_app. simpl. lia.
  - rewrite !length_app, IH. lia.
Qed.

Lemma map_fit_ind_elem (individuals : list Individual) d x :
  x ∈ concat (foldl dict_append d individuals).*2
  ↔ x ∈ individuals ∨ x ∈ concat d.*2.
Proof.
  revert d. induction individuals as [|ind l IH]; intros d; simpl.
  - rewrite elem_of_nil. tauto.
  - rewrite IH, dict_append_elem, elem_of_cons. tauto.
Qed.

Lemma map_fit_ind_length (individuals : list Individual) d :
  length (concat (foldl dict_append d individuals).*2)
  = length individuals + length (concat d.*2).
Proof.
  revert d. induction individuals as [|ind l IH]; intros d; simpl; [done|].
  rewrite IH, dict_append_length. lia.
Qed.

Lemma sum_lookup_seq {A} (f : list A → nat) (ls : list (list A)) :
  sum_list_with (λ i, f (default [] (ls !! i))) (seq 0 (length ls))
  = sum_list_with f ls.
Proof.
  induction ls as [|l ls IH] using rev_ind; [done|].
  rewrite length_app, Nat.add_1_r, seq_S, !sum_list_with_app. simpl.
  rewrite list_lookup_middle by done. simpl. f_equal.
  rewrite <- IH. apply sum_list_with_ext_in.
  intros i Hi%elem_of_seq. by rewrite lookup_app_l by lia.
Qed.

Lemma length_concat_sum {A} (ls : list (list A)) :
  length (concat ls) = sum_list_with length ls.
Proof.
  induction ls as [|l ls IH]; [done|]. simpl. by rewrite length_app, IH.
Qed.

Lemma sortNondominated_spec (individuals : list Individual) (k : Z) :
  ∃ fronts,
    sortNondominated individuals k = Some fronts
    ∧ (∀ front ind, front ∈ fronts → ind ∈ front → ind ∈ individuals)
    ∧ (k = 0%Z → fronts = [])
    ∧ (k ≠ 0%Z →
       ∃ init last',
         fronts = init ++ [last']
         ∧ (init = [] ∨
            (Z.of_nat (length (concat init))
             < Z.of_nat (length individuals) `min` k)%Z)
         ∧ (Z.of_nat (length individuals) `min` k
            ≤ Z.of_nat (length (concat fronts)))%Z).
Proof.
  unfold sortNondominated. destruct (k =? 0)%Z eqn:Hk.
  { apply Z.eqb_eq in Hk. exists []. split; [done|]. split; [|done].
    intros front ind Hf. by apply elem_of_nil in Hf. }
  apply Z.eqb_neq in Hk. cbv zeta.
  set (d := foldl dict_append [] individuals).
  set (group := λ i : nat, default [] (d.*2 !! i)).
  set (D := λ i j : nat, match d.*1 !! i, d.*1 !! j with
                         | Some fit_i, Some fit_j => key_dominates fit_i fit_j
                         | _, _ => false
                         end).
  set (N := (Z.of_nat (length individuals) `min` k)%Z).
  assert (Htotal : sum_list_with (λ i, length (group i)) (seq 0 (length d.*1))
                   = length individuals).
  { unfold group. rewrite !length_fmap, <- (length_fmap snd d).
    rewrite (sum_lookup_seq length), <- length_concat_sum.
    unfold d. rewrite map_fit_ind_length. simpl. lia. }
  destruct (rank_fronts_spec (length d.*1) D (λ i, length (group i))) with (N := N)
    as (init & lst & Hrun & Hinit & Hall).
  { intros i. unfold D. destruct (d.*1 !! i); [|done]. apply key_dominates_irrefl. }
  { intros i j l. unfold D.
    destruct (d.*1 !! i), (d.*1 !! j), (d.*1 !! l); try done.
    apply key_dominates_trans. }
  { rewrite Htotal. unfold N. lia. }
  change (λ i : nat, length (default [] (d.*2 !! i)))
    with (λ i : nat, length (group i)).
  rewrite Hrun.
  assert (Hlen : ∀ fronts : list (list nat),
            length (concat ((λ front : list nat, concat (group <$> front)) <$> fronts))
            = wsum (λ i, length (group i)) fronts).
  { intros fronts. rewrite length_concat_sum, sum_list_with_fmap.
    unfold wsum. apply sum_list_with_ext_in. intros front _. simpl.
    by rewrite length_concat_sum, sum_list_with_fmap. }
  eexists. split; [reflexivity|]. split; [|split; [done|]].
  - intros front ind Hf Hind.
    apply list_elem_of_fmap in Hf as (fr & -> & _).
    apply elem_of_concat in Hind as (g & Hind & Hg).
    apply list_elem_of_fmap in Hg as (i & -> & _).
    unfold group in Hind. destruct (d.*2 !! i) as [g|] eqn:Hi;
      [|by apply elem_of_nil in Hind].
    simpl in Hind.
    assert (ind ∈ concat d.*2) as Hin.
    { apply elem_of_concat. exists g. split; [done|].
      by apply list_elem_of_lookup_2 in Hi. }
    unfold d in Hin. apply map_fit_ind_elem in Hin as [?|Hin]; [done|].
    by apply elem_of_nil in Hin.
  - intros _. eexists _, _. rewrite fmap_app. split; [reflexivity|].
    split.
    + destruct Hinit as [->|Hinit]; [by left|right].
      rewrite Hlen. done.
    + rewrite <- fmap_app, Hlen. done.
Qed.

(** ** The stable sort *)

Lemma insert_sorted_perm {A} (lt : A → A → bool) (x : A) (l : list A) :
  insert_sorted lt x l ≡ₚ x :: l.
Proof.
  induction l as [|y l IH]; simpl; [done|].
  destruct (lt x y); [done|]. rewrite IH. apply Permutation_swap.
Qed.

Lemma stable_sort_perm {A} (lt : A → A → bool) (l : list A) :
  stable_sort lt l ≡ₚ l.
Proof.
  unfold stable_sort.
  assert (∀ acc, foldl (λ acc x, insert_sorted lt x acc) acc l ≡ₚ acc ++ l) as H.
  { induction l as [|x l IH]; intros acc; simpl; [by rewrite app_nil_r|].
    rewrite IH, insert_sorted_perm. simpl. apply Permutation_middle. }
  apply (H []).
Qed.

Lemma stable_sort_length {A} (lt : A → A → bool) (l : list A) :
  length (stable_sort lt l) = length l.
Proof. by rewrite stable_sort_perm. Qed.

(** ** [assignCrowdingDist] keeps the individuals and gives each a distance *)

Lemma foldl_length_preserved {A B} (g : list A → B → list A) (l : list B) :
  (∀ ds t, length (g ds t) = length ds) →
  ∀ ds : list A, length (foldl g ds l) = length ds.
Proof.
  intros Hg. induction l as [|t l IH]; intros ds; simpl; [done|].
  by rewrite IH, Hg.
Qed.

Lemma crowd_objective_length nobj crowd distances i :
  length (crowd_objective nobj (crowd, distances) i).2 = length distances.
Proof.
  unfold crowd_objective.
  destruct (head _) as [lo|]; [|done].
  destruct (list.last _) as [hi|]; [|done].
  destruct (Qeq_bool _ _); simpl.
  - by rewrite !length_insert.
  - rewrite foldl_length_preserved; [by rewrite !length_insert|].
    intros ds [prev [cur next]]. apply length_alter.
Qed.

Lemma crowd_objectives_length nobj (objs : list nat) : ∀ crowd distances,
  length (foldl (crowd_objective nobj) (crowd, distances) objs).2
  = length distances.
Proof.
  induction objs as [|i objs IH]; intros crowd distances; cbn [foldl]; [done|].
  destruct (crowd_objective nobj (crowd, distances) i) as [c' d'] eqn:E.
  rewrite IH. by rewrite <- (crowd_objective_length nobj crowd distances i), E.
Qed.

Lemma write_dist_same (l : list Individual) (w : nat * Dist) :
  Forall2 same_ind l (write_dist l w).
Proof.
  unfold write_dist. destruct (l !! w.1) as [target|].
  - rewrite Forall2_fmap_r. apply Forall_Forall2_diag, Forall_true.
    intros ind. simpl. by destruct (oid ind =? oid target).
  - apply Forall_Forall2_diag, Forall_true. by intros.
Qed.

Lemma write_dists_same (ws : list (nat * Dist)) : ∀ l : list Individual,
  Forall2 same_ind l (foldl write_dist l ws).
Proof.
  induction ws as [|w ws IH]; intros l; simpl.
  - apply Forall_Forall2_diag, Forall_true. by intros.
  - eapply Forall2_trans; [|apply write_dist_same|apply IH].
    intros a b c. apply same_ind_trans.
Qed.

Lemma write_dists_assigned (ws : list (nat * Dist)) : ∀ l : list Individual,
  (∀ i ind, l !! i = Some ind →
     is_Some (crowding_dist ind) ∨ ∃ d, (i, d) ∈ ws) →
  Forall (λ ind, is_Some (crowding_dist ind)) (foldl write_dist l ws).
Proof.
  induction ws as [|[i0 d0] ws IH]; intros l Hl; simpl.
  - apply Forall_lookup. intros i ind Hi.
    destruct (Hl i ind Hi) as [?|[d Hd]]; [done|by apply elem_of_nil in Hd].
  - apply IH. intros i ind1 Hi. unfold write_dist in Hi. simpl in Hi.
    destruct (l !! i0) as [target|] eqn:Ht.
    + rewrite list_lookup_fmap in Hi.
      destruct (l !! i) as [ind|] eqn:Hind; [|done]. simpl in Hi.
      injection Hi as <-.
      destruct (Hl i ind Hind) as [Hs|[d [Heq|Hd]%elem_of_cons]].
      * left. by destruct (oid ind =? oid target).
      * injection Heq as -> ->. rewrite Ht in Hind. injection Hind as ->.
        left. by rewrite Nat.eqb_refl.
      * right. eauto.
    + destruct (Hl i ind1 Hi) as [Hs|[d [Heq|Hd]%elem_of_cons]]; [by left| |by eauto].
      injection Heq as -> ->. by rewrite Ht in Hi.
Qed.

Lemma assignCrowdingDist_spec (individuals : list Individual) :
  Forall (λ ind, is_Some (wvalues ind)) individuals →
  ∃ assigned,
    assignCrowdingDist individuals = Some assigned
    ∧ Forall2 same_ind individuals assigned
    ∧ Forall (λ ind, is_Some (crowding_dist ind)) assigned.
Proof.
  intros Hvalid. unfold assignCrowdingDist.
  destruct individuals as [|first rest] eqn:Hi.
  { exists []. split; [done|]. split; constructor. }
  rewrite <- Hi in *. clear Hi rest.
  assert (Hcover : ∀ distances : list Dist,
            length distances = length individuals →
            Forall2 same_ind individuals
              (foldl write_dist individuals (imap pair distances))
            ∧ Forall (λ ind, is_Some (crowding_dist ind))
                (foldl write_dist individuals (imap pair distances))).
  { intros distances Hlen. split; [apply write_dists_same|].
    apply write_dists_assigned. intros i ind Hind. right.
    destruct (lookup_lt_is_Some_2 distances i) as [d Hd].
    { rewrite Hlen. by apply lookup_lt_Some in Hind. }
    exists d. apply list_elem_of_lookup. exists i.
    by rewrite list_lookup_imap, Hd. }
  destruct (wvalues first) eqn:Hf.
  - destruct (mapM (λ ind, getValues <$> wvalues ind) individuals)
      as [values|] eqn:Hv.
    + cbn [mbind option_bind]. cbv zeta.
      destruct (foldl (crowd_objective 2) _ _) as [c ds] eqn:E.
      eexists. split; [reflexivity|]. apply Hcover.
      replace ds with (foldl (crowd_objective 2)
        (imap (λ i v, (v, i)) values,
         replicate (length individuals) (Fin 0)) (seq 0 2)).2
        by (by rewrite E).
      by rewrite crowd_objectives_length, length_replicate.
    + exfalso. apply mapM_None in Hv. apply Exists_exists in Hv as (ind & Hin & Hn).
      rewrite Forall_forall in Hvalid. destruct (Hvalid ind Hin) as [w Hw].
      by rewrite Hw in Hn.
  - eexists. split; [reflexivity|]. apply Hcover. apply length_replicate.
Qed.

(** ** [selNSGA2] returns [k] individuals of the pool *)

Lemma assign_fronts (individuals : list Individual)
    (fronts : list (list Individual)) :
  (∀ front ind, front ∈ fronts → ind ∈ front →
     ind ∈ individuals ∧ is_Some (wvalues ind)) →
  ∃ assigned,
    mapM assignCrowdingDist fronts = Some assigned
    ∧ Forall2 (λ f f', length f = length f') fronts assigned
    ∧ Forall (Forall (from_pool individuals)) assigned
    ∧ Forall (Forall (λ ind, is_Some (crowding_dist ind))) assigned.
Proof.
  induction fronts as [|front fronts IH]; intros Hin.
  { exists []. repeat split; constructor. }
  destruct IH as (assigned & Hrun & Hlen & Hfrom & Hcd).
  { intros f ind Hf Hi. apply (Hin f ind); [by right|done]. }
  destruct (assignCrowdingDist_spec front) as (front' & Hrun' & Hsame & Hcd').
  { apply Forall_forall. intros ind Hi. apply (Hin front ind); [left|done]. }
  exists (front' :: assigned). split; [|split; [|split]].
  - apply mapM_Some. constructor; [done|]. by apply mapM_Some.
  - constructor; [by eapply Forall2_length|done].
  - constructor; [|done].
    apply Forall_lookup. intros i c Hc.
    destruct (Forall2_lookup_r _ _ _ _ _ Hsame Hc) as (p & Hp & Hpc).
    exists p. split; [|done].
    apply (Hin front p); [left|]. by apply list_elem_of_lookup_2 in Hp.
  - by constructor.
Qed.

Lemma concat_length_Forall2 {A B} (ls : list (list A)) (ks : list (list B)) :
  Forall2 (λ f f', length f = length f') ls ks →
  length (concat ls) = length (concat ks).
Proof.
  induction 1 as [|l k ls ks Hlk _ IH]; [done|].
  simpl. rewrite !length_app. lia.
Qed.

Lemma Forall_concat {A} (P : A → Prop) (ls : list (list A)) :
  Forall (Forall P) ls → Forall P (concat ls).
Proof.
  induction 1 as [|l ls Hl _ IH]; simpl; [constructor|].
  by apply Forall_app.
Qed.

Lemma selNSGA2_spec (individuals : list Individual) (k : Z) :
  Forall (λ ind, is_Some (wvalues ind)) individuals →
  ∃ chosen,
    selNSGA2 individuals k = Some chosen
    ∧ Forall (from_pool individuals) chosen
    ∧ ((0 ≤ k ≤ Z.of_nat (length individuals))%Z →
       length chosen = Z.to_nat k).
Proof.
  intros Hvalid. unfold selNSGA2.
  destruct (sortNondominated_spec individuals k)
    as (fronts & -> & Hin & Hzero & Hstruct).
  destruct (assign_fronts individuals fronts)
    as (assigned & Hrun & Hlen & Hfrom & Hcd).
  { intros front ind Hf Hi. split; [by eapply Hin|].
    rewrite Forall_forall in Hvalid. apply Hvalid. by eapply Hin. }
  cbn [mbind option_bind]. rewrite Hrun. cbn [mbind option_bind]. cbv zeta.
  destruct (decide (k = 0%Z)) as [->|Hk].
  { rewrite (Hzero eq_refl) in Hlen. inversion Hlen; subst. simpl.
    exists []. split; [done|]. split; [constructor|done]. }
  destruct (Hstruct Hk) as (init & lst & -> & Hinit & Hall).
  apply Forall2_app_inv_l in Hlen as (init' & lst1 & Hlen_i & Hlen_l & ->).
  inversion Hlen_l as [|? lst' ? ? Hll Hnil]; subst. inversion Hnil; subst.
  rewrite removelast_last.
  apply Forall_app in Hfrom as [Hfrom_i Hfrom_l].
  apply Forall_app in Hcd as [_ Hcd_l].
  rewrite Forall_singleton in Hfrom_l. rewrite Forall_singleton in Hcd_l.
  assert (Hci : length (concat init') = length (concat init))
    by (symmetry; by apply concat_length_Forall2).
  rewrite concat_app, length_app in Hall. simpl in Hall.
  rewrite app_nil_r in Hall.
  destruct (0 <? k - Z.of_nat (length (concat init')))%Z eqn:Hpos.
  - apply Z.ltb_lt in Hpos. rewrite last_snoc. cbn [mbind option_bind].
    destruct (mapM (λ ind, d ← crowding_dist ind; Some (d, ind)) lst')
      as [keyed|] eqn:Hkeyed.
    2:{ exfalso. apply mapM_None in Hkeyed.
        apply Exists_exists in Hkeyed as (ind & Hi & Hn).
        rewrite Forall_forall in Hcd_l. destruct (Hcd_l ind Hi) as [d Hd].
        by rewrite Hd in Hn. }
    cbn [mbind option_bind].
    assert (Hk2 : keyed.*2 = lst').
    { apply mapM_Some_1 in Hkeyed. clear -Hkeyed.
      induction Hkeyed as [|ind [d i] l kd H _ IH]; [done|].
      csimpl. rewrite IH. f_equal.
      destruct (crowding_dist ind); [|done]. by injection H as _ ->. }
    set (sorted := (stable_sort (λ a b, Dist_ltb b.1 a.1) keyed).*2).
    assert (Hperm : sorted ≡ₚ lst').
    { unfold sorted. by rewrite stable_sort_perm, Hk2. }
    eexists. split; [reflexivity|]. split.
    + apply Forall_app. split; [by apply Forall_concat|].
      apply Forall_take. by rewrite Hperm.
    + intros Hrange. rewrite length_app, length_take, Hperm.
      rewrite Hci in *. lia.
  - apply Z.ltb_ge in Hpos. eexists. split; [reflexivity|].
    split; [by apply Forall_concat|].
    intros Hrange. rewrite Hci in *.
    destruct Hinit as [->|Hinit]; simpl in *; lia.
Qed.

(** ** Reasoning about runs

    [safe F m s Q]: started in [s], [m] returns a result and a state that
    satisfy [Q], or it raises and then [F] holds. *)

Lemma safe_ret {A} F (a : A) s (Q : A → State → Prop) :
  Q a s → safe F (ret a) s Q.
Proof. done. Qed.

Lemma safe_raise {A} (F : Prop) e s (Q : A → State → Prop) :
  F → safe F (raise e) s Q.
Proof. done. Qed.

Lemma safe_bind {A B} F (m : M A) (k : A → M B) s (Q : B → State → Prop) :
  safe F m s (λ a s', safe F (k a) s' Q) → safe F (bind m k) s Q.
Proof. unfold safe, bind. destruct (m s) as [a s'|e]; done. Qed.

Lemma safe_mono {A} (F F' : Prop) (m : M A) s (Q Q' : A → State → Prop) :
  safe F m s Q → (F → F') → (∀ a s', Q a s' → Q' a s') → safe F' m s Q'.
Proof. unfold safe. destruct (m s) as [a s'|e]; auto. Qed.

Lemma safe_liftE {A} F e (o : option A) s (Q : A → State → Prop) :
  (∀ a, o = Some a → Q a s) → (o = None → F) → safe F (liftE e o) s Q.
Proof. destruct o; simpl; unfold safe; simpl; auto. Qed.

Lemma safe_Ok {A} F (m : M A) s (Q : A → State → Prop) a s' :
  safe F m s Q → m s = Ok a s' → Q a s'.
Proof. unfold safe. intros H E. by rewrite E in H. Qed.

Lemma safe_total {A} (m : M A) s (Q : A → State → Prop) :
  safe False m s Q → ∃ a s', m s = Ok a s' ∧ Q a s'.
Proof. unfold safe. destruct (m s) as [a s'|e]; [eauto|done]. Qed.

(** A loop with an invariant over the part of the list already done. *)
Lemma safe_foldM {A B} F (body : B → A → M B) (xs : list A)
    (I : list A → B → State → Prop) :
  (∀ pre x post acc s,
     xs = pre ++ x :: post → I pre acc s →
     safe F (body acc x) s (I (pre ++ [x]))) →
  ∀ acc s, I [] acc s → safe F (foldM body acc xs) s (I xs).
Proof.
  intros Hbody.
  assert (∀ post pre acc s, xs = pre ++ post → I pre acc s →
            safe F (foldM body acc post) s (I xs)) as H.
  { induction post as [|x post IH]; intros pre acc s Hxs HI; simpl.
    - rewrite app_nil_r in Hxs. subst. by apply safe_ret.
    - apply safe_bind. eapply safe_mono; [by apply (Hbody pre x post)|done|].
      intros acc' s' HI'. apply (IH (pre ++ [x])); [|done].
      by rewrite <- app_assoc. }
  intros acc s HI. by apply (H xs []).
Qed.

Lemma safe_repeatM {A} F (f : M A) (P : A → Prop) (n : nat) s :
  (∀ s, safe F f s (λ a _, P a)) →
  safe F (repeatM n f) s (λ xs _, length xs = n ∧ Forall P xs).
Proof.
  intros Hf. revert s. induction n as [|n IH]; intros s; simpl.
  - apply safe_ret. split; [done|constructor].
  - apply safe_bind. eapply safe_mono; [apply Hf|done|].
    intros a s' Ha. apply safe_bind. eapply safe_mono; [apply IH|done|].
    intros xs s'' [Hlen Hxs]. apply safe_ret. split; [simpl; lia|by constructor].
Qed.

(** ** The operators keep the genes within the bounds *)

Lemma random_randint_spec F (a b : Z) s :
  (a ≤ b)%Z →
  safe F (random_randint a b) s (λ v _, (a ≤ v ≤ b)%Z).
Proof.
  intros Hab. unfold random_randint.
  destruct (b <? a)%Z eqn:E; [apply Z.ltb_lt in E; lia|].
  apply safe_bind. unfold safe, raw. simpl.
  pose proof (Z.mod_pos_bound (Z.of_N (tape s (cursor s))) (b - a + 1)). lia.
Qed.

Lemma safe_random_random F s (Q : Q → State → Prop) :
  (∀ u s', Q u s') → safe F random_random s Q.
Proof. intros H. apply H. Qed.

Lemma crossover_in_bounds (ind1 ind2 c1 c2 : list Z) :
  crossover ind1 ind2 = Some (c1, c2) →
  in_bounds ind1 → in_bounds ind2 →
  in_bounds c1 ∧ in_bounds c2 ∧ length c1 = length ind1 ∧ length c2 = length ind2.
Proof.
  unfold crossover, in_bounds. intros H H1 H2.
  destruct (ind1 !! 0) as [r1|] eqn:E1; [|done].
  destruct (ind1 !! 1) as [h1|] eqn:E2; [|done].
  destruct (ind2 !! 0) as [v|] eqn:E3; [|done]. simpl in H.
  destruct (<[0:=r1]> ind2 !! 1) as [w|] eqn:E4; [|done]. simpl in H.
  injection H as <- <-.
  assert (Hr1 := Forall_lookup_1 _ _ _ _ H1 E1).
  assert (Hh1 := Forall_lookup_1 _ _ _ _ H1 E2).
  assert (Hv := Forall_lookup_1 _ _ _ _ H2 E3).
  rewrite list_lookup_insert_ne in E4 by done.
  assert (Hw := Forall_lookup_1 _ _ _ _ H2 E4).
  rewrite !length_insert.
  repeat split; repeat apply Forall_insert; done.
Qed.

Lemma crossover_total (ind1 ind2 : list Z) :
  length ind1 = 2 → length ind2 = 2 → is_Some (crossover ind1 ind2).
Proof.
  destruct ind1 as [|r1 [|h1 [|]]], ind2 as [|r2 [|h2 [|]]]; try done.
Qed.

Lemma mutUniformInt_spec F (individual : list Z) s :
  in_bounds individual →
  safe F (mutUniformInt 1 MAX_ATTRIBUTE_SIZE 0.05 individual) s
       (λ g _, in_bounds g ∧ length g = length individual).
Proof.
  intros Hb. unfold mutUniformInt.
  eapply safe_mono; [|done|].
  - apply (safe_foldM F _ _
             (λ _ g _, in_bounds g ∧ length g = length individual)); [|done].
    intros pre i post g s0 _ [Hg Hlen].
    apply safe_bind, safe_random_random. intros u s1.
    destruct (Qltb _ _); [|by apply safe_ret].
    apply safe_bind. eapply safe_mono; [by apply random_randint_spec|done|].
    intros v s2 Hv. apply safe_ret. split; [by apply Forall_insert|].
    by rewrite length_insert.
  - done.
Qed.

(** ** The Pareto archive *)

(** No member dominates [ind] and none is its twin: the scan runs to the
    end and collects the members that [ind] dominates. *)
Lemma hof_scan_clean ind hofers : ∀ i dominates_one to_remove,
  (∀ h, h ∈ hofers → key_dominates (wvalues h) (wvalues ind) = false) →
  (∀ h, h ∈ hofers → twin ind h = false) →
  hof_scan ind i hofers dominates_one to_remove
  = (false, false, to_remove ++ dominated_positions ind i hofers).
Proof.
  induction hofers as [|h rest IH]; intros i d1 tr Hdom Htwin; simpl.
  - by rewrite app_nil_r.
  - rewrite (Hdom h) by left. rewrite andb_false_r.
    destruct (key_dominates (wvalues ind) (wvalues h)).
    + rewrite IH; [by rewrite <- app_assoc| |];
        intros h' Hh'; [apply Hdom|apply Htwin]; by right.
    + pose proof (Htwin h) as Hh. unfold twin in Hh. rewrite Hh by left.
      apply IH; intros h' Hh'; [apply Hdom|apply Htwin]; by right.
Qed.

(** Some member dominates [ind], which dominates none and has no twin:
    the scan stops there and removes nothing. *)
Lemma hof_scan_dominated ind hofers : ∀ i to_remove,
  (∃ h, h ∈ hofers ∧ key_dominates (wvalues h) (wvalues ind) = true) →
  (∀ h, h ∈ hofers → key_dominates (wvalues ind) (wvalues h) = false) →
  (∀ h, h ∈ hofers → twin ind h = false) →
  hof_scan ind i hofers false to_remove = (true, false, to_remove).
Proof.
  induction hofers as [|h rest IH]; intros i tr (h0 & Hh0 & Hd) Hdom Htwin.
  - by apply elem_of_nil in Hh0.
  - simpl. destruct (key_dominates (wvalues h) (wvalues ind)) eqn:E; [done|].
    simpl. rewrite (Hdom h) by left.
    pose proof (Htwin h) as Hh. unfold twin in Hh. rewrite Hh by left.
    apply IH.
    + apply elem_of_cons in Hh0 as [->|Hh0]; [congruence|eauto].
    + intros h' Hh'. apply Hdom. by right.
    + intros h' Hh'. apply Htwin. by right.
Qed.

(** [ind] has a twin, and neither dominates a member nor is dominated:
    the scan stops at the twin and removes nothing. *)
Lemma hof_scan_twin ind hofers : ∀ i dominates_one to_remove,
  (∃ h, h ∈ hofers ∧ twin ind h = true) →
  (∀ h, h ∈ hofers → key_dominates (wvalues ind) (wvalues h) = false) →
  (∀ h, h ∈ hofers → key_dominates (wvalues h) (wvalues ind) = false) →
  hof_scan ind i hofers dominates_one to_remove = (false, true, to_remove).
Proof.
  induction hofers as [|h rest IH]; intros i d1 tr (h0 & Hh0 & Ht) Hdom Hdom'.
  - by apply elem_of_nil in Hh0.
  - simpl. rewrite (Hdom' h) by left. rewrite andb_false_r.
    rewrite (Hdom h) by left.
    destruct (key_eq (wvalues ind) (wvalues h) && similar ind h) eqn:E; [done|].
    apply IH.
    + apply elem_of_cons in Hh0 as [->|Hh0]; [|eauto].
      unfold twin in Ht. congruence.
    + intros h' Hh'. apply Hdom. by right.
    + intros h' Hh'. apply Hdom'. by right.
Qed.

(** Deleting the collected positions from the last to the first leaves the
    members that [ind] does not dominate. *)
Lemma delete_dominated_positions ind (suf : list Individual) :
  ∀ pre : list Individual,
    foldl (λ l j, delete j l) (pre ++ suf)
          (reverse (dominated_positions ind (length pre) suf))
    = pre ++ filter (λ h, key_dominates (wvalues ind) (wvalues h) = false) suf.
Proof.
  induction suf as [|h rest IH]; intros pre; [done|].
  simpl. rewrite filter_cons.
  specialize (IH (pre ++ [h])).
  rewrite length_app, Nat.add_1_r, <- app_assoc in IH. simpl in IH.
  destruct (key_dominates (wvalues ind) (wvalues h)) eqn:E.
  - rewrite reverse_cons, foldl_app, IH. simpl.
    destruct (decide (true = false)) as [?|_]; [done|].
    rewrite <- app_assoc. simpl. by rewrite delete_middle.
  - destruct (decide (false = false)) as [_|?]; [|done].
    by rewrite IH, <- app_assoc.
Qed.

Lemma hof_remove_items (js : list nat) : ∀ hof,
  items (foldl hof_remove hof js) = foldl (λ l j, delete j l) (items hof) js.
Proof.
  induction js as [|j js IH]; intros hof; simpl; [done|]. by rewrite IH.
Qed.

Lemma list_insert_at_perm {A} (i : nat) (x : A) (l : list A) :
  list_insert_at i x l ≡ₚ x :: l.
Proof.
  unfold list_insert_at. rewrite <- Permutation_middle.
  by rewrite take_drop.
Qed.

Section Archive.
(** The fitness of a decision vector, as the evaluation stores it. *)
Variable fit : list Z → option (Q * Q).
Local Abbreviation evaluated := (evaluated fit).
Local Abbreviation hof_inv := (hof_inv fit).

Lemma covers_refl hof : covers hof hof.
Proof. intros a Ha. by left. Qed.

Lemma covers_trans h1 h2 h3 : covers h1 h2 → covers h2 h3 → covers h1 h3.
Proof.
  intros H12 H23 a Ha. destruct (H12 a Ha) as [Ha2|(b & Hb & Hba)].
  - by apply H23.
  - destruct (H23 b Hb) as [Hb3|(c & Hc & Hcb)]; right.
    + eauto.
    + exists c. split; [done|]. by eapply key_dominates_trans.
Qed.

Lemma hof_update_one_spec hof ind s :
  hof_inv hof → evaluated ind →
  safe False (hof_update_one hof ind) s
       (λ hof' _, hof_inv hof' ∧ covers hof hof' ∧ drawn_from hof [ind] hof').
Proof.
  intros (Hev & Hpnd & Hnd) Hind. unfold hof_update_one.
  destruct (decide (Exists (λ h, key_dominates (wvalues h) (wvalues ind) = true)
                           (items hof))) as [Hd|Hnd_dom].
  { (* dominated: nothing changes *)
    apply Exists_exists in Hd as (h0 & Hh0 & Hd).
    rewrite hof_scan_dominated; [| eauto | |].
    - simpl. apply safe_ret. split; [done|]. split; [apply covers_refl|].
      intros b Hb. by left.
    - intros h Hh. apply not_true_iff_false. intros Hih.
      pose proof (key_dominates_trans _ _ _ Hd Hih) as Hc.
      by rewrite Hpnd in Hc.
    - intros h Hh. apply not_true_iff_false.
      intros [Heq _]%andb_true_iff.
      rewrite (key_dominates_eq_r _ _ _ Heq) in Hd. by rewrite Hpnd in Hd. }
  assert (Hno_dom : ∀ h, h ∈ items hof →
            key_dominates (wvalues h) (wvalues ind) = false).
  { intros h Hh. apply not_true_iff_false. intros Hc. apply Hnd_dom.
    apply Exists_exists. eauto. }
  destruct (decide (Exists (λ h, twin ind h = true) (items hof)))
    as [Ht|Hnt].
  { (* a twin: nothing changes *)
    apply Exists_exists in Ht as (t & Ht & Htw).
    rewrite hof_scan_twin; [| eauto | |done].
    - simpl. apply safe_ret. split; [done|]. split; [apply covers_refl|].
      intros b Hb. by left.
    - intros h Hh. apply not_true_iff_false. intros Hih.
      apply andb_true_iff in Htw as [Heq _].
      rewrite (key_dominates_eq_l _ _ _ Heq) in Hih. by rewrite Hpnd in Hih. }
  assert (Hno_twin : ∀ h, h ∈ items hof → twin ind h = false).
  { intros h Hh. apply not_true_iff_false. intros Hc. apply Hnt.
    apply Exists_exists. eauto. }
  rewrite hof_scan_clean by done. simpl.
  set (kept := filter (λ h, key_dominates (wvalues ind) (wvalues h) = false)
                      (items hof)).
  assert (Hitems : items (foldl hof_remove hof
                            (reverse (dominated_positions ind 0 (items hof))))
                   = kept).
  { rewrite hof_remove_items.
    apply (delete_dominated_positions ind (items hof) []). }
  unfold hof_insert, deepcopy, fresh_oid, safe, bind, ret. simpl.
  rewrite Hitems.
  set (copy := {| oid := next_oid s; genes := genes ind;
                  wvalues := wvalues ind;
                  crowding_dist := crowding_dist ind |}).
  set (pos := length kept - _).
  assert (Hperm : list_insert_at pos copy kept ≡ₚ copy :: kept)
    by apply list_insert_at_perm.
  assert (Hkept : ∀ h, h ∈ kept ↔
            h ∈ items hof ∧ key_dominates (wvalues ind) (wvalues h) = false).
  { intros h. unfold kept. rewrite list_elem_of_filter. tauto. }
  unfold hof_inv, covers, drawn_from. cbn [items].
  split; [split; [|split]|split].
  - rewrite Hperm. constructor; [done|].
    apply Forall_forall. intros h [Hh _]%Hkept.
    rewrite Forall_forall in Hev. by apply Hev.
  - intros a b. rewrite Hperm, !elem_of_cons, !Hkept.
    intros [->|[Ha Hia]] [->|[Hb Hib]]; simpl.
    + apply key_dominates_irrefl.
    + done.
    + by apply Hno_dom.
    + by apply Hpnd.
  - rewrite Hperm. csimpl. apply NoDup_cons. split.
    + intros (h & Hg & [Hh Hih]%Hkept)%list_elem_of_fmap.
      pose proof (Hno_twin h Hh) as Htw. unfold twin, similar in Htw.
      rewrite bool_decide_eq_true_2 in Htw by done.
      rewrite andb_true_r in Htw.
      rewrite Forall_forall in Hev. specialize (Hev h Hh).
      unfold evaluated in Hev, Hind. rewrite Hev, Hind, Hg in Htw.
      by rewrite key_eq_refl in Htw.
    + eapply sublist_NoDup; [exact Hnd|].
      apply fmap_sublist. unfold kept. apply sublist_filter.
  - intros a Ha.
    destruct (key_dominates (wvalues ind) (wvalues a)) eqn:Hia.
    + right. exists copy. split; [|done]. rewrite Hperm. left.
    + left. rewrite Hperm. right. by apply Hkept.
  - intros b. rewrite Hperm, elem_of_cons, Hkept.
    intros [->|[Hb _]]; [right|by left].
    exists ind. split; [left|done].
Qed.

Lemma drawn_from_trans h1 h2 h3 (l1 l2 : list Individual) :
  drawn_from h1 l1 h2 → drawn_from h2 l2 h3 → drawn_from h1 (l1 ++ l2) h3.
Proof.
  intros H12 H23 b Hb. destruct (H23 b Hb) as [Hb2|(ind & Hi & Hg)].
  - destruct (H12 b Hb2) as [?|(ind & Hi & Hg)]; [by left|right].
    exists ind. split; [|done]. apply elem_of_app. by left.
  - right. exists ind. split; [|done]. apply elem_of_app. by right.
Qed.

Lemma hof_update_spec hof (population : list Individual) s :
  hof_inv hof → Forall evaluated population →
  safe False (hof_update hof population) s
       (λ hof' _, hof_inv hof' ∧ covers hof hof'
                  ∧ drawn_from hof population hof').
Proof.
  intros Hinv Hpop. unfold hof_update.
  eapply safe_mono; [|done|].
  - apply (safe_foldM False _ _
             (λ pre hof' _, hof_inv hof' ∧ covers hof hof'
                            ∧ drawn_from hof pre hof')).
    + intros pre x post hof1 s1 Hxs (Hinv1 & Hcov1 & Hfrom1).
      eapply safe_mono; [apply hof_update_one_spec|done|].
      * done.
      * rewrite Forall_forall in Hpop. apply Hpop. rewrite Hxs.
        apply elem_of_app. right. left.
      * intros hof2 s2 (Hinv2 & Hcov2 & Hfrom2).
        split; [done|]. split; [by eapply covers_trans|].
        by eapply drawn_from_trans.
    + split; [done|]. split; [apply covers_refl|]. intros b Hb. by left.
  - done.
Qed.

(** What is in the older archive does not dominate the newer one. *)
Lemma covers_not_dominated old new a v :
  hof_inv new → covers old new →
  a ∈ items old → v ∈ items new →
  key_dominates (wvalues a) (wvalues v) = false.
Proof.
  intros (_ & Hpnd & _) Hcov Ha Hv.
  apply not_true_iff_false. intros Hav.
  destruct (Hcov a Ha) as [Ha'|(b & Hb & Hba)].
  - by rewrite Hpnd in Hav.
  - pose proof (key_dominates_trans _ _ _ Hba Hav) as Hc.
    by rewrite Hpnd in Hc.
Qed.
End Archive.

(** ** The invariants of a run *)

Lemma random_choice_spec {A} F (seq : list A) s :
  (seq = [] → F) →
  safe F (random_choice seq) s (λ x _, x ∈ seq).
Proof.
  intros HF. unfold random_choice.
  destruct (length seq =? 0) eqn:E.
  - apply Nat.eqb_eq in E. apply safe_raise, HF. by destruct seq.
  - apply Nat.eqb_neq in E. apply safe_bind. unfold safe at 1, raw.
    apply safe_liftE.
    + intros x Hx. by apply list_elem_of_lookup_2 in Hx.
    + intros Hnone. apply lookup_ge_None in Hnone.
      pose proof (N.mod_upper_bound (tape s (cursor s)) (N.of_nat (length seq))).
      lia.
Qed.

Lemma random_sample2_spec {A} F (population : list A) s :
  (length population < 2 → F) →
  safe F (random_sample2 population) s
       (λ p _, p.1 ∈ population ∧ p.2 ∈ population).
Proof.
  intros HF. unfold random_sample2. cbv zeta.
  destruct (length population <? 2) eqn:E.
  - apply Nat.ltb_lt in E. by apply safe_raise, HF.
  - apply Nat.ltb_ge in E.
    apply safe_bind. unfold safe at 1, raw.
    apply safe_bind. unfold safe at 1, raw. cbn [cursor tape].
    set (j0 := tape s (cursor s)). set (j1 := tape s (S (cursor s))).
    pose proof (N.mod_upper_bound j0 (N.of_nat (length population))).
    pose proof (N.mod_upper_bound j1 (N.of_nat (length population - 1))).
    apply safe_bind, safe_liftE.
    + intros x Hx. apply safe_bind, safe_liftE.
      * intros y Hy. apply safe_ret. simpl.
        split; by eapply list_elem_of_lookup_2.
      * intros Hnone. apply lookup_ge_None in Hnone.
        destruct (_ =? _) in Hnone; lia.
    + intros Hnone. apply lookup_ge_None in Hnone. lia.
Qed.

Lemma deepcopy_spec F (ind : Individual) s :
  safe F (deepcopy ind) s
       (λ c s', genes c = genes ind ∧ wvalues c = wvalues ind
                ∧ oid c = next_oid s ∧ next_oid s' = S (next_oid s)
                ∧ trace s' = trace s).
Proof. done. Qed.

Section Run.
Variables fl_volume fl_surface_area : Z → Z → Q.
Local Abbreviation fit_of := (fit_of fl_volume fl_surface_area).
Local Abbreviation shaped := (shaped fl_volume fl_surface_area).
Local Abbreviation good := (good fl_volume fl_surface_area).
Local Abbreviation run_inv := (run_inv fl_volume fl_surface_area).

Lemma good_shaped ind : good ind → shaped ind.
Proof. intros (? & ? & ?). repeat split; auto. Qed.

Lemma fit_of_Some g : length g = 2 → is_Some (fit_of g).
Proof. destruct g as [|r [|h [|]]]; done. Qed.

Lemma good_valid ind : good ind → is_Some (wvalues ind).
Proof. intros (Hl & _ & ->). by apply fit_of_Some. Qed.

Lemma good_same a b : same_ind a b → good a → good b.
Proof. intros (_ & Hg & Hw) (? & ? & ?). unfold good. by rewrite <- Hg, <- Hw. Qed.

Local Abbreviation tb := (toolbox fl_volume fl_surface_area).

Lemma individual_spec F s :
  safe F individual s (λ ind _, shaped ind).
Proof.
  unfold individual, initRepeat. apply safe_bind.
  eapply safe_mono;
    [apply (safe_repeatM F attr_item
              (λ x, (1 ≤ x ≤ MAX_ATTRIBUTE_SIZE)%Z))|done|].
  - intros s0. by apply random_randint_spec.
  - intros xs s1 [Hlen Hxs]. unfold new_Individual.
    apply safe_bind. unfold safe at 1, fresh_oid. apply safe_ret.
    split; [done|]. split; [done|]. by left.
Qed.

Lemma population_spec F (n : Z) s :
  safe F (population n) s
       (λ pop _, length pop = Z.to_nat n ∧ Forall shaped pop).
Proof.
  unfold population, initRepeat. apply safe_bind.
  eapply safe_mono; [apply (safe_repeatM F individual shaped)|done|].
  - intros s0. apply individual_spec.
  - intros xs s1 H. by apply safe_ret.
Qed.

Lemma evaluate_invalid_spec F (inds : list Individual) s :
  Forall shaped inds →
  safe F (evaluate_invalid tb inds) s
       (λ out _, length out = length inds ∧ Forall good out).
Proof.
  intros Hinds. unfold evaluate_invalid.
  apply (safe_foldM F _ _
           (λ pre out _, length out = length pre ∧ Forall good out));
    [|split; [done|constructor]].
  intros pre ind post out s0 Hxs [Hlen Hout].
  assert (Hind : shaped ind).
  { rewrite Forall_forall in Hinds. apply Hinds. rewrite Hxs.
    apply elem_of_app. right. left. }
  destruct Hind as (Hl & Hb & Hw).
  unfold valid. destruct (wvalues ind) as [w|] eqn:Ew.
  - apply safe_ret. rewrite !length_app, Hlen. split; [done|].
    apply Forall_app. split; [done|]. apply Forall_singleton.
    destruct Hw as [?|Hw]; [done|]. by rewrite <- Ew in Hw.
  - apply safe_bind. simpl. apply safe_liftE.
    + intros fit Hfit. apply safe_ret. rewrite !length_app, Hlen.
      split; [done|]. apply Forall_app. split; [done|].
      apply Forall_singleton. repeat split; [done|done|].
      unfold fit_of. simpl. by rewrite Hfit.
    + intros Hnone. destruct (fit_of_Some (genes ind) Hl) as [w Hw'].
      unfold fit_of in Hw'. by rewrite Hnone in Hw'.
Qed.

Lemma mate_spec F (ind1 ind2 : Individual) s :
  length (genes ind1) = 2 → length (genes ind2) = 2 →
  in_bounds (genes ind1) → in_bounds (genes ind2) →
  safe F (mate ind1 ind2) s
       (λ c _, length (genes c.1) = 2 ∧ in_bounds (genes c.1)
               ∧ oid c.1 = oid ind1).
Proof.
  intros Hl1 Hl2 Hb1 Hb2. unfold mate.
  apply safe_bind. unfold safe at 1, log.
  apply safe_bind, safe_liftE.
  - intros [g1 g2] Hc. apply safe_ret. simpl.
    destruct (crossover_in_bounds _ _ _ _ Hc Hb1 Hb2) as (? & ? & ? & ?).
    repeat split; [congruence|done].
  - intros Hnone. destruct (crossover_total _ _ Hl1 Hl2) as [c Hc].
    by rewrite Hnone in Hc.
Qed.

Lemma mutate_spec F (ind : Individual) s :
  length (genes ind) = 2 → in_bounds (genes ind) →
  safe F (mutate 1 MAX_ATTRIBUTE_SIZE 0.05 ind) s
       (λ c _, length (genes c) = 2 ∧ in_bounds (genes c) ∧ oid c = oid ind).
Proof.
  intros Hl Hb. unfold mutate.
  apply safe_bind. unfold safe at 1, log.
  apply safe_bind. eapply safe_mono; [by apply mutUniformInt_spec|done|].
  intros g s1 [Hg Hlen]. apply safe_ret. simpl.
  repeat split; [congruence|done].
Qed.

Lemma varOr_spec (population : list Individual) (lambda_ : Z) s :
  Forall good population →
  safe (length population < 2)
       (varOr population tb lambda_ 0.7 0.2) s
       (λ offspring _,
          length offspring = Z.to_nat lambda_ ∧ Forall shaped offspring
          ∧ ((0 < lambda_)%Z → population ≠ [])).
Proof.
  intros Hpop. unfold varOr.
  change (Qle_bool (0.7 + 0.2) 1) with true. cbv iota.
  assert (Hin : ∀ p, p ∈ population → good p)
    by (by apply Forall_forall).
  eapply safe_mono; [|done|].
  - apply (safe_foldM _ _ _
             (λ pre offspring _,
                length offspring = length pre ∧ Forall shaped offspring
                ∧ (pre ≠ [] → population ≠ []))).
    2:{ split; [done|]. split; [constructor|done]. }
    intros pre i post offspring s0 _ (Hlen & Hoff & _).
    assert (Hdone : ∀ (c : Individual) s', shaped c → population ≠ [] →
              safe (length population < 2) (ret (offspring ++ [c])) s'
                (λ acc _, length acc = length (pre ++ [i])
                          ∧ Forall shaped acc
                          ∧ (pre ++ [i] ≠ [] → population ≠ []))).
    { intros c s' Hc Hne. apply safe_ret. rewrite !length_app, Hlen.
      split; [done|]. split; [|done]. apply Forall_app. split; [done|].
      by apply Forall_singleton. }
    apply safe_bind, safe_random_random. intros op_choice s1.
    destruct (Qltb op_choice 0.7).
    + (* crossover *)
      apply safe_bind.
      eapply safe_mono;
        [by apply (random_sample2_spec (length population < 2))|done|].
      intros [p1 p2] s2 [Hp1 Hp2]. simpl in Hp1, Hp2.
      destruct (Hin p1 Hp1) as (Hl1 & Hb1 & _).
      destruct (Hin p2 Hp2) as (Hl2 & Hb2 & _).
      apply safe_bind. eapply safe_mono; [apply deepcopy_spec|done|].
      intros c1 s3 (Hg1 & _). simpl.
      apply safe_bind. eapply safe_mono; [apply deepcopy_spec|done|].
      intros c2 s4 (Hg2 & _). simpl.
      apply safe_bind.
      eapply safe_mono; [apply mate_spec; congruence|done|].
      intros [ch1 ch2] s5 (Hlc & Hbc & _). simpl in Hlc, Hbc.
      apply Hdone.
      * split; [done|]. split; [done|]. by left.
      * intros ->. by apply elem_of_nil in Hp1.
    + destruct (Qltb op_choice (0.7 + 0.2)).
      * (* mutation *)
        apply safe_bind.
        eapply safe_mono;
          [apply (random_choice_spec (length population < 2));
             intros ->; simpl; lia|done|].
        intros p s2 Hp. destruct (Hin p Hp) as (Hl & Hb & _).
        apply safe_bind. eapply safe_mono; [apply deepcopy_spec|done|].
        intros c s3 (Hg & _). simpl.
        apply safe_bind.
        eapply safe_mono; [apply mutate_spec; congruence|done|].
        intros c' s4 (Hlc & Hbc & _).
        apply Hdone.
        -- split; [done|]. split; [done|]. by left.
        -- intros ->. by apply elem_of_nil in Hp.
      * (* reproduction *)
        apply safe_bind.
        eapply safe_mono;
          [apply (random_choice_spec (length population < 2));
             intros ->; simpl; lia|done|].
        intros p s2 Hp. apply Hdone.
        -- by apply good_shaped, Hin.
        -- intros ->. by apply elem_of_nil in Hp.
  - intros offspring s' (Hlen & Hoff & Hne).
    rewrite length_seq in Hlen. split; [done|]. split; [done|].
    intros Hpos. apply Hne.
    destruct (Z.to_nat lambda_) eqn:E; [lia|]. done.
Qed.

Lemma select_spec F (pool : list Individual) (mu : Z) s :
  Forall good pool →
  safe F (tb_select tb pool mu) s
       (λ chosen _,
          Forall good chosen
          ∧ ((0 ≤ mu ≤ Z.of_nat (length pool))%Z →
             length chosen = Z.to_nat mu)).
Proof.
  intros Hpool. simpl.
  destruct (selNSGA2_spec pool mu) as (chosen & Hrun & Hfrom & Hlen).
  { eapply Forall_impl; [exact Hpool|]. apply good_valid. }
  rewrite Hrun. apply safe_ret. split; [|done].
  eapply Forall_impl; [exact Hfrom|].
  intros c (p & Hp & Hsame). eapply good_same; [done|].
  rewrite Forall_forall in Hpool. by apply Hpool.
Qed.

Lemma good_evaluated ind : good ind → evaluated fit_of ind.
Proof. by intros (_ & _ & ?). Qed.

Lemma drawn_from_good old (inds : list Individual) new :
  drawn_from old inds new → Forall good (items old) → Forall good inds →
  Forall good (items new).
Proof.
  intros Hfrom Hold Hinds. apply Forall_forall. intros b Hb.
  destruct (Hfrom b Hb) as [Hbo|(ind & Hi & Hg & Hw)].
  - rewrite Forall_forall in Hold. by apply Hold.
  - rewrite Forall_forall in Hinds. destruct (Hinds ind Hi) as (? & ? & ?).
    unfold good. by rewrite Hg, Hw.
Qed.

Lemma generation_spec (mu : Z) (st : list Individual * ParetoFront) s :
  run_inv mu st →
  safe (mu < 2)%Z (generation tb mu 100 0.7 0.2 st) s
       (λ st' _, run_inv mu st' ∧ covers st.2 st'.2).
Proof.
  destruct st as [pop hof]. intros (Hlen & Hpop & Hhof & Hitems).
  simpl in Hlen, Hpop, Hhof, Hitems. unfold generation.
  apply safe_bind.
  eapply safe_mono; [by apply varOr_spec|lia|].
  intros offspring s1 (Hlen1 & Hoff & Hne).
  apply safe_bind.
  eapply safe_mono; [by apply (evaluate_invalid_spec False)|done|].
  intros offspring' s2 (Hlen2 & Hoff').
  apply safe_bind.
  eapply safe_mono; [apply (hof_update_spec fit_of hof offspring')|done|].
  { done. }
  { eapply Forall_impl; [exact Hoff'|]. apply good_evaluated. }
  intros hof' s3 (Hhof' & Hcov & Hfrom).
  apply safe_bind.
  eapply safe_mono; [apply (select_spec False (pop ++ offspring') mu)|done|].
  { by apply Forall_app. }
  intros chosen s4 (Hchosen & Hlen4). apply safe_ret. simpl.
  split; [|done]. split; [|split; [done|split; [done|]]].
  - apply Hlen4. rewrite length_app, Hlen, Hlen2, Hlen1.
    assert (pop ≠ []) as Hpne by (apply Hne; lia).
    destruct pop; [done|]. simpl in Hlen. lia.
  - by eapply drawn_from_good.
Qed.

Lemma generations_spec (mu : Z) (n : nat) :
  ∀ (st : list Individual * ParetoFront) s,
    run_inv mu st →
    safe ((mu < 2)%Z ∧ 0 < n) (generations n tb mu 100 0.7 0.2 st) s
         (λ st' _, run_inv mu st').
Proof.
  induction n as [|n IH]; intros st s Hinv; simpl.
  - by apply safe_ret.
  - apply safe_bind.
    eapply safe_mono; [by apply generation_spec|intros; split; [done|lia]|].
    intros st' s' [Hinv' _]. simpl.
    eapply safe_mono; [by apply IH|intros [? ?]; split; [done|lia]|done].
Qed.

Lemma hof_inv_empty : hof_inv fit_of (mkHof [] []).
Proof.
  split; [constructor|]. split; [|constructor].
  intros a b Ha. by apply elem_of_nil in Ha.
Qed.

Lemma main_spec (population_size max_generations : Z) s :
  safe ((population_size < 2)%Z ∧ (0 < max_generations)%Z)
       (main fl_volume fl_surface_area population_size max_generations) s
       (λ st _, run_inv population_size st).
Proof.
  unfold main, eaMuPlusLambda. cbv zeta.
  apply safe_bind.
  eapply safe_mono; [apply (population_spec False)|done|].
  intros pop s1 [Hlen Hpop].
  apply safe_bind.
  eapply safe_mono; [by apply (evaluate_invalid_spec False)|done|].
  intros pop' s2 [Hlen' Hpop'].
  apply safe_bind.
  eapply safe_mono; [apply (hof_update_spec fit_of (mkHof [] []) pop')|done|].
  { apply hof_inv_empty. }
  { eapply Forall_impl; [exact Hpop'|]. apply good_evaluated. }
  intros hof s3 (Hhof & _ & Hfrom).
  eapply safe_mono; [apply (generations_spec population_size)| |done].
  - split; [simpl; lia|]. split; [done|]. split; [done|].
    eapply drawn_from_good; [done|constructor|done].
  - intros [? ?]. split; [done|lia].
Qed.

Lemma generations_snoc (n : nat) (mu lambda_ : Z) (cxpb mutpb : Q) :
  ∀ (st : list Individual * ParetoFront) s,
    generations (S n) tb mu lambda_ cxpb mutpb st s
    = bind (generations n tb mu lambda_ cxpb mutpb st)
           (generation tb mu lambda_ cxpb mutpb) s.
Proof.
  induction n as [|n IH]; intros st s.
  - simpl. unfold bind, ret.
    by destruct (generation tb mu lambda_ cxpb mutpb st s).
  - change (generations (S (S n)) tb mu lambda_ cxpb mutpb st s)
      with (bind (generation tb mu lambda_ cxpb mutpb st)
                 (generations (S n) tb mu lambda_ cxpb mutpb) s).
    unfold bind at 1.
    destruct (generation tb mu lambda_ cxpb mutpb st s) as [st1 s1|e] eqn:E.
    + rewrite IH. simpl. unfold bind. by rewrite E.
    + simpl. unfold bind. by rewrite E.
Qed.
End Run.

(** ** The population and the archive over a run *)




(** C6: the archive after generation g+1 holds no member dominated by a
    member of the archive after generation g, and every member of the
    earlier archive is still there or is dominated by a member of the later
    one. *)
Theorem archive_monotone (fl_volume fl_surface_area : Z → Z → Q)
    (population_size : Z) (g : nat) (s : State)
    (pop pop' : list Individual) (hof hof' : ParetoFront) (s1 s2 : State) :
  main fl_volume fl_surface_area population_size (Z.of_nat g) s
    = Ok (pop, hof) s1 →
  main fl_volume fl_surface_area population_size (Z.of_nat (S g)) s
    = Ok (pop', hof') s2 →
  (∀ a v, a ∈ items hof → v ∈ items hof' →
     key_dominates (wvalues a) (wvalues v) = false)
  ∧ (∀ a, a ∈ items hof →
       a ∈ items hof'
       ∨ ∃ b, b ∈ items hof' ∧ key_dominates (wvalues b) (wvalues a) = true).
Proof.
  intros Hg HSg.
  pose proof (main_spec fl_volume fl_surface_area population_size
                (Z.of_nat g) s) as Hinv.
  unfold safe in Hinv. rewrite Hg in Hinv.
  unfold main, eaMuPlusLambda in Hg, HSg. cbv zeta in Hg, HSg.
  unfold bind in Hg, HSg.
  destruct (population population_size s) as [p0 s0|]; [|done].
  destruct (evaluate_invalid _ p0 s0) as [p1 s1'|]; [|done].
  destruct (hof_update _ p1 s1') as [h1 s1''|]; [|done].
  rewrite Nat2Z.id in Hg, HSg.
  rewrite generations_snoc in HSg. unfold bind in HSg. rewrite Hg in HSg.
  pose proof (generation_spec fl_volume fl_surface_area population_size
                (pop, hof) s1 Hinv) as Hstep.
  unfold safe in Hstep. rewrite HSg in Hstep.
  destruct Hstep as [(_ & _ & Hhof' & _) Hcov]. simpl in Hhof', Hcov.
  split; [|exact Hcov].
  intros a v Ha Hv. by eapply covers_not_dominated.
Qed.

(** Whatever the registered operators do, [varOr] appends one offspring per
    round. *)
Lemma safe_any {A} (m : M A) s : safe True m s (λ _ _, True).
Proof. unfold safe. by destruct (m s). Qed.

Lemma varOr_length (population : list Individual) (tbx : Toolbox)
    (lambda_ : Z) (cxpb mutpb : Q) s :
  safe True (varOr population tbx lambda_ cxpb mutpb) s
       (λ offspring _, length offspring = Z.to_nat lambda_).
Proof.
  unfold varOr. destruct (Qle_bool (cxpb + mutpb) 1); [|done].
  eapply safe_mono; [|done|].
  - apply (safe_foldM True _ _ (λ pre offspring _, length offspring = length pre));
      [|done].
    intros pre i post offspring s0 _ Hlen.
    assert (Hdone : ∀ (c : Individual) s',
              safe True (ret (offspring ++ [c])) s'
                (λ acc _, length acc = length (pre ++ [i]))).
    { intros c s'. apply safe_ret. by rewrite !length_app, Hlen. }
    apply safe_bind, safe_random_random. intros op_choice s1.
    destruct (Qltb op_choice cxpb); [|destruct (Qltb op_choice (cxpb + mutpb))].
    + apply safe_bind. eapply safe_mono; [apply safe_any|done|].
      intros [p1 p2] s2 _.
      apply safe_bind. eapply safe_mono; [apply safe_any|done|].
      intros c1 s3 _.
      apply safe_bind. eapply safe_mono; [apply safe_any|done|].
      intros c2 s4 _.
      apply safe_bind. eapply safe_mono; [apply safe_any|done|].
      intros [ch1 ch2] s5 _. apply Hdone.
    + apply safe_bind. eapply safe_mono; [apply safe_any|done|].
      intros p s2 _.
      apply safe_bind. eapply safe_mono; [apply safe_any|done|].
      intros c s3 _.
      apply safe_bind. eapply safe_mono; [apply safe_any|done|].
      intros c' s4 _. apply Hdone.
    + apply safe_bind. eapply safe_mono; [apply safe_any|done|].
      intros p s2 _. apply Hdone.
  - intros offspring s' Hlen. by rewrite length_seq in Hlen.
Qed.


(** ** The crowding distance *)

(** The stable sort sorts. *)
Section SortKey.
Context {A : Type} (key : A → Q).
Local Abbreviation key_le := (key_le key).
Local Abbreviation key_ltb := (key_ltb key).

Lemma insert_sorted_sorted (x : A) (l : list A) :
  StronglySorted key_le l → StronglySorted key_le (insert_sorted key_ltb x l).
Proof.
  induction l as [|y l IH]; intros Hl; simpl.
  - repeat constructor.
  - apply StronglySorted_cons in Hl as [Hy Hl].
    unfold key_ltb at 1. destruct (Qltb (key x) (key y)) eqn:E; qprop.
    + apply StronglySorted_cons. split; [|by apply StronglySorted_cons].
      constructor; [unfold key_le; lra|].
      eapply Forall_impl; [exact Hy|]. unfold key_le. intros z Hz. lra.
    + apply StronglySorted_cons. split; [|by apply IH].
      rewrite insert_sorted_perm. by constructor.
Qed.

Lemma stable_sort_sorted (l : list A) :
  StronglySorted key_le (stable_sort key_ltb l).
Proof.
  unfold stable_sort.
  assert (∀ acc, StronglySorted key_le acc →
            StronglySorted key_le
              (foldl (λ acc x, insert_sorted key_ltb x acc) acc l)) as H.
  { induction l as [|x l IH]; intros acc Hacc; simpl; [done|].
    by apply IH, insert_sorted_sorted. }
  apply H. constructor.
Qed.

Lemma sorted_head_min (l : list A) (lo e : A) :
  StronglySorted key_le l → head l = Some lo → e ∈ l → key_le lo e.
Proof.
  intros Hl Hlo He. apply head_Some in Hlo as [l' ->].
  apply StronglySorted_cons in Hl as [Hlo _].
  apply elem_of_cons in He as [->|He]; [unfold key_le; lra|].
  rewrite Forall_forall in Hlo. by apply Hlo.
Qed.

Lemma sorted_last_max (l : list A) (hi e : A) :
  StronglySorted key_le l → list.last l = Some hi → e ∈ l → key_le e hi.
Proof.
  intros Hl Hhi He. apply last_Some in Hhi as [l' ->].
  apply elem_of_app in He as [He| ->%list_elem_of_singleton];
    [|unfold key_le; lra].
  eapply StronglySorted_app_1_elem_of; [exact Hl|done|left].
Qed.
End SortKey.

Lemma Dist_add_Inf q : Dist_add q Inf = Inf.
Proof. done. Qed.

(** A distance that is infinite stays infinite through the rounds. *)
Lemma gaps_keep_Inf (i : nat) (norm : Q)
    (T : list ((Q * Q * nat) * ((Q * Q * nat) * (Q * Q * nat)))) :
  ∀ (ds : list Dist) (j : nat),
    ds !! j = Some Inf →
    foldl (λ ds '(prev, (cur, next)),
             alter (Dist_add ((obj i next.1 - obj i prev.1) / norm)) cur.2 ds)
          ds T !! j = Some Inf.
Proof.
  induction T as [|[prev [cur next]] T IH]; intros ds j Hj; simpl; [done|].
  apply IH. destruct (decide (cur.2 = j)) as [<-|Hne].
  - by rewrite list_lookup_alter, decide_True, Hj by done.
  - by rewrite list_lookup_alter_ne.
Qed.

Lemma crowd_objective_keeps_Inf nobj crowd distances i j :
  distances !! j = Some Inf →
  (crowd_objective nobj (crowd, distances) i).2 !! j = Some Inf.
Proof.
  intros Hj. unfold crowd_objective.
  destruct (head _) as [lo|]; [|done].
  destruct (list.last _) as [hi|]; [|done].
  assert (Hb : <[hi.2:=Inf]> (<[lo.2:=Inf]> distances) !! j = Some Inf).
  { assert (Ha : <[lo.2:=Inf]> distances !! j = Some Inf).
    { destruct (decide (lo.2 = j)) as [<-|?].
      - apply list_lookup_insert_eq. by apply lookup_lt_Some in Hj.
      - by rewrite list_lookup_insert_ne. }
    destruct (decide (hi.2 = j)) as [<-|?].
    - apply list_lookup_insert_eq. rewrite length_insert.
      by apply lookup_lt_Some in Hj.
    - by rewrite list_lookup_insert_ne. }
  destruct (Qeq_bool _ _); simpl; [done|].
  by apply gaps_keep_Inf.
Qed.

(** The two ends of the sort order get an infinite distance. *)
Lemma crowd_objective_ends nobj crowd distances i lo hi :
  let sorted := stable_sort (key_ltb (λ e : Q * Q * nat, obj i e.1)) crowd in
  head sorted = Some lo → list.last sorted = Some hi →
  lo.2 < length distances → hi.2 < length distances →
  (crowd_objective nobj (crowd, distances) i).1 = sorted
  ∧ (crowd_objective nobj (crowd, distances) i).2 !! lo.2 = Some Inf
  ∧ (crowd_objective nobj (crowd, distances) i).2 !! hi.2 = Some Inf.
Proof.
  intros sorted Hlo Hhi Hl Hh. unfold crowd_objective.
  change (stable_sort _ crowd) with sorted. rewrite Hlo, Hhi.
  assert (Hb1 : <[hi.2:=Inf]> (<[lo.2:=Inf]> distances) !! lo.2 = Some Inf).
  { destruct (decide (hi.2 = lo.2)) as [->|?].
    - apply list_lookup_insert_eq. by rewrite length_insert.
    - rewrite list_lookup_insert_ne by done. by apply list_lookup_insert_eq. }
  assert (Hb2 : <[hi.2:=Inf]> (<[lo.2:=Inf]> distances) !! hi.2 = Some Inf).
  { apply list_lookup_insert_eq. by rewrite length_insert. }
  destruct (Qeq_bool _ _); simpl; [done|].
  split; [done|]. split; by apply gaps_keep_Inf.
Qed.

(** With distinct objects, the write at a position reaches that position
    only. *)
Lemma same_ind_oids (l l' : list Individual) :
  Forall2 same_ind l l' → oid <$> l' = oid <$> l.
Proof.
  induction 1 as [|a b k k' (Hab & _) _ IH]; [done|].
  csimpl. by rewrite IH, Hab.
Qed.

Lemma write_dist_oids (l : list Individual) (w : nat * Dist) :
  oid <$> write_dist l w = oid <$> l.
Proof. apply same_ind_oids, write_dist_same. Qed.

Lemma write_dist_other (l : list Individual) (q : nat) (d : Dist) (p : nat) :
  NoDup (oid <$> l) → p ≠ q → write_dist l (q, d) !! p = l !! p.
Proof.
  intros Hnd Hpq. unfold write_dist. simpl.
  destruct (l !! q) as [target|] eqn:Hq; [|done].
  rewrite list_lookup_fmap. destruct (l !! p) as [ind|] eqn:Hp; [|done].
  simpl. destruct (oid ind =? oid target) eqn:E; [|done].
  apply Nat.eqb_eq in E. exfalso. apply Hpq.
  eapply NoDup_lookup; [exact Hnd| |];
    rewrite list_lookup_fmap; [by rewrite Hp|by rewrite Hq, E].
Qed.

Lemma write_dist_here (l : list Individual) (p : nat) (d : Dist) ind :
  l !! p = Some ind → write_dist l (p, d) !! p = Some (setCrowdingDist ind d).
Proof.
  intros Hp. unfold write_dist. simpl. rewrite Hp, list_lookup_fmap, Hp.
  simpl. by rewrite Nat.eqb_refl.
Qed.

Lemma write_dists_other (ws : list (nat * Dist)) : ∀ (l : list Individual) p,
  NoDup (oid <$> l) → p ∉ ws.*1 → foldl write_dist l ws !! p = l !! p.
Proof.
  induction ws as [|[q d] ws IH]; intros l p Hnd Hp; simpl; [done|].
  csimpl in Hp. apply not_elem_of_cons in Hp as [Hpq Hp].
  rewrite IH; [by apply write_dist_other| |done].
  by rewrite write_dist_oids.
Qed.

Lemma write_dists_lookup (l : list Individual) (ds : list Dist) p ind d :
  NoDup (oid <$> l) → l !! p = Some ind → ds !! p = Some d →
  foldl write_dist l (imap pair ds) !! p = Some (setCrowdingDist ind d).
Proof.
  intros Hnd Hp Hd.
  assert (Hw : imap pair ds !! p = Some (p, d))
    by (by rewrite list_lookup_imap, Hd).
  assert (Hpos : (imap pair ds).*1 = seq 0 (length ds)).
  { rewrite fmap_imap.
    rewrite (imap_ext _ (λ j _, j)) by done.
    rewrite (imap_seq_0 ds (λ j, j)). apply list_fmap_id. }
  rewrite <- (take_drop_middle _ _ _ Hw) in Hpos |- *.
  rewrite fmap_app in Hpos. csimpl in Hpos.
  assert (Hnd' := NoDup_seq 0 (length ds)). rewrite <- Hpos in Hnd'.
  apply NoDup_app in Hnd' as (_ & Hdisj & Hnd2).
  apply NoDup_cons in Hnd2 as [Hafter _].
  rewrite foldl_app. cbn [foldl].
  rewrite write_dists_other; [| |done].
  2:{ rewrite write_dist_oids.
      by rewrite (same_ind_oids _ _ (write_dists_same (take p (imap pair ds)) l)). }
  apply write_dist_here.
  rewrite write_dists_other; [done|done|].
  intros Hin. by apply (Hdisj p Hin); left.
Qed.

Lemma crowd_entry (vs : list (Q * Q)) (e : Q * Q * nat) :
  e ∈ imap (λ i v, (v, i)) vs ↔ vs !! e.2 = Some e.1.
Proof.
  rewrite list_elem_of_lookup. split.
  - intros (j & Hj). rewrite list_lookup_imap in Hj.
    destruct (vs !! j) as [v|] eqn:Hv; [|done]. simpl in Hj.
    injection Hj as <-. done.
  - intros He. exists e.2. rewrite list_lookup_imap, He. by destruct e.
Qed.

(** One objective: the crowd stays the same set of entries, the distances
    keep their length, and an entry with the least and one with the greatest
    value of the objective get an infinite distance. *)
Lemma crowd_objective_step (vs : list (Q * Q)) (crowd : list (Q * Q * nat))
    (distances : list Dist) (i : nat) :
  vs ≠ [] → crowd ≡ₚ imap (λ i v, (v, i)) vs →
  length distances = length vs →
  ∃ crowd' distances' lo hi,
    crowd_objective 2 (crowd, distances) i = (crowd', distances')
    ∧ crowd' ≡ₚ imap (λ i v, (v, i)) vs
    ∧ length distances' = length vs
    ∧ lo ∈ crowd' ∧ hi ∈ crowd'
    ∧ distances' !! lo.2 = Some Inf ∧ distances' !! hi.2 = Some Inf
    ∧ (∀ e, e ∈ crowd' → (obj i lo.1 <= obj i e.1 <= obj i hi.1)%Q)
    ∧ (∀ j, distances !! j = Some Inf → distances' !! j = Some Inf).
Proof.
  intros Hne Hperm Hlen.
  set (key := λ e : Q * Q * nat, obj i e.1).
  set (sorted := stable_sort (key_ltb key) crowd).
  assert (Hsp : sorted ≡ₚ imap (λ i v, (v, i)) vs).
  { unfold sorted. by rewrite stable_sort_perm. }
  assert (Hss : StronglySorted (key_le key) sorted) by apply stable_sort_sorted.
  assert (Hlen_s : length sorted = length vs).
  { by rewrite Hsp, length_imap. }
  destruct (head sorted) as [lo|] eqn:Hlo.
  2:{ apply head_None in Hlo. rewrite Hlo in Hlen_s. by destruct vs. }
  destruct (list.last sorted) as [hi|] eqn:Hhi.
  2:{ apply last_None in Hhi. rewrite Hhi in Hlen_s. by destruct vs. }
  assert (Hlo_in : lo ∈ sorted) by (by apply head_Some_elem_of).
  assert (Hhi_in : hi ∈ sorted) by (by apply last_Some_elem_of).
  assert (Hrange : ∀ e, e ∈ sorted → e.2 < length distances).
  { intros e He. rewrite Hsp in He. apply crowd_entry in He.
    rewrite Hlen. by apply lookup_lt_Some in He. }
  destruct (crowd_objective_ends 2 crowd distances i lo hi Hlo Hhi)
    as (Hc & Hdlo & Hdhi); [by apply Hrange|by apply Hrange|].
  destruct (crowd_objective 2 (crowd, distances) i) as [c' d'] eqn:E.
  simpl in Hc, Hdlo, Hdhi. subst c'.
  exists sorted, d', lo, hi. split; [done|]. split; [done|].
  split.
  { replace d' with (crowd_objective 2 (crowd, distances) i).2 by (by rewrite E).
    by rewrite crowd_objective_length. }
  split; [done|]. split; [done|]. split; [done|]. split; [done|]. split.
  - intros e He. split.
    + by apply (sorted_head_min key sorted).
    + by apply (sorted_last_max key sorted).
  - intros j Hj.
    replace d' with (crowd_objective 2 (crowd, distances) i).2 by (by rewrite E).
    by apply crowd_objective_keeps_Inf.
Qed.

(** The ends of a front of distinct objects. *)
Lemma assignCrowdingDist_ends (front : list Individual) :
  front ≠ [] →
  Forall (λ ind, is_Some (wvalues ind)) front →
  NoDup (oid <$> front) →
  ∃ assigned,
    assignCrowdingDist front = Some assigned
    ∧ Forall2 same_ind front assigned
    ∧ ∀ i, i < 2 →
        (∃ lo vlo,
           lo ∈ assigned ∧ objective i lo = Some vlo
           ∧ crowding_dist lo = Some Inf
           ∧ ∀ other v, other ∈ assigned → objective i other = Some v →
                        (vlo <= v)%Q)
        ∧ (∃ hi vhi,
             hi ∈ assigned ∧ objective i hi = Some vhi
             ∧ crowding_dist hi = Some Inf
             ∧ ∀ other v, other ∈ assigned → objective i other = Some v →
                          (v <= vhi)%Q).
Proof.
  intros Hne Hvalid Hnd. unfold assignCrowdingDist.
  destruct front as [|first rest] eqn:Hfront; [done|].
  rewrite <- Hfront in *. clear Hne.
  assert (Hfirst : is_Some (wvalues first)).
  { rewrite Forall_forall in Hvalid. apply Hvalid. rewrite Hfront. left. }
  destruct Hfirst as [w0 ->].
  destruct (mapM (λ ind, getValues <$> wvalues ind) front) as [vs|] eqn:Hvs.
  2:{ exfalso. apply mapM_None in Hvs.
      apply Exists_exists in Hvs as (ind & Hin & Hn).
      rewrite Forall_forall in Hvalid. destruct (Hvalid ind Hin) as [w Hw].
      by rewrite Hw in Hn. }
  apply mapM_Some_1 in Hvs.
  assert (Hlen : length front = length vs) by (by eapply Forall2_length).
  assert (Hvne : vs ≠ []).
  { intros ->. rewrite Hfront in Hlen. done. }
  cbn [mbind option_bind]. cbv zeta. cbn [seq foldl].
  destruct (crowd_objective_step vs (imap (λ i v, (v, i)) vs)
              (replicate (length front) (Fin 0)) 0)
    as (c1 & d1 & lo0 & hi0 & -> & Hp1 & Hl1 & Hlo0 & Hhi0 & Hdlo0 & Hdhi0
        & Hmin0 & _); [done|done|by rewrite length_replicate|].
  destruct (crowd_objective_step vs c1 d1 1)
    as (c2 & d2 & lo1 & hi1 & -> & Hp2 & Hl2 & Hlo1 & Hhi1 & Hdlo1 & Hdhi1
        & Hmin1 & Hkeep); [done|done|done|].
  eexists. split; [reflexivity|]. split; [apply write_dists_same|].
  set (assigned := foldl write_dist front (imap pair d2)).
  (* what is at a position of the result *)
  assert (Hat : ∀ q v, vs !! q = Some v →
            ∃ ind dq, front !! q = Some ind ∧ d2 !! q = Some dq
              ∧ assigned !! q = Some (setCrowdingDist ind dq)
              ∧ ∀ i, objective i (setCrowdingDist ind dq) = Some (obj i v)).
  { intros q v Hq.
    destruct (Forall2_lookup_r _ _ _ _ _ Hvs Hq) as (ind & Hind & Hv).
    destruct (lookup_lt_is_Some_2 d2 q) as [dq Hdq].
    { rewrite Hl2. by apply lookup_lt_Some in Hq. }
    exists ind, dq. split; [done|]. split; [done|].
    split; [by apply write_dists_lookup|].
    intros i. unfold objective. simpl.
    destruct (wvalues ind) as [w|]; [|done]. simpl in Hv. by injection Hv as <-. }
  assert (Hother : ∀ other, other ∈ assigned →
            ∃ q v, vs !! q = Some v
              ∧ ∀ i, objective i other = Some (obj i v)).
  { intros other (q & Hq)%list_elem_of_lookup.
    assert (Hla : length assigned = length front).
    { symmetry. eapply Forall2_length, write_dists_same. }
    destruct (lookup_lt_is_Some_2 vs q) as [v Hv].
    { rewrite <- Hlen, <- Hla. by apply lookup_lt_Some in Hq. }
    destruct (Hat q v Hv) as (ind & dq & _ & _ & Hass & Hobj).
    exists q, v. split; [done|].
    rewrite Hass in Hq. injection Hq as <-. done. }
  (* an end of objective [i]: an entry of the crowd with infinite distance *)
  assert (Hend : ∀ (i : nat) (e : Q * Q * nat) (c : list (Q * Q * nat)),
            c ≡ₚ imap (λ i v, (v, i)) vs → e ∈ c → d2 !! e.2 = Some Inf →
            ∃ ind, ind ∈ assigned ∧ objective i ind = Some (obj i e.1)
                   ∧ crowding_dist ind = Some Inf).
  { intros i e c Hc He Hd. rewrite Hc in He. apply crowd_entry in He.
    destruct (Hat e.2 e.1 He) as (ind & dq & _ & Hdq & Hass & Hobj).
    rewrite Hd in Hdq. injection Hdq as <-.
    exists (setCrowdingDist ind Inf). split; [|split; [apply Hobj|done]].
    by apply list_elem_of_lookup_2 in Hass. }
  assert (Hall : ∀ (i : nat) (c : list (Q * Q * nat)) other v,
            c ≡ₚ imap (λ i v, (v, i)) vs →
            other ∈ assigned → objective i other = Some v →
            ∃ e, e ∈ c ∧ v = obj i e.1).
  { intros i c other v Hc Ho Hv.
    destruct (Hother other Ho) as (q & vq & Hq & Hobj).
    rewrite Hobj in Hv. injection Hv as <-.
    exists (vq, q). split; [|done]. rewrite Hc. by apply crowd_entry. }
  intros i Hi.
  destruct i as [|[|]]; [| |lia].
  - split.
    + destruct (Hend 0 lo0 c1 Hp1 Hlo0 (Hkeep _ Hdlo0)) as (ind & Hin & Ho & Hcd).
      exists ind, (obj 0 lo0.1). repeat split; try done.
      intros other v Ho' Hv.
      destruct (Hall 0 c1 other v Hp1 Ho' Hv) as (e & He & ->).
      by apply Hmin0.
    + destruct (Hend 0 hi0 c1 Hp1 Hhi0 (Hkeep _ Hdhi0)) as (ind & Hin & Ho & Hcd).
      exists ind, (obj 0 hi0.1). repeat split; try done.
      intros other v Ho' Hv.
      destruct (Hall 0 c1 other v Hp1 Ho' Hv) as (e & He & ->).
      by apply Hmin0.
  - split.
    + destruct (Hend 1 lo1 c2 Hp2 Hlo1 Hdlo1) as (ind & Hin & Ho & Hcd).
      exists ind, (obj 1 lo1.1). repeat split; try done.
      intros other v Ho' Hv.
      destruct (Hall 1 c2 other v Hp2 Ho' Hv) as (e & He & ->).
      by apply Hmin1.
    + destruct (Hend 1 hi1 c2 Hp2 Hhi1 Hdhi1) as (ind & Hin & Ho & Hcd).
      exists ind, (obj 1 hi1.1). repeat split; try done.
      intros other v Ho' Hv.
      destruct (Hall 1 c2 other v Hp2 Ho' Hv) as (e & He & ->).
      by apply Hmin1.
Qed.

(** The interior of the sort order: each entry between two neighbours gains
    the gap between them, divided by [nobj] times the range. *)
Lemma gaps_fold_untouched (i : nat) (norm : Q)
    (T : list ((Q * Q * nat) * ((Q * Q * nat) * (Q * Q * nat)))) :
  ∀ (ds : list Dist) (j : nat),
    j ∉ (λ t, t.2.1.2) <$> T →
    foldl (λ ds '(prev, (cur, next)),
             alter (Dist_add ((obj i next.1 - obj i prev.1) / norm)) cur.2 ds)
          ds T !! j = ds !! j.
Proof.
  induction T as [|[prev [cur next]] T IH]; intros ds j Hj; simpl; [done|].
  csimpl in Hj. apply not_elem_of_cons in Hj as [Hne Hj].
  rewrite IH by done. by rewrite list_lookup_alter_ne.
Qed.

Lemma gaps_fold_lookup (i : nat) (norm : Q)
    (T : list ((Q * Q * nat) * ((Q * Q * nat) * (Q * Q * nat)))) :
  ∀ (ds : list Dist) (k : nat) prev cur next,
    NoDup ((λ t, t.2.1.2) <$> T) →
    T !! k = Some (prev, (cur, next)) →
    foldl (λ ds '(prev, (cur, next)),
             alter (Dist_add ((obj i next.1 - obj i prev.1) / norm)) cur.2 ds)
          ds T !! cur.2
    = Dist_add ((obj i next.1 - obj i prev.1) / norm) <$> ds !! cur.2.
Proof.
  induction T as [|[p0 [c0 n0]] T IH]; intros ds k prev cur next Hnd Hk;
    [done|].
  csimpl in Hnd. apply NoDup_cons in Hnd as [Hc0 Hnd].
  destruct k as [|k]; simpl in Hk.
  - injection Hk as -> -> ->. simpl.
    rewrite gaps_fold_untouched by done.
    by rewrite list_lookup_alter, decide_True.
  - simpl. rewrite (IH _ k prev cur next) by done.
    rewrite list_lookup_alter_ne; [done|].
    intros Heq. apply Hc0. apply list_elem_of_fmap.
    exists (prev, (cur, next)). split; [done|].
    by apply list_elem_of_lookup_2 in Hk.
Qed.

Lemma crowd_objective_interior nobj (crowd : list (Q * Q * nat))
    (distances : list Dist) (i : nat) lo hi k prev cur next :
  let sorted := stable_sort (key_ltb (λ e : Q * Q * nat, obj i e.1)) crowd in
  NoDup crowd.*2 →
  head sorted = Some lo → list.last sorted = Some hi →
  ¬ (obj i hi.1 == obj i lo.1)%Q →
  sorted !! k = Some prev → sorted !! S k = Some cur →
  sorted !! S (S k) = Some next →
  (crowd_objective nobj (crowd, distances) i).2 !! cur.2
  = Dist_add ((obj i next.1 - obj i prev.1)
              / (inject_Z (Z.of_nat nobj) * (obj i hi.1 - obj i lo.1)))
      <$> <[hi.2:=Inf]> (<[lo.2:=Inf]> distances) !! cur.2.
Proof.
  intros sorted Hnd Hlo Hhi Hne Hprev Hcur Hnext. unfold crowd_objective.
  change (stable_sort _ crowd) with sorted. rewrite Hlo, Hhi.
  apply Qeq_bool_false in Hne. rewrite Hne. simpl.
  set (n := length sorted).
  assert (Hn : S (S k) < n) by (by apply lookup_lt_Some in Hnext).
  set (A := take (n - 2) sorted).
  set (B := drop 1 (take (n - 1) sorted)).
  set (C := drop 2 sorted).
  assert (HlA : length A = n - 2) by (unfold A; rewrite length_take; lia).
  assert (HlB : length B = n - 2).
  { unfold B. rewrite length_drop, length_take. lia. }
  assert (HlC : length C = n - 2) by (unfold C; rewrite length_drop; lia).
  apply (gaps_fold_lookup i _ (zip A (zip B C)) _ k prev cur next).
  - assert ((λ t : (Q * Q * nat) * ((Q * Q * nat) * (Q * Q * nat)), t.2.1.2)
            <$> zip A (zip B C) = B.*2) as ->.
    { transitivity ((zip A (zip B C)).*2.*1.*2).
      - by rewrite <- !list_fmap_compose.
      - rewrite snd_zip by (rewrite length_zip; lia). by rewrite fst_zip by lia. }
    assert (Hnd' : NoDup sorted.*2).
    { unfold sorted. by rewrite stable_sort_perm. }
    eapply sublist_NoDup; [exact Hnd'|].
    apply fmap_sublist. unfold B.
    etrans; [apply sublist_drop|apply sublist_take].
  - rewrite lookup_zip_with. unfold A. rewrite lookup_take, decide_True by lia.
    rewrite Hprev. simpl. rewrite lookup_zip_with. unfold B, C.
    rewrite !lookup_drop, lookup_take, decide_True by lia.
    simpl. by rewrite Hcur, Hnext.
Qed.




(** The three individuals [1, 1], [2, 2], [3, 3] as distinct objects: the
    first and the last are the ends in both objectives. *)
Example plain_front_distances :
  (λ ind, (genes ind, crowding_dist ind))
    <$> default [] (assignCrowdingDist plain_front)
  = [ ([1; 1]%Z, Some Inf);
      ([2; 2]%Z, Some (Fin (Qplus (Qplus 0 ((28 - 1) / (2 * (28 - 1))))
                                 ((68 - 7) / (2 * (68 - 7))))));
      ([3; 3]%Z, Some Inf) ].
Proof. vm_compute. reflexivity. Qed.

(** ** Determinism *)

Lemma det_ret {A} (a : A) : deterministic (ret a).
Proof. intros s1 s2 H. by split. Qed.

Lemma det_raise {A} (e : exn) : deterministic (@raise A e).
Proof. by intros s1 s2 H. Qed.

Lemma det_bind {A B} (m : M A) (k : A → M B) :
  deterministic m → (∀ a, deterministic (k a)) → deterministic (bind m k).
Proof.
  intros Hm Hk s1 s2 H. specialize (Hm s1 s2 H). unfold bind.
  destruct (m s1) as [a s1'|e1], (m s2) as [b s2'|e2]; try done.
  destruct Hm as [-> H']. by apply Hk.
Qed.

Lemma det_raw : deterministic raw.
Proof.
  intros s1 s2 [Ht Ho]. simpl. split; [|split; [|done]].
  - specialize (Ht 0). by rewrite !Nat.add_0_r in Ht.
  - intros i. simpl. specialize (Ht (S i)).
    by rewrite <- !Nat.add_succ_comm in Ht.
Qed.

Lemma det_fresh_oid : deterministic fresh_oid.
Proof.
  intros s1 s2 [Ht Ho]. simpl. split; [done|]. split; [done|]. simpl. lia.
Qed.

Lemma det_log (e : event) : deterministic (log e).
Proof. intros s1 s2 [Ht Ho]. simpl. by split. Qed.

Lemma det_liftE {A} (e : exn) (o : option A) : deterministic (liftE e o).
Proof. destruct o; [apply det_ret|apply det_raise]. Qed.

Lemma det_foldM {A B} (body : B → A → M B) (xs : list A) :
  (∀ acc x, deterministic (body acc x)) →
  ∀ acc, deterministic (foldM body acc xs).
Proof.
  intros Hbody. induction xs as [|x xs IH]; intros acc; simpl.
  - apply det_ret.
  - apply det_bind; [apply Hbody|apply IH].
Qed.

Lemma det_repeatM {A} (f : M A) (n : nat) :
  deterministic f → deterministic (repeatM n f).
Proof.
  intros Hf. induction n as [|n IH]; simpl; [apply det_ret|].
  apply det_bind; [done|]. intros a.
  apply det_bind; [done|]. intros xs. apply det_ret.
Qed.

(** One step of a proof that a computation is deterministic. *)
Ltac det_step :=
  match goal with
  | |- deterministic (bind _ _) => apply det_bind; [|intros ?]
  | |- deterministic (ret _) => apply det_ret
  | |- deterministic (raise _) => apply det_raise
  | |- deterministic raw => apply det_raw
  | |- deterministic fresh_oid => apply det_fresh_oid
  | |- deterministic (log _) => apply det_log
  | |- deterministic (liftE _ _) => apply det_liftE
  | |- deterministic (foldM _ _ _) => apply det_foldM; intros ? ?
  | |- deterministic (repeatM _ _) => apply det_repeatM
  | |- deterministic (if ?b then _ else _) => destruct b
  | |- deterministic (match ?x with _ => _ end) => destruct x
  | H : deterministic ?m |- deterministic ?m => exact H
  | H : ∀ a, deterministic (?f a) |- deterministic (?f _) => apply H
  | H : ∀ a b, deterministic (?f a b) |- deterministic (?f _ _) => apply H
  end.

Ltac det := repeat det_step.

Lemma det_random_random : deterministic random_random.
Proof. unfold random_random. det. Qed.

Lemma det_random_randint a b : deterministic (random_randint a b).
Proof. unfold random_randint. det. Qed.

Lemma det_random_choice {A} (seq : list A) : deterministic (random_choice seq).
Proof. unfold random_choice. det. Qed.

Lemma det_random_sample2 {A} (l : list A) : deterministic (random_sample2 l).
Proof. unfold random_sample2. cbv zeta. det. Qed.

Lemma det_deepcopy ind : deterministic (deepcopy ind).
Proof. unfold deepcopy. det. Qed.

Lemma det_mate a b : deterministic (mate a b).
Proof. unfold mate. det. Qed.

Lemma det_mutUniformInt low up indpb g :
  deterministic (mutUniformInt low up indpb g).
Proof.
  unfold mutUniformInt. det; [apply det_random_random|].
  det. apply det_random_randint.
Qed.

Lemma det_mutate low up indpb ind : deterministic (mutate low up indpb ind).
Proof. unfold mutate. det. apply det_mutUniformInt. Qed.

Lemma det_population n : deterministic (population n).
Proof.
  unfold population, initRepeat, individual, initRepeat, attr_item,
    new_Individual.
  det. apply det_random_randint.
Qed.

Lemma det_hof_update hof inds : deterministic (hof_update hof inds).
Proof.
  unfold hof_update. det. unfold hof_update_one.
  destruct (hof_scan _ _ _ _ _) as [[isd tw] tr]. det.
  unfold hof_insert. det. apply det_deepcopy.
Qed.

Section DetRun.
Variable tbx : Toolbox.
Hypothesis det_evaluate : ∀ ind, deterministic (tb_evaluate tbx ind).
Hypothesis det_tb_mate : ∀ a b, deterministic (tb_mate tbx a b).
Hypothesis det_tb_mutate : ∀ a, deterministic (tb_mutate tbx a).
Hypothesis det_select : ∀ l k, deterministic (tb_select tbx l k).
Hypothesis det_clone : ∀ a, deterministic (tb_clone tbx a).

Lemma det_varOr pop lambda_ cxpb mutpb :
  deterministic (varOr pop tbx lambda_ cxpb mutpb).
Proof.
  unfold varOr. det;
    try apply det_random_random; try apply det_random_sample2;
    try apply det_random_choice; det.
Qed.

Lemma det_evaluate_invalid inds : deterministic (evaluate_invalid tbx inds).
Proof. unfold evaluate_invalid. det. Qed.

Lemma det_generation mu lambda_ cxpb mutpb st :
  deterministic (generation tbx mu lambda_ cxpb mutpb st).
Proof.
  unfold generation. destruct st as [pop hof]. det.
  - apply det_varOr.
  - apply det_evaluate_invalid.
  - apply det_hof_update.
Qed.

Lemma det_generations n mu lambda_ cxpb mutpb :
  ∀ st, deterministic (generations n tbx mu lambda_ cxpb mutpb st).
Proof.
  induction n as [|n IH]; intros st; simpl; [apply det_ret|].
  apply det_bind; [apply det_generation|apply IH].
Qed.

Lemma det_eaMuPlusLambda pop mu lambda_ cxpb mutpb ngen hof :
  deterministic (eaMuPlusLambda pop tbx mu lambda_ cxpb mutpb ngen hof).
Proof.
  unfold eaMuPlusLambda. det.
  - apply det_evaluate_invalid.
  - apply det_hof_update.
  - apply det_generations.
Qed.
End DetRun.

Lemma det_main fl_volume fl_surface_area population_size max_generations :
  deterministic (main fl_volume fl_surface_area population_size max_generations).
Proof.
  unfold main. cbv zeta. apply det_bind; [apply det_population|].
  intros pop. apply det_eaMuPlusLambda; simpl; intros.
  - apply det_liftE.
  - apply det_mate.
  - apply det_mutate.
  - apply det_liftE.
  - apply det_deepcopy.
Qed.

(** C3, as stated, fails: [main] has no seed among its arguments and never
    seeds the generator, so two runs with the same arguments need not agree.
    With one individual and no generation, a generator whose first draws are
    0, 0 gives the population [[1, 1]], one whose first draws are 1, 1 gives
    [[2, 2]]. *)
Lemma main_not_determined_by_arguments :
  ¬ (∀ fl_volume fl_surface_area population_size max_generations s1 s2,
       outcome (main fl_volume fl_surface_area population_size
                     max_generations s1)
       = outcome (main fl_volume fl_surface_area population_size
                       max_generations s2)).
Proof.
  intros H.
  specialize (H demo_volume demo_surface_area 1%Z 0%Z
                (mkState (λ _, 0%N) 0 0 []) (mkState (λ _, 1%N) 0 0 [])).
  vm_compute in H. discriminate.
Qed.

(** C3: two runs of [main] with the same arguments, started in states from
    which the generator yields the same draws, return the same population and
    the same archive (or raise the same exception). *)
Theorem main_deterministic (fl_volume fl_surface_area : Z → Z → Q)
    (population_size max_generations : Z) (s1 s2 : State) :
  same_future s1 s2 →
  match main fl_volume fl_surface_area population_size max_generations s1,
        main fl_volume fl_surface_area population_size max_generations s2 with
  | Ok (pop1, hof1) _, Ok (pop2, hof2) _ => pop1 = pop2 ∧ hof1 = hof2
  | Raise e1, Raise e2 => e1 = e2
  | _, _ => False
  end.
Proof.
  intros H.
  pose proof (det_main fl_volume fl_surface_area population_size
                max_generations s1 s2 H) as Hd.
  destruct (main _ _ _ _ s1) as [[pop1 hof1] s1'|e1],
           (main _ _ _ _ s2) as [[pop2 hof2] s2'|e2]; try done.
  destruct Hd as [Heq _]. by injection Heq as -> ->.
Qed.

Lemma main_deterministic_witness :
  same_future (mkState (λ i, N.of_nat i) 3 0 [])
              (mkState (λ i, N.of_nat (i + 3)) 0 0 [Mutated 7])
  ∧ outcome (main demo_volume demo_surface_area 4 1
                  (mkState (λ i, N.of_nat i) 3 0 []))
    = outcome (main demo_volume demo_surface_area 4 1
                    (mkState (λ i, N.of_nat (i + 3)) 0 0 [Mutated 7])).
Proof.
  assert (Hf : same_future (mkState (λ i, N.of_nat i) 3 0 [])
                 (mkState (λ i, N.of_nat (i + 3)) 0 0 [Mutated 7])).
  { split; [|reflexivity]. intros i. simpl. f_equal. lia. }
  split; [exact Hf|].
  pose proof (main_deterministic demo_volume demo_surface_area 4 1 _ _ Hf) as H.
  destruct (main _ _ _ _ _) as [[pop1 hof1] s1'|e1],
           (main _ _ _ _ _) as [[pop2 hof2] s2'|e2]; try done.
  destruct H as [-> ->]. reflexivity.
Defined.

(** ** One operator per offspring *)

Lemma quiet_refl s : quiet s s.
Proof. done. Qed.

Lemma quiet_trans s1 s2 s3 : quiet s1 s2 → quiet s2 s3 → quiet s1 s3.
Proof. unfold quiet. intros [-> ->] [-> ->]. done. Qed.

Lemma random_random_quiet F s :
  safe F random_random s (λ u s', u = next_random s ∧ quiet s s').
Proof. done. Qed.

Lemma random_randint_quiet a b s :
  safe True (random_randint a b) s (λ _ s', quiet s s').
Proof. unfold random_randint. by destruct (b <? a)%Z. Qed.

Lemma random_choice_quiet {A} (seq : list A) s :
  safe True (random_choice seq) s (λ x s', x ∈ seq ∧ quiet s s').
Proof.
  unfold random_choice. destruct (length seq =? 0); [done|].
  apply safe_bind. unfold safe at 1, raw. apply safe_liftE; [|done].
  intros x Hx. split; [by apply list_elem_of_lookup_2 in Hx|done].
Qed.

Lemma random_sample2_quiet {A} (l : list A) s :
  safe True (random_sample2 l) s
       (λ p s', p.1 ∈ l ∧ p.2 ∈ l ∧ quiet s s').
Proof.
  unfold random_sample2. cbv zeta. destruct (length l <? 2); [done|].
  apply safe_bind. unfold safe at 1, raw.
  apply safe_bind. unfold safe at 1, raw.
  apply safe_bind, safe_liftE; [|done]. intros x Hx.
  apply safe_bind, safe_liftE; [|done]. intros y Hy.
  apply safe_ret. simpl.
  split; [by eapply list_elem_of_lookup_2|].
  split; [by eapply list_elem_of_lookup_2|done].
Qed.

Lemma mutUniformInt_quiet low up indpb g s :
  safe True (mutUniformInt low up indpb g) s (λ _ s', quiet s s').
Proof.
  unfold mutUniformInt.
  apply (safe_foldM True _ _ (λ _ _ s', quiet s s')); [|done].
  intros pre i post acc s0 _ Hq.
  apply safe_bind. eapply safe_mono; [apply (random_random_quiet True)|done|].
  intros u s1 [_ Hq1]. destruct (Qltb u indpb).
  - apply safe_bind. eapply safe_mono; [apply random_randint_quiet|done|].
    intros v s2 Hq2. apply safe_ret.
    exact (quiet_trans _ _ _ (quiet_trans _ _ _ Hq Hq1) Hq2).
  - apply safe_ret. exact (quiet_trans _ _ _ Hq Hq1).
Qed.

Lemma mate_trace (a b : Individual) s :
  safe True (mate a b) s
       (λ c s', trace s' = trace s ++ [Mated (oid a) (oid b)]
                ∧ next_oid s' = next_oid s ∧ oid c.1 = oid a).
Proof.
  unfold mate. apply safe_bind. unfold safe at 1, log.
  apply safe_bind, safe_liftE; [|done]. intros [g1 g2] _.
  by apply safe_ret.
Qed.

Lemma mutate_trace low up indpb (a : Individual) s :
  safe True (mutate low up indpb a) s
       (λ c s', trace s' = trace s ++ [Mutated (oid a)]
                ∧ next_oid s' = next_oid s ∧ oid c = oid a).
Proof.
  unfold mutate. apply safe_bind. unfold safe at 1, log.
  apply safe_bind. eapply safe_mono; [apply mutUniformInt_quiet|done|].
  intros g s1 [Ho Ht]. apply safe_ret. simpl in Ho, Ht. by rewrite Ho, Ht.
Qed.

Lemma NoDup_concat_unique {A B} (f : A → list B) (l : list A) (x : B) a1 a2 :
  NoDup (concat (f <$> l)) → a1 ∈ l → a2 ∈ l → x ∈ f a1 → x ∈ f a2 → a1 = a2.
Proof.
  induction l as [|a l IH]; intros Hnd H1 H2 Hx1 Hx2;
    [by apply elem_of_nil in H1|].
  csimpl in Hnd. apply NoDup_app in Hnd as (_ & Hdisj & Hnd).
  assert (Hin : ∀ a', a' ∈ l → x ∈ f a' → x ∈ concat (f <$> l)).
  { intros a' Ha' Hx. apply elem_of_concat. exists (f a'). split; [done|].
    apply list_elem_of_fmap. eauto. }
  apply elem_of_cons in H1 as [->|H1], H2 as [->|H2]; [done| | |by apply IH].
  - exfalso. by apply (Hdisj x Hx1), (Hin a2).
  - exfalso. by apply (Hdisj x Hx2), (Hin a1).
Qed.

Section OneOperation.
Variables fl_volume fl_surface_area : Z → Z → Q.
Variable population : list Individual.
Variable s : State.
Local Abbreviation origin := (origin population).
Local Abbreviation varOr_inv := (varOr_inv population s).

Local Abbreviation tb := (toolbox fl_volume fl_surface_area).

Lemma origin_mono evs e child : origin evs child → origin (evs ++ [e]) child.
Proof.
  intros [(o2 & H & ?)|[[H ?]|H]].
  - left. exists o2. split; [|done]. apply elem_of_app. by left.
  - right. left. split; [|done]. apply elem_of_app. by left.
  - right. by right.
Qed.

Lemma trace_oids_snoc evs e :
  trace_oids (evs ++ [e]) = trace_oids evs ++ event_oids e.
Proof.
  unfold trace_oids. rewrite fmap_app, concat_app. simpl.
  by rewrite app_nil_r.
Qed.

Lemma varOr_inv_event pre i offspring st st' e child :
  varOr_inv pre offspring st →
  trace st' = trace st ++ [e] →
  next_oid st ≤ next_oid st' →
  NoDup (event_oids e) →
  (∀ o, o ∈ event_oids e → next_oid st ≤ o < next_oid st') →
  origin [e] child →
  varOr_inv (pre ++ [i]) (offspring ++ [child]) st'.
Proof.
  intros (evs & Ht & Hn & Hnd & Hr & Hlen & Hoff) Ht' Hn' Hnde Hre Hc.
  exists (evs ++ [e]). split; [by rewrite Ht', Ht, <- app_assoc|].
  split; [lia|]. rewrite trace_oids_snoc. split; [|split; [|split]].
  - apply NoDup_app. split; [done|]. split; [|done].
    intros o Ho Ho'. specialize (Hr o Ho). specialize (Hre o Ho'). lia.
  - intros o [Ho|Ho]%elem_of_app.
    + specialize (Hr o Ho). lia.
    + specialize (Hre o Ho). lia.
  - rewrite !length_app, Hlen. done.
  - apply Forall_app. split.
    + eapply Forall_impl; [exact Hoff|]. intros c. apply origin_mono.
    + apply Forall_singleton.
      destruct Hc as [(o2 & H & ?)|[[H ?]|H]].
      * left. exists o2. split; [|done]. apply elem_of_app. by right.
      * right. left. split; [|done]. apply elem_of_app. by right.
      * right. by right.
Qed.

Lemma varOr_inv_quiet pre i offspring st st' child :
  varOr_inv pre offspring st → quiet st st' → child ∈ population →
  varOr_inv (pre ++ [i]) (offspring ++ [child]) st'.
Proof.
  intros (evs & Ht & Hn & Hnd & Hr & Hlen & Hoff) [Hq1 Hq2] Hc.
  exists evs. rewrite Hq1, Hq2.
  split; [done|]. split; [done|]. split; [done|]. split; [done|]. split.
  - by rewrite !length_app, Hlen.
  - apply Forall_app. split; [done|]. apply Forall_singleton. right. by right.
Qed.

Lemma varOr_inv_frame pre offspring st st' :
  varOr_inv pre offspring st → quiet st st' → varOr_inv pre offspring st'.
Proof.
  intros (evs & Ht & Hn & Hnd & Hr & Hlen & Hoff) [Hq1 Hq2].
  exists evs. by rewrite Hq1, Hq2.
Qed.

Lemma varOr_trace (lambda_ : Z) :
  safe True (varOr population tb lambda_ 0.7 0.2) s
       (varOr_inv (seq 0 (Z.to_nat lambda_))).
Proof.
  unfold varOr. change (Qle_bool (0.7 + 0.2) 1) with true. cbv iota.
  apply (safe_foldM True _ _ varOr_inv).
  2:{ exists []. rewrite app_nil_r.
      split; [done|]. split; [done|]. split; [constructor|].
      split; [intros o' Ho; by apply elem_of_nil in Ho|].
      split; [done|constructor]. }
  intros pre i post offspring s0 _ Hinv.
  apply safe_bind. eapply safe_mono; [apply (random_random_quiet True)|done|].
  intros op_choice s1 [_ Hq1].
  pose proof (varOr_inv_frame _ _ _ _ Hinv Hq1) as Hinv1.
  destruct (Qltb op_choice 0.7); [|destruct (Qltb op_choice (0.7 + 0.2))].
  - apply safe_bind. eapply safe_mono; [apply random_sample2_quiet|done|].
    intros [p1 p2] s2 (_ & _ & Hq2).
    pose proof (varOr_inv_frame _ _ _ _ Hinv1 Hq2) as Hinv2.
    apply safe_bind. eapply safe_mono; [apply (deepcopy_spec True)|done|].
    intros c1 s3 (_ & _ & Ho1 & Hn3 & Ht3). simpl.
    apply safe_bind. eapply safe_mono; [apply (deepcopy_spec True)|done|].
    intros c2 s4 (_ & _ & Ho2 & Hn4 & Ht4). simpl.
    apply safe_bind. eapply safe_mono; [apply mate_trace|done|].
    intros [ch1 ch2] s5 (Ht5 & Hn5 & Hoc). simpl in Hoc.
    apply safe_ret.
    apply (varOr_inv_event pre i offspring s2 s5
             (Mated (oid c1) (oid c2)) (delValues ch1) Hinv2).
    + by rewrite Ht5, Ht4, Ht3.
    + lia.
    + simpl. rewrite Ho1, Ho2, Hn3. apply NoDup_cons. split.
      * intros Heq%list_elem_of_singleton. lia.
      * apply NoDup_singleton.
    + simpl. intros o'. rewrite Ho1, Ho2, Hn3, elem_of_cons,
        list_elem_of_singleton. lia.
    + left. exists (oid c2). simpl. rewrite Hoc. split; [left|done].
  - apply safe_bind. eapply safe_mono; [apply random_choice_quiet|done|].
    intros p s2 (_ & Hq2).
    pose proof (varOr_inv_frame _ _ _ _ Hinv1 Hq2) as Hinv2.
    apply safe_bind. eapply safe_mono; [apply (deepcopy_spec True)|done|].
    intros c s3 (_ & _ & Ho & Hn3 & Ht3). simpl.
    apply safe_bind. eapply safe_mono; [apply mutate_trace|done|].
    intros c' s4 (Ht4 & Hn4 & Hoc).
    apply safe_ret.
    apply (varOr_inv_event pre i offspring s2 s4
             (Mutated (oid c)) (delValues c') Hinv2).
    + by rewrite Ht4, Ht3.
    + lia.
    + apply NoDup_singleton.
    + simpl. intros o' Heq%list_elem_of_singleton. lia.
    + right. left. simpl. rewrite Hoc. split; [left|done].
  - apply safe_bind. eapply safe_mono; [apply random_choice_quiet|done|].
    intros p s2 (Hp & Hq2).
    apply safe_ret. by apply (varOr_inv_quiet pre i offspring s1 s2).
Qed.
End OneOperation.




Lemma archive_monotone_witness :
  match main demo_volume demo_surface_area 4 (Z.of_nat 0) counting_draws,
        main demo_volume demo_surface_area 4 (Z.of_nat 1) counting_draws with
  | Ok (_, hof) _, Ok (_, hof') _ =>
      (∀ a v, a ∈ items hof → v ∈ items hof' →
         key_dominates (wvalues a) (wvalues v) = false)
      ∧ (∀ a, a ∈ items hof →
           a ∈ items hof'
           ∨ ∃ b, b ∈ items hof'
                  ∧ key_dominates (wvalues b) (wvalues a) = true)
  | _, _ => False
  end.
Proof.
  destruct (main demo_volume demo_surface_area 4 (Z.of_nat 0) counting_draws)
    as [[pop hof] s1|e] eqn:E1; [|vm_compute in E1; discriminate E1].
  destruct (main demo_volume demo_surface_area 4 (Z.of_nat 1) counting_draws)
    as [[pop' hof'] s2|e] eqn:E2; [|vm_compute in E2; discriminate E2].
  exact (archive_monotone _ _ _ 0 _ _ _ _ _ _ _ E1 E2).
Defined.

(** ** The run properties on a concrete run *)




(** * Further properties of the program *)

(** ** [crossover] and [evaluate_fitness] on lists of any length *)

Lemma crossover_cons (r1 h1 r2 h2 : Z) (t1 t2 : list Z) :
  crossover (r1 :: h1 :: t1) (r2 :: h2 :: t2)
  = Some (r2 :: h2 :: t1, h1 :: h2 :: t2).
Proof. reflexivity. Qed.

(** X1: [crossover] raises IndexError exactly when one of the two lists has
    fewer than two elements. *)
Theorem crossover_index_error (ind1 ind2 : list Z) :
  crossover ind1 ind2 = None ↔ length ind1 < 2 ∨ length ind2 < 2.
Proof.
  destruct ind1 as [|r1 [|h1 t1]], ind2 as [|r2 [|h2 t2]];
    try (split; [intros _; simpl; lia | intros _; reflexivity]).
  rewrite crossover_cons. split; [discriminate|]. simpl. lia.
Qed.

(** X2: when [crossover] returns, each child has the length of its parent,
    every value of a child is a value of a parent, the first child keeps
    the first parent's elements from position 2 on, and the second child
    differs from the second parent at position 0 only. *)
Theorem crossover_recombines (ind1 ind2 c1 c2 : list Z) :
  crossover ind1 ind2 = Some (c1, c2) →
  length c1 = length ind1 ∧ length c2 = length ind2
  ∧ (∀ x, x ∈ c1 ++ c2 → x ∈ ind1 ++ ind2)
  ∧ drop 2 c1 = drop 2 ind1 ∧ take 2 c1 = take 2 ind2
  ∧ drop 1 c2 = drop 1 ind2 ∧ c2 !! 0 = ind1 !! 1.
Proof.
  intros H.
  destruct ind1 as [|r1 [|h1 t1]], ind2 as [|r2 [|h2 t2]]; try discriminate H.
  rewrite crossover_cons in H. injection H as <- <-.
  repeat split.
  intros x. rewrite !elem_of_app, !elem_of_cons. tauto.
Qed.

Lemma crossover_recombines_witness :
  crossover [1; 2; 9]%Z [3; 4]%Z = Some ([3; 4; 9]%Z, [2; 4]%Z)
  ∧ length [3; 4; 9]%Z = length [1; 2; 9]%Z
  ∧ length [2; 4]%Z = length [3; 4]%Z
  ∧ (∀ x, x ∈ [3; 4; 9]%Z ++ [2; 4]%Z → x ∈ [1; 2; 9]%Z ++ [3; 4]%Z)
  ∧ drop 2 [3; 4; 9]%Z = drop 2 [1; 2; 9]%Z
  ∧ take 2 [3; 4; 9]%Z = take 2 [3; 4]%Z
  ∧ drop 1 [2; 4]%Z = drop 1 [3; 4]%Z
  ∧ [2; 4]%Z !! 0 = [1; 2; 9]%Z !! 1.
Proof.
  split; [reflexivity|].
  apply (crossover_recombines [1; 2; 9]%Z [3; 4]%Z). reflexivity.
Defined.

(** X3: [evaluate_fitness] raises IndexError exactly on a list of fewer
    than two elements; otherwise it evaluates the two formulas on the
    first two elements and ignores the rest. *)
Theorem evaluate_fitness_index_error (F : Type) (f g : Z → Z → F) :
  (∀ individual,
     evaluate_fitness f g individual = None ↔ length individual < 2)
  ∧ (∀ r h rest,
       evaluate_fitness f g (r :: h :: rest) = Some (f r h, g r h)).
Proof.
  split; [|reflexivity].
  intros [|r [|h rest]]; simpl; (split; [intros H|intros H]);
    try reflexivity; try lia; try discriminate H.
Qed.

(** ** The two formulas over the real numbers *)

Lemma sqrt_sum_sq_mono (r h r' h' : R) :
  (0 <= r <= r')%R → (0 <= h <= h')%R →
  (sqrt (h ^ 2 + r ^ 2) <= sqrt (h' ^ 2 + r' ^ 2))%R.
Proof. intros Hr Hh. apply sqrt_le_1_alt. nra. Qed.




(** ** The generators of the initial population *)

Lemma individual_run (s : State) :
  individual s
  = Ok (mkInd (next_oid s) [drawn_gene s 0; drawn_gene s 1] None None)
       (mkState (tape s) (cursor s + 2) (S (next_oid s)) (trace s)).
Proof.
  unfold drawn_gene. replace (cursor s + 0) with (cursor s) by lia.
  replace (cursor s + 1) with (S (cursor s)) by lia.
  replace (cursor s + 2) with (S (S (cursor s))) by lia.
  reflexivity.
Qed.

Lemma repeatM_individual_run (n : nat) : ∀ s,
  repeatM n individual s
  = Ok ((λ i, mkInd (next_oid s + i)
                    [drawn_gene s (2 * i); drawn_gene s (2 * i + 1)]
                    None None) <$> seq 0 n)
       (mkState (tape s) (cursor s + 2 * n) (next_oid s + n) (trace s)).
Proof.
  induction n as [|n IH]; intros s.
  - simpl. unfold ret. destruct s as [t c o tr]. simpl.
    by rewrite !Nat.add_0_r.
  - cbn [repeatM]. unfold bind at 1. rewrite individual_run.
    unfold bind at 1. rewrite IH. unfold ret. cbn [tape cursor next_oid trace].
    f_equal.
    + cbn [seq fmap list_fmap]. f_equal.
      * by rewrite Nat.add_0_r.
      * rewrite <- fmap_S_seq, <- list_fmap_compose.
        apply list_fmap_ext. intros i x _. unfold compose, drawn_gene.
        cbn [tape cursor].
        replace (cursor s + 2 + 2 * x) with (cursor s + 2 * S x) by lia.
        replace (cursor s + 2 + (2 * x + 1))
          with (cursor s + (2 * S x + 1)) by lia.
        f_equal. lia.
    + f_equal; lia.
Qed.

(** X5: [toolbox.population(n)] never raises.  It returns [max(n, 0)] new
    individuals without fitness, the genes of the i-th being the values of
    the raw draws [2i] and [2i+1] mapped into [1, 25]; it consumes exactly
    two draws per individual. *)
Theorem population_from_draws (n : Z) (s : State) :
  population n s
  = Ok ((λ i, mkInd (next_oid s + i)
                    [drawn_gene s (2 * i); drawn_gene s (2 * i + 1)]
                    None None) <$> seq 0 (Z.to_nat n))
       (mkState (tape s) (cursor s + 2 * Z.to_nat n)
                (next_oid s + Z.to_nat n) (trace s)).
Proof.
  unfold population, initRepeat. unfold bind.
  by rewrite repeatM_individual_run.
Qed.

(** ** [mutUniformInt] for any bounds and probability *)

Lemma random_random_draw F s :
  safe F random_random s
       (λ u s', (0 <= u)%Q ∧ cursor s' = S (cursor s)).
Proof.
  unfold random_random, safe, bind, raw, ret. cbn [cursor]. split; [|done].
  unfold Qle. cbn [Qnum Qden]. rewrite Z.mul_0_l, Z.mul_1_r.
  apply N2Z.is_nonneg.
Qed.

Lemma random_randint_draw F (a b : Z) s :
  (a ≤ b)%Z →
  safe F (random_randint a b) s
       (λ v s', (a ≤ v ≤ b)%Z ∧ cursor s' = S (cursor s)).
Proof.
  intros Hab. unfold random_randint.
  destruct (b <? a)%Z eqn:E; [apply Z.ltb_lt in E; lia|].
  unfold safe, bind, raw, ret. simpl. split; [|done].
  pose proof (Z.mod_pos_bound (Z.of_N (tape s (cursor s))) (b - a + 1)). lia.
Qed.

(** X6: with [low <= up], [mutUniformInt] never raises and keeps the
    length of the list; each element keeps its value or takes one in
    [low, up]; between one and two draws are consumed per element; and
    with [indpb <= 0] nothing changes. *)
Theorem mutUniformInt_keeps_or_redraws (low up : Z) (indpb : Q)
    (individual : list Z) (s : State) :
  (low ≤ up)%Z →
  ∃ g s',
    mutUniformInt low up indpb individual s = Ok g s'
    ∧ length g = length individual
    ∧ (∀ i x y, individual !! i = Some x → g !! i = Some y →
                y = x ∨ (low ≤ y ≤ up)%Z)
    ∧ cursor s + length individual ≤ cursor s'
      ≤ cursor s + 2 * length individual
    ∧ ((indpb <= 0)%Q → g = individual).
Proof.
  intros Hlu. apply safe_total. unfold mutUniformInt.
  eapply safe_mono;
    [apply (safe_foldM False _ _
              (λ pre g st,
                 length g = length individual
                 ∧ (∀ i x y, individual !! i = Some x → g !! i = Some y →
                             y = x ∨ (low ≤ y ≤ up)%Z)
                 ∧ cursor s + length pre ≤ cursor st
                   ≤ cursor s + 2 * length pre
                 ∧ ((indpb <= 0)%Q → g = individual)))
    |done|].
  - intros pre i post g st _ (Hlen & Hval & Hcur & Hzero).
    apply safe_bind. eapply safe_mono; [apply (random_random_draw False)|done|].
    intros u st1 [Hu Hc1]. destruct (Qltb u indpb) eqn:E.
    + apply Qltb_lt in E.
      apply safe_bind.
      eapply safe_mono; [by apply (random_randint_draw False)|done|].
      intros v st2 [Hv Hc2]. apply safe_ret.
      split; [by rewrite length_insert|]. split; [|split].
      * intros j x y Hx Hy. destruct (decide (i = j)) as [->|Hne].
        -- rewrite list_lookup_insert_eq in Hy.
           ++ injection Hy as <-. by right.
           ++ rewrite Hlen. by apply lookup_lt_Some in Hx.
        -- rewrite list_lookup_insert_ne in Hy by done. by eapply Hval.
      * rewrite length_app. simpl. lia.
      * intros Hle. exfalso. apply (Qlt_not_le _ _ E).
        by apply Qle_trans with 0%Q.
    + apply safe_ret. split; [done|]. split; [done|]. split; [|done].
      rewrite length_app. simpl. lia.
  - split; [done|]. split; [|split; [simpl; lia|done]].
    intros i x y Hx Hy. left. congruence.
  - intros g s' (Hlen & Hval & Hcur & Hzero).
    rewrite length_seq in Hcur. done.
Qed.

Lemma mutUniformInt_keeps_or_redraws_witness :
  ∃ g s',
    mutUniformInt 1 25 0.05 [5; 6]%Z zero_draws = Ok g s'
    ∧ length g = length [5; 6]%Z
    ∧ (∀ i x y, [5; 6]%Z !! i = Some x → g !! i = Some y →
                y = x ∨ (1 ≤ y ≤ 25)%Z)
    ∧ cursor zero_draws + length [5; 6]%Z ≤ cursor s'
      ≤ cursor zero_draws + 2 * length [5; 6]%Z
    ∧ ((0.05 <= 0)%Q → g = [5; 6]%Z).
Proof. apply (mutUniformInt_keeps_or_redraws 1 25 0.05 [5; 6]%Z). lia. Defined.


(** ** The order of the archive *)

Lemma key_lt_leq_trans (x y z : option (Q * Q)) :
  key_lt x y = true → key_leq y z → key_lt x z = true.
Proof.
  unfold key_leq.
  destruct x as [[x1 x2]|], y as [[y1 y2]|], z as [[z1 z2]|];
    simpl; try done.
  unfold fitness_lt. simpl.
  destruct (Qeq_bool x1 y1) eqn:E1, (Qeq_bool z1 y1) eqn:E2,
           (Qeq_bool x1 z1) eqn:E3; intros H1 H2; qprop;
    try (apply Qltb_lt); try lra; exfalso; lra.
Qed.

Lemma key_lt_asym (x y : option (Q * Q)) :
  key_lt x y = true → key_leq x y.
Proof.
  unfold key_leq.
  destruct x as [[x1 x2]|], y as [[y1 y2]|]; simpl; try done.
  unfold fitness_lt. simpl.
  destruct (Qeq_bool x1 y1) eqn:E1, (Qeq_bool y1 x1) eqn:E2;
    intros H1; qprop; try (apply Qltb_ge); try lra; exfalso; lra.
Qed.

Lemma StronglySorted_lookup {A} (R : relation A) (l : list A) :
  StronglySorted R l →
  ∀ i j a b, i < j → l !! i = Some a → l !! j = Some b → R a b.
Proof.
  induction 1 as [|x l Hl IH Hx]; intros i j a b Hij Ha Hb; [done|].
  destruct j as [|j]; [lia|]. simpl in Hb. destruct i as [|i].
  - injection Ha as <-. rewrite Forall_forall in Hx. apply Hx.
    by eapply list_elem_of_lookup_2.
  - simpl in Ha. apply (IH i j); [lia|done|done].
Qed.

Lemma StronglySorted_sublist {A} (R : relation A) (l k : list A) :
  sublist k l → StronglySorted R l → StronglySorted R k.
Proof.
  induction 1 as [|x k l Hkl IH|x k l Hkl IH]; intros Hs; [done| |].
  - apply StronglySorted_cons in Hs as [Hx Hl].
    apply StronglySorted_cons. split; [|by apply IH].
    eapply Forall_forall. intros y Hy. rewrite Forall_forall in Hx.
    apply Hx. by eapply elem_of_sublist.
  - apply StronglySorted_cons in Hs as [_ Hl]. by apply IH.
Qed.

Lemma StronglySorted_reverse {A} (R : relation A) (l : list A) :
  StronglySorted R (reverse l) → StronglySorted (flip R) l.
Proof.
  induction l as [|x l IH]; intros Hs; [constructor|].
  rewrite reverse_cons in Hs.
  apply StronglySorted_app in Hs as (Hx & Hl & _).
  constructor; [by apply IH|].
  apply Forall_forall. intros y Hy. apply Hx; [|left].
  by apply elem_of_reverse.
Qed.

(** [bisect_right] on ascending keys returns the position after the last
    key that is not greater than [x]. *)
Lemma bisect_loop_spec (a : list (option (Q * Q))) (x : option (Q * Q)) :
  StronglySorted key_leq a →
  ∀ fuel lo hi,
    lo ≤ hi ≤ length a → hi - lo < fuel →
    (∀ j y, j < lo → a !! j = Some y → key_lt x y = false) →
    (∀ j y, hi ≤ j → a !! j = Some y → key_lt x y = true) →
    let i := bisect_loop fuel a x lo hi in
    i ≤ length a
    ∧ (∀ j y, j < i → a !! j = Some y → key_lt x y = false)
    ∧ (∀ j y, i ≤ j → a !! j = Some y → key_lt x y = true).
Proof.
  intros Hs. induction fuel as [|fuel IH]; intros lo hi Hb Hf Hlo Hhi;
    [lia|].
  cbn [bisect_loop]. destruct (lo <? hi) eqn:E.
  - apply Nat.ltb_lt in E.
    pose proof (Nat.div_mod_eq (lo + hi) 2) as Hd.
    pose proof (Nat.mod_upper_bound (lo + hi) 2) as Hm.
    set (mid := (lo + hi) / 2) in *.
    assert (lo ≤ mid < hi) as Hmid by lia.
    destruct (a !! mid) as [a_mid|] eqn:Ea.
    2:{ apply lookup_ge_None in Ea. lia. }
    destruct (key_lt x a_mid) eqn:Ex.
    + apply IH; [lia|lia|done|].
      intros j y Hj Hy. destruct (decide (j = mid)) as [->|Hne].
      * congruence.
      * apply key_lt_leq_trans with a_mid; [done|].
        apply (StronglySorted_lookup _ _ Hs mid j); [lia|done|done].
    + apply IH; [lia|lia| |done].
      intros j y Hj Hy. destruct (decide (j = mid)) as [->|Hne].
      * congruence.
      * apply not_true_iff_false. intros Hxy.
        assert (key_lt x a_mid = true) as Hc; [|congruence].
        apply key_lt_leq_trans with y; [done|].
        apply (StronglySorted_lookup _ _ Hs j mid); [lia|done|done].
  - apply Nat.ltb_ge in E. assert (lo = hi) as -> by lia.
    split; [lia|]. split; [done|done].
Qed.

Lemma bisect_right_spec (a : list (option (Q * Q))) (x : option (Q * Q)) :
  StronglySorted key_leq a →
  bisect_right a x ≤ length a
  ∧ (∀ j y, j < bisect_right a x → a !! j = Some y → key_lt x y = false)
  ∧ (∀ j y, bisect_right a x ≤ j → a !! j = Some y → key_lt x y = true).
Proof.
  intros Hs. unfold bisect_right. apply (bisect_loop_spec a x Hs); [lia|lia| |].
  - intros j y Hj. lia.
  - intros j y Hj Hy. apply lookup_lt_Some in Hy. lia.
Qed.

Lemma mirror_insert {A} (i : nat) (x : A) (l : list A) :
  i ≤ length l →
  reverse (list_insert_at (length l - i) x l)
  = list_insert_at i x (reverse l).
Proof.
  intros Hi. unfold list_insert_at.
  rewrite reverse_app, reverse_cons, <- app_assoc. simpl.
  rewrite take_reverse, drop_reverse. done.
Qed.

Lemma mirror_delete {A} (i : nat) (l : list A) :
  i < length l →
  reverse (delete i l) = delete (length l - (i + 1)) (reverse l).
Proof.
  intros Hi. rewrite !delete_take_drop.
  rewrite reverse_app, take_reverse, drop_reverse.
  f_equal; f_equal; f_equal; lia.
Qed.

Lemma fmap_list_insert_at {A B} (f : A → B) (i : nat) (x : A) (l : list A) :
  f <$> list_insert_at i x l = list_insert_at i (f x) (f <$> l).
Proof.
  unfold list_insert_at. by rewrite fmap_app, fmap_cons, fmap_take, fmap_drop.
Qed.

Lemma hof_insert_sorted (hof : ParetoFront) (item : Individual) s :
  hof_sorted hof →
  safe False (hof_insert hof item) s (λ hof' _, hof_sorted hof').
Proof.
  intros [Hmir Hs]. unfold hof_insert, deepcopy, fresh_oid, safe, bind, ret.
  cbn [wvalues]. set (w := wvalues item). set (i := bisect_right (keys hof) w).
  destruct (bisect_right_spec (keys hof) w Hs) as (Hi & Hbefore & Hafter).
  fold i in Hi, Hbefore, Hafter.
  assert (Hlen : length (keys hof) = length (items hof)).
  { by rewrite Hmir, length_reverse, length_fmap. }
  split; cbn [keys items].
  - rewrite fmap_list_insert_at. cbn [wvalues]. fold w.
    rewrite <- (length_fmap wvalues (items hof)), mirror_insert.
    + by rewrite Hmir.
    + rewrite length_fmap. lia.
  - unfold list_insert_at.
    rewrite <- (take_drop i (keys hof)) in Hs.
    apply StronglySorted_app in Hs as (Hcross & Hs1 & Hs2).
    apply StronglySorted_app_2; [|done|].
    + intros x1 x2 Hx1 [->|Hx2]%elem_of_cons.
      * apply list_elem_of_lookup in Hx1 as [j Hj].
        apply lookup_take_Some in Hj as [Hj Hji].
        by apply (Hbefore j).
      * by apply Hcross.
    + apply StronglySorted_cons. split; [|done].
      apply Forall_forall. intros y Hy.
      apply list_elem_of_lookup in Hy as [j Hj].
      rewrite lookup_drop in Hj.
      apply key_lt_asym. apply (Hafter (i + j)); [lia|done].
Qed.

Lemma hof_remove_sorted (hof : ParetoFront) (index : nat) :
  index < length (items hof) → hof_sorted hof →
  hof_sorted (hof_remove hof index).
Proof.
  intros Hi [Hmir Hs]. unfold hof_remove. split; cbn [keys items].
  - rewrite Nat.mod_small by done.
    rewrite list_fmap_delete, mirror_delete by (by rewrite length_fmap).
    by rewrite length_fmap, Hmir.
  - eapply StronglySorted_sublist; [apply sublist_delete|done].
Qed.

Lemma hof_remove_descending (js : list nat) : ∀ hof,
  StronglySorted (flip lt) js →
  Forall (λ j, j < length (items hof)) js →
  hof_sorted hof → hof_sorted (foldl hof_remove hof js).
Proof.
  induction js as [|j js IH]; intros hof Hd Hb Hs; [done|].
  apply StronglySorted_cons in Hd as [Hj Hd].
  apply Forall_cons in Hb as [Hjb Hb]. simpl.
  apply IH; [done| |by apply hof_remove_sorted].
  unfold hof_remove. cbn [items]. rewrite length_delete by
    (by apply lookup_lt_is_Some_2).
  eapply Forall_impl; [exact Hj|]. unfold flip. simpl. intros k Hk. lia.
Qed.

Lemma dominated_positions_ascending ind (hofers : list Individual) : ∀ i,
  Forall (λ j, i ≤ j < i + length hofers) (dominated_positions ind i hofers)
  ∧ StronglySorted lt (dominated_positions ind i hofers).
Proof.
  induction hofers as [|h rest IH]; intros i; simpl;
    [split; constructor|].
  destruct (IH (S i)) as [Hb Hs].
  assert (Hb' : Forall (λ j, i ≤ j < i + S (length rest))
                       (dominated_positions ind (S i) rest)).
  { eapply Forall_impl; [exact Hb|]. simpl. intros j Hj. lia. }
  destruct (key_dominates (wvalues ind) (wvalues h)); [|done].
  split.
  - constructor; [lia|done].
  - apply StronglySorted_cons. split; [|done].
    eapply Forall_impl; [exact Hb|]. simpl. intros j Hj. lia.
Qed.

Lemma StronglySorted_flip_reverse {A} (R : relation A) (l : list A) :
  StronglySorted R l → StronglySorted (flip R) (reverse l).
Proof.
  intros Hs. apply StronglySorted_reverse.
  rewrite reverse_involutive.
  eapply StronglySorted_sublist; [reflexivity|].
  clear -Hs. induction Hs; constructor; done.
Qed.

Lemma matched_covers old new ind :
  covers old new → matched old ind → matched new ind.
Proof.
  intros Hcov (b & Hb & Hm). destruct (Hcov b Hb) as [Hb'|(c & Hc & Hcb)].
  - by exists b.
  - exists c. split; [done|]. left. destruct Hm as [Hd|[_ Hw]].
    + by eapply key_dominates_trans.
    + by rewrite <- Hw.
Qed.

Lemma matched_same hof a b : same_ind a b → matched hof a → matched hof b.
Proof.
  intros (_ & Hg & Hw) (c & Hc & Hm). exists c. split; [done|].
  by rewrite <- Hg, <- Hw.
Qed.

Section ArchiveOrder.
Variable fit : list Z → option (Q * Q).

Lemma hof_update_one_order hof ind s :
  hof_inv fit hof → hof_sorted hof → evaluated fit ind →
  safe False (hof_update_one hof ind) s
       (λ hof' _, hof_sorted hof' ∧ matched hof' ind).
Proof.
  intros (Hev & Hpnd & Hnd) Hsorted Hind. unfold hof_update_one.
  destruct (decide (Exists (λ h, key_dominates (wvalues h) (wvalues ind) = true)
                           (items hof))) as [Hd|Hnd_dom].
  { apply Exists_exists in Hd as (h0 & Hh0 & Hd).
    rewrite hof_scan_dominated; [| eauto | |].
    - simpl. apply safe_ret. split; [done|]. exists h0. auto.
    - intros h Hh. apply not_true_iff_false. intros Hih.
      pose proof (key_dominates_trans _ _ _ Hd Hih) as Hc.
      by rewrite Hpnd in Hc.
    - intros h Hh. apply not_true_iff_false.
      intros [Heq _]%andb_true_iff.
      rewrite (key_dominates_eq_r _ _ _ Heq) in Hd. by rewrite Hpnd in Hd. }
  assert (Hno_dom : ∀ h, h ∈ items hof →
            key_dominates (wvalues h) (wvalues ind) = false).
  { intros h Hh. apply not_true_iff_false. intros Hc. apply Hnd_dom.
    apply Exists_exists. eauto. }
  destruct (decide (Exists (λ h, twin ind h = true) (items hof)))
    as [Ht|Hnt].
  { apply Exists_exists in Ht as (t & Ht & Htw).
    rewrite hof_scan_twin; [| eauto | |done].
    - simpl. apply safe_ret. split; [done|]. exists t. split; [done|].
      right. apply andb_true_iff in Htw as [_ Hsim].
      unfold similar in Hsim. apply bool_decide_eq_true in Hsim.
      split; [done|]. rewrite Forall_forall in Hev.
      specialize (Hev t Ht). unfold evaluated in Hev, Hind.
      by rewrite Hev, Hind, Hsim.
    - intros h Hh. apply not_true_iff_false. intros Hih.
      apply andb_true_iff in Htw as [Heq _].
      rewrite (key_dominates_eq_l _ _ _ Heq) in Hih. by rewrite Hpnd in Hih. }
  assert (Hno_twin : ∀ h, h ∈ items hof → twin ind h = false).
  { intros h Hh. apply not_true_iff_false. intros Hc. apply Hnt.
    apply Exists_exists. eauto. }
  rewrite hof_scan_clean by done. simpl.
  set (hof1 := foldl hof_remove hof
                 (reverse (dominated_positions ind 0 (items hof)))).
  assert (Hs1 : hof_sorted hof1).
  { destruct (dominated_positions_ascending ind (items hof) 0) as [Hb Hs].
    apply hof_remove_descending; [|  |done].
    - by apply StronglySorted_flip_reverse.
    - apply Forall_reverse. eapply Forall_impl; [exact Hb|].
      simpl. intros j Hj. lia. }
  pose proof (hof_insert_sorted hof1 ind s Hs1) as Hins.
  unfold safe in *. unfold hof_insert, deepcopy, fresh_oid, bind, ret in *.
  cbn [wvalues genes] in *. split; [exact Hins|].
  eexists. split.
  - cbn [items]. rewrite list_insert_at_perm. left.
  - right. done.
Qed.

Lemma hof_update_order hof (population : list Individual) s :
  hof_inv fit hof → hof_sorted hof → Forall (evaluated fit) population →
  safe False (hof_update hof population) s
       (λ hof' _, hof_inv fit hof' ∧ covers hof hof'
                  ∧ drawn_from hof population hof'
                  ∧ hof_sorted hof' ∧ Forall (matched hof') population).
Proof.
  intros Hinv Hsorted Hpop. unfold hof_update.
  eapply safe_mono; [|done|].
  - apply (safe_foldM False _ _
             (λ pre hof' _, hof_inv fit hof' ∧ covers hof hof'
                            ∧ drawn_from hof pre hof'
                            ∧ hof_sorted hof' ∧ Forall (matched hof') pre)).
    + intros pre x post hof1 s1 Hxs (Hinv1 & Hcov1 & Hfrom1 & Hs1 & Hm1).
      assert (Hx : evaluated fit x).
      { rewrite Forall_forall in Hpop. apply Hpop. rewrite Hxs.
        apply elem_of_app. right. left. }
      pose proof (hof_update_one_spec fit hof1 x s1 Hinv1 Hx) as H1.
      pose proof (hof_update_one_order hof1 x s1 Hinv1 Hs1 Hx) as H2.
      unfold safe in *.
      destruct (hof_update_one hof1 x s1) as [hof2 s2|e]; [|done].
      destruct H1 as (Hinv2 & Hcov2 & Hfrom2). destruct H2 as [Hs2 Hm2].
      split; [done|]. split; [by eapply covers_trans|].
      split; [by eapply drawn_from_trans|]. split; [done|].
      apply Forall_app. split.
      * eapply Forall_impl; [exact Hm1|]. intros y. by apply matched_covers.
      * by apply Forall_singleton.
    + split; [done|]. split; [apply covers_refl|].
      split; [intros b Hb; by left|]. split; [done|constructor].
  - done.
Qed.
End ArchiveOrder.


(** ** The archive and the population over a run *)

Section ArchiveRun.
Variables fl_volume fl_surface_area : Z → Z → Q.
Local Abbreviation tb := (toolbox fl_volume fl_surface_area).
Local Abbreviation fit_of := (fit_of fl_volume fl_surface_area).
Local Abbreviation good := (good fl_volume fl_surface_area).
Local Abbreviation run_inv := (run_inv fl_volume fl_surface_area).
Local Abbreviation archive_inv := (archive_inv fl_volume fl_surface_area).

Lemma good_is_valid ind : good ind → is_Some (wvalues ind).
Proof.
  intros (Hl & _ & ->). destruct (genes ind) as [|r [|h [|]]]; done.
Qed.

Lemma select_from_pool (pool : list Individual) (mu : Z) s :
  Forall good pool →
  safe False (tb_select tb pool mu) s
       (λ chosen _, Forall (from_pool pool) chosen).
Proof.
  intros Hpool. cbn [tb_select toolbox].
  destruct (selNSGA2_spec pool mu) as (chosen & Hsel & Hfrom & _).
  { eapply Forall_impl; [exact Hpool|]. apply good_is_valid. }
  rewrite Hsel. by apply safe_ret.
Qed.

Lemma generation_archive (mu : Z) (st : list Individual * ParetoFront) s :
  archive_inv mu st →
  safe (mu < 2)%Z (generation tb mu 100 0.7 0.2 st) s
       (λ st' _, archive_inv mu st').
Proof.
  intros (Hinv & Hsorted & Hmatched).
  pose proof (generation_spec fl_volume fl_surface_area mu st s Hinv) as Hgen.
  destruct st as [pop hof]. destruct Hinv as (Hlen & Hpop & Hhof & Hitems).
  simpl in Hlen, Hpop, Hhof, Hitems, Hsorted, Hmatched.
  unfold safe in *. unfold generation, bind in *.
  pose proof (varOr_spec fl_volume fl_surface_area pop 100 s Hpop) as H1.
  unfold safe in H1.
  destruct (varOr pop tb 100 0.7 0.2 s) as [offspring s1|e]; [|done].
  destruct H1 as (Hlen1 & Hoff & Hne).
  pose proof (evaluate_invalid_spec fl_volume fl_surface_area False
                offspring s1 Hoff) as H2.
  unfold safe in H2.
  destruct (evaluate_invalid tb offspring s1) as [offspring' s2|e]; [|done].
  destruct H2 as (Hlen2 & Hoff').
  assert (Hev : Forall (evaluated fit_of) offspring').
  { eapply Forall_impl; [exact Hoff'|]. apply good_evaluated. }
  pose proof (hof_update_order fit_of hof offspring' s2 Hhof Hsorted Hev) as H3.
  unfold safe in H3.
  destruct (hof_update hof offspring' s2) as [hof' s3|e]; [|done].
  destruct H3 as (Hhof' & Hcov & Hfrom & Hsorted' & Hmatched').
  assert (Hpool : Forall good (pop ++ offspring')) by (by apply Forall_app).
  pose proof (select_from_pool (pop ++ offspring') mu s3 Hpool) as H4.
  unfold safe in H4.
  destruct (tb_select tb (pop ++ offspring') mu s3) as [chosen s4|e]; [|done].
  unfold ret in *. destruct Hgen as [Hinv' _].
  split; [done|]. split; [done|]. simpl.
  apply Forall_forall. intros c Hc. rewrite Forall_forall in H4.
  destruct (H4 c Hc) as (p & Hp & Hsame).
  apply (matched_same _ p); [done|].
  apply elem_of_app in Hp as [Hp|Hp].
  - apply (matched_covers hof); [done|].
    rewrite Forall_forall in Hmatched. by apply Hmatched.
  - rewrite Forall_forall in Hmatched'. by apply Hmatched'.
Qed.

Lemma generations_archive (mu : Z) (n : nat) :
  ∀ (st : list Individual * ParetoFront) s,
    archive_inv mu st →
    safe ((mu < 2)%Z ∧ 0 < n) (generations n tb mu 100 0.7 0.2 st) s
         (λ st' _, archive_inv mu st').
Proof.
  induction n as [|n IH]; intros st s Hinv; simpl.
  - by apply safe_ret.
  - apply safe_bind.
    eapply safe_mono; [by apply generation_archive|intros; split; [done|lia]|].
    intros st' s' Hinv'. simpl.
    eapply safe_mono; [by apply IH|intros [? ?]; split; [done|lia]|done].
Qed.

Lemma main_archive (population_size max_generations : Z) s :
  safe ((population_size < 2)%Z ∧ (0 < max_generations)%Z)
       (main fl_volume fl_surface_area population_size max_generations) s
       (λ st _, archive_inv population_size st).
Proof.
  unfold main, eaMuPlusLambda. cbv zeta.
  apply safe_bind.
  eapply safe_mono;
    [apply (population_spec fl_volume fl_surface_area False)|done|].
  intros pop s1 [Hlen Hpop].
  apply safe_bind.
  eapply safe_mono;
    [by apply (evaluate_invalid_spec fl_volume fl_surface_area False)|done|].
  intros pop' s2 [Hlen' Hpop'].
  apply safe_bind.
  eapply safe_mono; [apply (hof_update_order fit_of (mkHof [] []) pop')|done|].
  { apply hof_inv_empty. }
  { split; [done|constructor]. }
  { eapply Forall_impl; [exact Hpop'|]. apply good_evaluated. }
  intros hof s3 (Hhof & _ & Hfrom & Hsorted & Hmatched).
  eapply safe_mono; [apply (generations_archive population_size)| |done].
  - split; [|done]. split; [simpl; lia|]. split; [done|]. split; [done|].
    eapply drawn_from_good; [done|constructor|done].
  - intros [? ?]. split; [done|lia].
Qed.

Lemma matched_not_dominating hof p a :
  hof_inv fit_of hof → matched hof p → a ∈ items hof →
  key_dominates (wvalues p) (wvalues a) = false.
Proof.
  intros (_ & Hpnd & _) (b & Hb & Hm) Ha.
  apply not_true_iff_false. intros Hpa.
  assert (key_dominates (wvalues b) (wvalues a) = true) as Hc.
  { destruct Hm as [Hd|[_ Hw]].
    - by eapply key_dominates_trans.
    - by rewrite Hw. }
  by rewrite Hpnd in Hc.
Qed.
End ArchiveRun.


Section ArchiveShape.
Variables fl_volume fl_surface_area : Z → Z → Q.
Local Abbreviation fit_of := (fit_of fl_volume fl_surface_area).
Local Abbreviation good := (good fl_volume fl_surface_area).

Lemma good_values ind :
  good ind →
  ∃ p, evaluate_fitness fl_volume fl_surface_area (genes ind) = Some p
       ∧ wvalues ind = Some (weighted p).
Proof.
  intros (Hl & _ & Hw). unfold fit_of in Hw.
  destruct (evaluate_fitness fl_volume fl_surface_area (genes ind))
    as [p|] eqn:E.
  - exists p. by rewrite Hw.
  - destruct (genes ind) as [|r [|h [|]]]; done.
Qed.

(** Two members of the archive, in the order of the archive. *)
Lemma archive_descends hof i j a b p q :
  hof_inv fit_of hof → hof_sorted hof → i < j →
  items hof !! i = Some a → items hof !! j = Some b →
  wvalues a = Some (weighted p) → wvalues b = Some (weighted q) →
  descends p q.
Proof.
  intros (_ & Hpnd & _) [Hmir Hs] Hij Ha Hb Hwa Hwb.
  rewrite Hmir in Hs. apply StronglySorted_reverse in Hs.
  assert (Hle : key_leq (wvalues b) (wvalues a)).
  { apply (StronglySorted_lookup _ _ Hs i j); [done| |];
      rewrite list_lookup_fmap; [by rewrite Ha|by rewrite Hb]. }
  pose proof (Hpnd a b (list_elem_of_lookup_2 _ _ _ Ha)
                (list_elem_of_lookup_2 _ _ _ Hb)) as Hab.
  pose proof (Hpnd b a (list_elem_of_lookup_2 _ _ _ Hb)
                (list_elem_of_lookup_2 _ _ _ Ha)) as Hba.
  unfold key_leq in Hle. rewrite Hwa, Hwb in Hle, Hab, Hba.
  simpl in Hle, Hab, Hba.
  apply not_true_iff_false in Hab, Hba.
  rewrite dominates_spec in Hab, Hba.
  destruct p as [vp ap], q as [vq aq].
  unfold weighted, weights, fitness_lt in *. simpl in *.
  unfold descends. simpl.
  destruct (Qeq_bool (vp * 1) (vq * 1)) eqn:E; qprop.
  - right. split; [lra|].
    destruct (Qlt_le_dec aq ap) as [H|H].
    + exfalso. lra.
    + destruct (Qlt_le_dec ap aq) as [H'|H']; [|lra].
      exfalso. apply Hab. split; [lra|]. split; [lra|]. right. lra.
  - assert (vq < vp)%Q as Hv.
    { destruct (Qlt_le_dec vq vp) as [H|H]; [done|].
      exfalso. apply E. lra. }
    left. split; [done|].
    destruct (Qlt_le_dec aq ap) as [H|H]; [done|].
    exfalso. apply Hab. split; [lra|]. split; [lra|]. left. lra.
Qed.

Lemma objective_space_snoc {F} (f g : Z → Z → F) ks its ind x y r h :
  objective_space f g (mkHof ks its) = Some (x, y) →
  genes ind !! 0 = Some r → genes ind !! 1 = Some h →
  objective_space f g (mkHof ks (its ++ [ind]))
  = Some (x ++ [f r h], y ++ [g r h]).
Proof.
  unfold objective_space. cbn [items]. intros H Hr Hh.
  rewrite foldl_app. cbn [foldl]. rewrite H. simpl.
  rewrite Hr. simpl. rewrite Hh. simpl. done.
Qed.

(** The loop of the script on an archive of evaluated individuals. *)
Lemma objective_space_good (hof : ParetoFront) :
  Forall good (items hof) →
  ∃ x y,
    objective_space fl_volume fl_surface_area hof = Some (x, y)
    ∧ length x = length (items hof) ∧ length y = length (items hof)
    ∧ ∀ i ind, items hof !! i = Some ind →
        ∃ xi yi, x !! i = Some xi ∧ y !! i = Some yi
                 ∧ evaluate_fitness fl_volume fl_surface_area (genes ind)
                   = Some (xi, yi)
                 ∧ wvalues ind = Some (weighted (xi, yi)).
Proof.
  destruct hof as [ks its]. cbn [items].
  induction its as [|ind its IH] using rev_ind; intros Hgood.
  - exists [], []. repeat split. intros i ind Hi. done.
  - apply Forall_app in Hgood as [Hits Hind].
    rewrite Forall_singleton in Hind.
    destruct (IH Hits) as (x & y & Hxy & Hlx & Hly & Hpts).
    destruct (good_values ind Hind) as ([xi yi] & Hev & Hw).
    destruct Hind as (Hl & _).
    destruct (genes ind) as [|r [|h [|]]] eqn:Eg; try done.
    simpl in Hev. injection Hev as <- <-.
    exists (x ++ [fl_volume r h]), (y ++ [fl_surface_area r h]).
    split.
    { apply objective_space_snoc; [done| |]; by rewrite Eg. }
    rewrite !length_app. simpl. split; [lia|]. split; [lia|].
    intros i a Hi.
    destruct (decide (i < length its)) as [Hlt|Hge].
    + rewrite lookup_app_l in Hi by done.
      destruct (Hpts i a Hi) as (xi & yi & Hx & Hy & Ha).
      exists xi, yi. rewrite !lookup_app_l by lia. done.
    + rewrite lookup_app_r in Hi by lia.
      destruct (i - length its) as [|k] eqn:Ek; [|done].
      simpl in Hi. injection Hi as <-.
      exists (fl_volume r h), (fl_surface_area r h).
      assert (i = length its) as -> by lia.
      rewrite <- Hlx at 1. rewrite <- Hly at 1.
      rewrite !list_lookup_middle by done. rewrite Eg. done.
Qed.
End ArchiveShape.

(** X7: every individual that [main] returns, in the population or in the
    archive, has two genes and a valid fitness, and the fitness is the one
    [evaluate_fitness] gives for its current genes. *)
Theorem main_fitness_current (fl_volume fl_surface_area : Z → Z → Q)
    (population_size max_generations : Z) (s : State) :
  match main fl_volume fl_surface_area population_size max_generations s with
  | Ok (pop, hof) _ =>
      Forall (λ ind,
                length (genes ind) = 2
                ∧ ∃ p, evaluate_fitness fl_volume fl_surface_area (genes ind)
                       = Some p
                       ∧ wvalues ind = Some (weighted p))
             (pop ++ items hof)
  | Raise _ => (population_size < 2)%Z
  end.
Proof.
  pose proof (main_spec fl_volume fl_surface_area population_size
                max_generations s) as H.
  unfold safe in H.
  destruct (main _ _ _ _ s) as [[pop hof] s'|e]; [|by destruct H].
  destruct H as (_ & Hpop & _ & Hitems). simpl in Hpop, Hitems.
  apply Forall_app. split.
  - eapply Forall_impl; [exact Hpop|]. intros ind Hind.
    split; [by destruct Hind|]. by apply good_values.
  - eapply Forall_impl; [exact Hitems|]. intros ind Hind.
    split; [by destruct Hind|]. by apply good_values.
Qed.

(** X8: the archive that [main] returns accounts for the whole final
    population: every individual of the population is dominated by a member
    of the archive or has the genes and fitness of one; no individual of
    the population dominates a member; and the archive is not empty unless
    the population is. *)
Theorem archive_covers_population (fl_volume fl_surface_area : Z → Z → Q)
    (population_size max_generations : Z) (s : State) :
  match main fl_volume fl_surface_area population_size max_generations s with
  | Ok (pop, hof) _ =>
      Forall (matched hof) pop
      ∧ (∀ p a, p ∈ pop → a ∈ items hof →
           key_dominates (wvalues p) (wvalues a) = false)
      ∧ (pop ≠ [] → items hof ≠ [])
  | Raise _ => (population_size < 2)%Z
  end.
Proof.
  pose proof (main_archive fl_volume fl_surface_area population_size
                max_generations s) as H.
  unfold safe in H.
  destruct (main _ _ _ _ s) as [[pop hof] s'|e]; [|by destruct H].
  destruct H as ((_ & _ & Hhof & _) & _ & Hm). simpl in Hhof, Hm.
  split; [done|]. split.
  - intros p a Hp Ha. rewrite Forall_forall in Hm.
    apply (matched_not_dominating fl_volume fl_surface_area hof);
      [done|by apply Hm|done].
  - intros Hne Hnil. destruct pop as [|p pop]; [done|].
    apply Forall_cons in Hm as [(b & Hb & _) _].
    rewrite Hnil in Hb. by apply elem_of_nil in Hb.
Qed.

(** X9: the archive that [main] returns is kept in order: its keys are the
    fitnesses of its items in reverse, and along the items volume and
    surface area both descend, a later member having less of both than an
    earlier one or exactly as much of both. *)
Theorem archive_in_order (fl_volume fl_surface_area : Z → Z → Q)
    (population_size max_generations : Z) (s : State) :
  match main fl_volume fl_surface_area population_size max_generations s with
  | Ok (_, hof) _ =>
      keys hof = reverse (wvalues <$> items hof)
      ∧ ∀ i j a b, i < j →
          items hof !! i = Some a → items hof !! j = Some b →
          ∃ p q,
            evaluate_fitness fl_volume fl_surface_area (genes a) = Some p
            ∧ evaluate_fitness fl_volume fl_surface_area (genes b) = Some q
            ∧ descends p q
  | Raise _ => (population_size < 2)%Z
  end.
Proof.
  pose proof (main_archive fl_volume fl_surface_area population_size
                max_generations s) as H.
  unfold safe in H.
  destruct (main _ _ _ _ s) as [[pop hof] s'|e]; [|by destruct H].
  destruct H as ((_ & _ & Hhof & Hitems) & Hsorted & _).
  simpl in Hhof, Hitems, Hsorted.
  split; [by destruct Hsorted|].
  intros i j a b Hij Ha Hb. rewrite Forall_forall in Hitems.
  destruct (good_values fl_volume fl_surface_area a) as (p & Hp & Hwa).
  { apply Hitems. by eapply list_elem_of_lookup_2. }
  destruct (good_values fl_volume fl_surface_area b) as (q & Hq & Hwb).
  { apply Hitems. by eapply list_elem_of_lookup_2. }
  exists p, q. split; [done|]. split; [done|].
  by eapply archive_descends.
Qed.

Lemma plots_front (fl_volume fl_surface_area : Z → Z → Q)
    (population_size max_generations : Z) (s : State) :
  (2 ≤ population_size)%Z →
  ∃ pop hof x y s',
    main fl_volume fl_surface_area population_size max_generations s
    = Ok (pop, hof) s'
    ∧ bind (main fl_volume fl_surface_area population_size max_generations)
           (λ r, match r with
                 | (pop, hof) =>
                     liftE IndexError
                       (objective_space fl_volume fl_surface_area hof)
                 end) s
      = Ok (x, y) s'
    ∧ length x = length (items hof) ∧ length y = length (items hof)
    ∧ 0 < length x
    ∧ (∀ i ind, items hof !! i = Some ind →
         ∃ xi yi, x !! i = Some xi ∧ y !! i = Some yi
                  ∧ evaluate_fitness fl_volume fl_surface_area (genes ind)
                    = Some (xi, yi))
    ∧ ∀ i j xi yi xj yj, i < j →
        x !! i = Some xi → y !! i = Some yi →
        x !! j = Some xj → y !! j = Some yj →
        descends (xi, yi) (xj, yj).
Proof.
  intros Hsize.
  pose proof (main_archive fl_volume fl_surface_area population_size
                max_generations s) as H.
  unfold safe in H. unfold bind.
  destruct (main _ _ _ _ s) as [[pop hof] s'|e]; [|destruct H; lia].
  destruct H as ((Hlen & _ & Hhof & Hitems) & Hsorted & Hm).
  simpl in Hlen, Hhof, Hitems, Hsorted, Hm.
  destruct (objective_space_good fl_volume fl_surface_area hof Hitems)
    as (x & y & Hxy & Hlx & Hly & Hpts).
  rewrite Hxy. exists pop, hof, x, y, s'.
  split; [done|]. split; [done|]. split; [done|]. split; [done|].
  split; [|split].
  - rewrite Hlx. destruct pop as [|p pop]; [simpl in Hlen; lia|].
    apply Forall_cons in Hm as [(b & Hb & _) _].
    destruct (items hof); [by apply elem_of_nil in Hb|simpl; lia].
  - intros i ind Hi. destruct (Hpts i ind Hi) as (xi & yi & ? & ? & ? & _).
    by exists xi, yi.
  - intros i j xi yi xj yj Hij Hxi Hyi Hxj Hyj.
    destruct (items hof !! i) as [a|] eqn:Ea.
    2:{ apply lookup_ge_None in Ea. apply lookup_lt_Some in Hxi. lia. }
    destruct (items hof !! j) as [b|] eqn:Eb.
    2:{ apply lookup_ge_None in Eb. apply lookup_lt_Some in Hxj. lia. }
    destruct (Hpts i a Ea) as (xi' & yi' & Hxi' & Hyi' & _ & Hwa).
    destruct (Hpts j b Eb) as (xj' & yj' & Hxj' & Hyj' & _ & Hwb).
    assert (xi' = xi) as -> by congruence.
    assert (yi' = yi) as -> by congruence.
    assert (xj' = xj) as -> by congruence.
    assert (yj' = yj) as -> by congruence.
    by eapply archive_descends.
Qed.

(** X10: the script never raises.  The two lists it plots have the length
    of the archive that [main] returned and are not empty; they hold,
    member by member and in the order of the archive, the volume and the
    surface area of the members; and along them both values descend
    together. *)
Theorem script_plots_front (fl_volume fl_surface_area : Z → Z → Q)
    (s : State) :
  ∃ pop hof x y s',
    main fl_volume fl_surface_area 500 200 s = Ok (pop, hof) s'
    ∧ script fl_volume fl_surface_area s = Ok (x, y) s'
    ∧ length x = length (items hof) ∧ length y = length (items hof)
    ∧ 0 < length x
    ∧ (∀ i ind, items hof !! i = Some ind →
         ∃ xi yi, x !! i = Some xi ∧ y !! i = Some yi
                  ∧ evaluate_fitness fl_volume fl_surface_area (genes ind)
                    = Some (xi, yi))
    ∧ ∀ i j xi yi xj yj, i < j →
        x !! i = Some xi → y !! i = Some yi →
        x !! j = Some xj → y !! j = Some yj →
        descends (xi, yi) (xj, yj).
Proof.
  unfold script.
  exact (plots_front fl_volume fl_surface_area 500 200 s ltac:(lia)).
Qed.

(** ** What crossover contributes to a generation *)

Lemma mate_first_child (a b : Individual) s :
  length (genes a) = 2 → length (genes b) = 2 →
  safe True (mate a b) s
       (λ c s', genes c.1 = genes b
                ∧ trace s' = trace s ++ [Mated (oid a) (oid b)]).
Proof.
  intros Ha Hb. unfold mate, safe, bind, log.
  destruct (genes a) as [|r1 [|h1 [|]]] eqn:Ea; try done.
  destruct (genes b) as [|r2 [|h2 [|]]] eqn:Eb; try done.
Qed.

Section CrossoverCopies.
Variables fl_volume fl_surface_area : Z → Z → Q.
Variable population : list Individual.
Variable s : State.
Hypothesis two_genes : Forall (λ p, length (genes p) = 2) population.
Local Abbreviation tb := (toolbox fl_volume fl_surface_area).

Lemma varOr_copies (lambda_ : Z) :
  safe True (varOr population tb lambda_ 0.7 0.2) s
       (λ offspring s',
          ∃ evs, trace s' = trace s ++ evs
                 ∧ Forall (λ child, Mutated (oid child) ∈ evs
                                    ∨ copies_parent population child)
                          offspring).
Proof.
  unfold varOr. change (Qle_bool (0.7 + 0.2) 1) with true. cbv iota.
  apply (safe_foldM True _ _
           (λ _ offspring st,
              ∃ evs, trace st = trace s ++ evs
                     ∧ Forall (λ child, Mutated (oid child) ∈ evs
                                        ∨ copies_parent population child)
                              offspring)).
  2:{ exists []. by rewrite app_nil_r. }
  intros pre i post offspring s0 _ (evs & Ht & Hoff).
  assert (Hin : ∀ p, p ∈ population → length (genes p) = 2)
    by (by apply Forall_forall).
  assert (Hkeep : ∀ e, Forall (λ child, Mutated (oid child) ∈ evs ++ [e]
                                        ∨ copies_parent population child)
                              offspring).
  { intros e. eapply Forall_impl; [exact Hoff|]. intros c [Hc|Hc]; [left|by right].
    apply elem_of_app. by left. }
  apply safe_bind. eapply safe_mono; [apply (random_random_quiet True)|done|].
  intros op_choice s1 [_ [_ Hq1]].
  destruct (Qltb op_choice 0.7); [|destruct (Qltb op_choice (0.7 + 0.2))].
  - apply safe_bind. eapply safe_mono; [apply random_sample2_quiet|done|].
    intros [p1 p2] s2 (Hp1 & Hp2 & [_ Hq2]). simpl in Hp1, Hp2.
    apply safe_bind. eapply safe_mono; [apply (deepcopy_spec True)|done|].
    intros c1 s3 (Hg1 & _ & _ & _ & Ht3). simpl.
    apply safe_bind. eapply safe_mono; [apply (deepcopy_spec True)|done|].
    intros c2 s4 (Hg2 & _ & _ & _ & Ht4). simpl.
    apply safe_bind.
    eapply safe_mono; [apply mate_first_child|done|].
    { rewrite Hg1. by apply Hin. }
    { rewrite Hg2. by apply Hin. }
    intros [ch1 ch2] s5 (Hg & Ht5). simpl in Hg.
    apply safe_ret. exists (evs ++ [Mated (oid c1) (oid c2)]).
    split; [by rewrite Ht5, Ht4, Ht3, Hq2, Hq1, Ht, <- app_assoc|].
    apply Forall_app. split; [apply Hkeep|].
    apply Forall_singleton. right. exists p2. split; [done|].
    simpl. by rewrite Hg, Hg2.
  - apply safe_bind. eapply safe_mono; [apply random_choice_quiet|done|].
    intros p s2 (Hp & [_ Hq2]).
    apply safe_bind. eapply safe_mono; [apply (deepcopy_spec True)|done|].
    intros c s3 (_ & _ & _ & _ & Ht3). simpl.
    apply safe_bind. eapply safe_mono; [apply mutate_trace|done|].
    intros c' s4 (Ht4 & _ & Hoc).
    apply safe_ret. exists (evs ++ [Mutated (oid c)]).
    split; [by rewrite Ht4, Ht3, Hq2, Hq1, Ht, <- app_assoc|].
    apply Forall_app. split; [apply Hkeep|].
    apply Forall_singleton. left. simpl. rewrite Hoc.
    apply elem_of_app. right. left.
  - apply safe_bind. eapply safe_mono; [apply random_choice_quiet|done|].
    intros p s2 (Hp & [_ Hq2]).
    apply safe_ret. exists evs. split; [by rewrite Hq2, Hq1|].
    apply Forall_app. split; [done|].
    apply Forall_singleton. right. by exists p.
Qed.
End CrossoverCopies.

(** X11: in a generation of [main], new decision vectors come from mutation
    only.  On a population of individuals with two genes, every offspring
    of [varOr] was mutated in this call or carries, unchanged, the decision
    vector of a member of the population. *)
Theorem offspring_mutated_or_copies (fl_volume fl_surface_area : Z → Z → Q)
    (population : list Individual) (lambda_ : Z) (s : State)
    (offspring : list Individual) (s' : State) :
  Forall (λ p, length (genes p) = 2) population →
  varOr population (toolbox fl_volume fl_surface_area) lambda_ 0.7 0.2 s
    = Ok offspring s' →
  ∃ evs,
    trace s' = trace s ++ evs
    ∧ Forall (λ child, Mutated (oid child) ∈ evs
                       ∨ copies_parent population child) offspring.
Proof.
  intros Hpop Hrun.
  pose proof (varOr_copies fl_volume fl_surface_area population s Hpop
                lambda_) as H.
  by apply (safe_Ok _ _ _ _ _ _ H) in Hrun.
Qed.

Lemma offspring_mutated_or_copies_witness :
  match varOr demo_parents (toolbox demo_volume demo_surface_area)
              6 0.7 0.2 mixed_draws with
  | Ok offspring s' =>
      ∃ evs,
        trace s' = trace mixed_draws ++ evs
        ∧ Forall (λ child, Mutated (oid child) ∈ evs
                           ∨ copies_parent demo_parents child) offspring
  | Raise _ => False
  end.
Proof.
  assert (Hp : Forall (λ p, length (genes p) = 2) demo_parents).
  { repeat constructor. }
  destruct (varOr demo_parents (toolbox demo_volume demo_surface_area)
                  6 0.7 0.2 mixed_draws) as [offspring s'|e] eqn:E.
  - exact (offspring_mutated_or_copies _ _ _ _ _ _ _ Hp E).
  - vm_compute in E. discriminate E.
Defined.

(** ** Dominance *)

(** X12: with the weights (1.0, -1.0), fitness dominance is a strict
    partial order, and fitnesses that compare equal are interchangeable in
    it. *)
Theorem dominates_strict_order :
  (∀ x, dominates x x = false)
  ∧ (∀ x y, dominates x y = true → dominates y x = false)
  ∧ (∀ x y z, dominates x y = true → dominates y z = true →
              dominates x z = true)
  ∧ (∀ x x' y, fitness_eq x x' = true →
               dominates x y = dominates x' y
               ∧ dominates y x = dominates y x').
Proof.
  split; [|split; [|split]].
  - intros x. apply (key_dominates_irrefl (Some x)).
  - intros x y. apply (key_dominates_asym (Some x) (Some y)).
  - intros x y z. apply (key_dominates_trans (Some x) (Some y) (Some z)).
  - intros x x' y Heq. split.
    + apply (key_dominates_eq_l (Some x) (Some x') (Some y) Heq).
    + apply (key_dominates_eq_r (Some y) (Some x) (Some x') Heq).
Qed.

(** ** Updating the archive twice *)

Section ArchiveTwice.
Variable fit : list Z → option (Q * Q).

Lemma hof_update_one_matched hof ind s :
  hof_inv fit hof → evaluated fit ind → matched hof ind →
  hof_update_one hof ind s = Ok hof s.
Proof.
  intros (Hev & Hpnd & Hnd) Hind (b & Hb & Hm). unfold hof_update_one.
  assert (Hno : ∀ h, h ∈ items hof →
            key_dominates (wvalues ind) (wvalues h) = false).
  { intros h Hh. apply not_true_iff_false. intros Hih.
    assert (key_dominates (wvalues b) (wvalues h) = true) as Hc.
    { destruct Hm as [Hd|[_ Hw]].
      - by eapply key_dominates_trans.
      - by rewrite Hw. }
    by rewrite Hpnd in Hc. }
  destruct (decide (Exists (λ h, key_dominates (wvalues h) (wvalues ind) = true)
                           (items hof))) as [Hd|Hnd_dom].
  - apply Exists_exists in Hd as (h0 & Hh0 & Hd).
    rewrite hof_scan_dominated; [done|eauto|done|].
    intros h Hh. apply not_true_iff_false.
    intros [Heq _]%andb_true_iff.
    rewrite (key_dominates_eq_r _ _ _ Heq) in Hd. by rewrite Hpnd in Hd.
  - assert (Hno_dom : ∀ h, h ∈ items hof →
              key_dominates (wvalues h) (wvalues ind) = false).
    { intros h Hh. apply not_true_iff_false. intros Hc. apply Hnd_dom.
      apply Exists_exists. eauto. }
    destruct Hm as [Hd|[Hg Hw]]; [by rewrite Hno_dom in Hd|].
    rewrite hof_scan_twin; [done| |done|done].
    exists b. split; [done|]. unfold twin, similar.
    rewrite Hw, key_eq_refl. simpl. by apply bool_decide_eq_true.
Qed.

Lemma hof_update_matched hof (population : list Individual) : ∀ s,
  hof_inv fit hof → Forall (evaluated fit) population →
  Forall (matched hof) population →
  hof_update hof population s = Ok hof s.
Proof.
  unfold hof_update.
  induction population as [|ind l IH]; intros s Hinv Hev Hm; [done|].
  apply Forall_cons in Hev as [Hind Hev]. apply Forall_cons in Hm as [Hmi Hm].
  cbn [foldM]. unfold bind at 1.
  rewrite hof_update_one_matched by done. by apply IH.
Qed.
End ArchiveTwice.

(** X13: updating the archive is idempotent.  After an update with a list
    of evaluated individuals, a second update with the same list changes
    neither the archive nor the state; more generally, an update with
    individuals that the archive already dominates or holds changes
    nothing. *)
Theorem hof_update_idempotent (fit : list Z → option (Q * Q))
    (hof hof' : ParetoFront) (population : list Individual) (s s' : State) :
  hof_inv fit hof → hof_sorted hof → Forall (evaluated fit) population →
  hof_update hof population s = Ok hof' s' →
  hof_update hof' population s' = Ok hof' s'
  ∧ ∀ others s'',
      Forall (evaluated fit) others → Forall (matched hof') others →
      hof_update hof' others s'' = Ok hof' s''.
Proof.
  intros Hinv Hsorted Hev Hrun.
  pose proof (hof_update_order fit hof population s Hinv Hsorted Hev) as H.
  apply (safe_Ok _ _ _ _ _ _ H) in Hrun.
  destruct Hrun as (Hinv' & _ & _ & _ & Hm).
  split; [by apply (hof_update_matched fit)|].
  intros others s'' Ho Hmo. by apply (hof_update_matched fit).
Qed.

Lemma hof_update_idempotent_witness :
  match hof_update (mkHof [] []) demo_evaluated zero_draws with
  | Ok hof' s' =>
      hof_update hof' demo_evaluated s' = Ok hof' s'
      ∧ ∀ others s'',
          Forall (evaluated (fit_of demo_volume demo_surface_area)) others →
          Forall (matched hof') others →
          hof_update hof' others s'' = Ok hof' s''
  | Raise _ => False
  end.
Proof.
  assert (H1 : hof_inv (fit_of demo_volume demo_surface_area) (mkHof [] [])).
  { split; [constructor|]. split; [|constructor].
    intros a b Ha. inversion Ha. }
  assert (H2 : hof_sorted (mkHof [] [])).
  { split; [reflexivity|constructor]. }
  assert (H3 : Forall (evaluated (fit_of demo_volume demo_surface_area))
                      demo_evaluated).
  { repeat constructor. }
  destruct (hof_update (mkHof [] []) demo_evaluated zero_draws)
    as [hof' s'|e] eqn:E.
  - exact (hof_update_idempotent _ _ _ _ _ _ H1 H2 H3 E).
  - vm_compute in E. discriminate E.
Defined.

(** ** The exceptions of a run *)

Lemma raises_only_ok {A} E (m : M A) s (Q : A → State → Prop) :
  safe False m s Q → raises_only E m s.
Proof. unfold safe, raises_only. by destruct (m s). Qed.

Lemma raises_only_bind {A B} E (m : M A) (k : A → M B) s :
  raises_only E m s →
  (∀ a s', m s = Ok a s' → raises_only E (k a) s') →
  raises_only E (bind m k) s.
Proof.
  unfold raises_only, bind. destruct (m s) as [a s'|e]; [|done].
  intros _ H. by apply H.
Qed.

Lemma raises_only_foldM {A B} E (body : B → A → M B) (xs : list A) :
  (∀ acc x s, raises_only E (body acc x) s) →
  ∀ acc s, raises_only E (foldM body acc xs) s.
Proof.
  intros Hbody. induction xs as [|x xs IH]; intros acc s; [done|].
  cbn [foldM]. apply raises_only_bind; [apply Hbody|].
  intros acc' s' _. apply IH.
Qed.

Lemma raises_only_sample2 {A} (l : list A) s :
  raises_only (λ e, e = ValueError ∧ length l < 2) (random_sample2 l) s.
Proof.
  destruct (decide (length l < 2)) as [Hlt|Hge].
  - unfold raises_only, random_sample2. cbv zeta.
    apply Nat.ltb_lt in Hlt as Hb. rewrite Hb. done.
  - apply (raises_only_ok _ _ _ (λ p _, p.1 ∈ l ∧ p.2 ∈ l)).
    by apply random_sample2_spec.
Qed.

Section RunErrors.
Variables fl_volume fl_surface_area : Z → Z → Q.
Local Abbreviation tb := (toolbox fl_volume fl_surface_area).
Local Abbreviation good := (good fl_volume fl_surface_area).
Local Abbreviation run_inv := (run_inv fl_volume fl_surface_area).

Lemma varOr_raises (population : list Individual) (lambda_ : Z) s :
  Forall good population → population ≠ [] →
  raises_only (λ e, e = ValueError ∧ length population < 2)
              (varOr population tb lambda_ 0.7 0.2) s.
Proof.
  intros Hpop Hne. unfold varOr.
  change (Qle_bool (0.7 + 0.2) 1) with true. cbv iota.
  assert (Hin : ∀ p, p ∈ population → good p) by (by apply Forall_forall).
  apply raises_only_foldM. clear s. intros offspring _ s.
  apply raises_only_bind; [done|]. intros op_choice s1 _.
  destruct (Qltb op_choice 0.7); [|destruct (Qltb op_choice (0.7 + 0.2))].
  - apply raises_only_bind; [apply raises_only_sample2|].
    intros [p1 p2] s2 Hs.
    pose proof (random_sample2_spec True population s1 (λ _, I)) as Hmem.
    apply (safe_Ok _ _ _ _ _ _ Hmem) in Hs as [Hp1 Hp2].
    simpl in Hp1, Hp2.
    destruct (Hin p1 Hp1) as (Hl1 & Hb1 & _).
    destruct (Hin p2 Hp2) as (Hl2 & Hb2 & _).
    apply raises_only_bind; [done|]. intros c1 s3 [= <- _].
    apply raises_only_bind; [done|]. intros c2 s4 [= <- _].
    apply raises_only_bind; [|by intros [ch1 ch2] s5 _].
    eapply raises_only_ok. by apply (mate_spec False).
  - apply raises_only_bind.
    { eapply raises_only_ok. by apply (random_choice_spec False). }
    intros p s2 Hs.
    pose proof (random_choice_spec True population s1 (λ _, I)) as Hmem.
    apply (safe_Ok _ _ _ _ _ _ Hmem) in Hs.
    destruct (Hin p Hs) as (Hl & Hb & _).
    apply raises_only_bind; [done|]. intros c s3 [= <- _].
    apply raises_only_bind; [|done].
    eapply raises_only_ok. by apply (mutate_spec False).
  - apply raises_only_bind; [|done].
    eapply raises_only_ok. by apply (random_choice_spec False).
Qed.

Lemma generation_raises (mu : Z) (st : list Individual * ParetoFront) s :
  (1 ≤ mu)%Z → run_inv mu st →
  raises_only (λ e, e = ValueError ∧ mu = 1%Z)
              (generation tb mu 100 0.7 0.2 st) s.
Proof.
  intros Hmu Hinv. destruct st as [pop hof].
  destruct Hinv as (Hlen & Hpop & Hhof & Hitems).
  simpl in Hlen, Hpop, Hhof, Hitems. unfold generation.
  assert (Hne : pop ≠ []).
  { intros ->. simpl in Hlen. lia. }
  apply raises_only_bind.
  { pose proof (varOr_raises pop 100 s Hpop Hne) as H.
    unfold raises_only in *. destruct (varOr _ _ _ _ _ s); [done|].
    destruct H as [-> Hlt]. split; [done|]. lia. }
  intros offspring s1 Hs1.
  pose proof (varOr_spec fl_volume fl_surface_area pop 100 s Hpop) as H1.
  apply (safe_Ok _ _ _ _ _ _ H1) in Hs1 as (_ & Hoff & _).
  apply raises_only_bind.
  { eapply raises_only_ok.
    by apply (evaluate_invalid_spec fl_volume fl_surface_area False). }
  intros offspring' s2 Hs2.
  pose proof (evaluate_invalid_spec fl_volume fl_surface_area False
                offspring s1 Hoff) as H2.
  apply (safe_Ok _ _ _ _ _ _ H2) in Hs2 as (_ & Hoff').
  apply raises_only_bind.
  { eapply raises_only_ok.
    apply (hof_update_spec (fit_of fl_volume fl_surface_area) hof offspring');
      [done|].
    eapply Forall_impl; [exact Hoff'|]. apply good_evaluated. }
  intros hof' s3 _.
  apply raises_only_bind; [|done].
  eapply raises_only_ok.
  apply (select_spec fl_volume fl_surface_area False (pop ++ offspring') mu).
  by apply Forall_app.
Qed.

Lemma generations_raises (mu : Z) (n : nat) :
  ∀ (st : list Individual * ParetoFront) s,
    (1 ≤ mu)%Z → run_inv mu st →
    raises_only (λ e, e = ValueError ∧ mu = 1%Z)
                (generations n tb mu 100 0.7 0.2 st) s.
Proof.
  induction n as [|n IH]; intros st s Hmu Hinv; [done|].
  cbn [generations]. apply raises_only_bind; [by apply generation_raises|].
  intros st' s' Hs.
  pose proof (generation_spec fl_volume fl_surface_area mu st s Hinv) as H.
  apply (safe_Ok _ _ _ _ _ _ H) in Hs as [Hinv' _].
  by apply IH.
Qed.

Lemma main_raises (population_size max_generations : Z) s :
  (1 ≤ population_size)%Z →
  raises_only (λ e, e = ValueError ∧ population_size = 1%Z)
              (main fl_volume fl_surface_area population_size
                    max_generations) s.
Proof.
  intros Hmu. unfold main, eaMuPlusLambda. cbv zeta.
  apply raises_only_bind.
  { eapply raises_only_ok.
    apply (population_spec fl_volume fl_surface_area False). }
  intros pop s1 Hs1.
  pose proof (population_spec fl_volume fl_surface_area False
                population_size s) as H1.
  apply (safe_Ok _ _ _ _ _ _ H1) in Hs1 as [Hlen Hpop].
  apply raises_only_bind.
  { eapply raises_only_ok.
    by apply (evaluate_invalid_spec fl_volume fl_surface_area False). }
  intros pop' s2 Hs2.
  pose proof (evaluate_invalid_spec fl_volume fl_surface_area False
                pop s1 Hpop) as H2.
  apply (safe_Ok _ _ _ _ _ _ H2) in Hs2 as [Hlen' Hpop'].
  assert (Hev : Forall (evaluated (fit_of fl_volume fl_surface_area)) pop').
  { eapply Forall_impl; [exact Hpop'|]. apply good_evaluated. }
  apply raises_only_bind.
  { eapply raises_only_ok.
    apply (hof_update_spec (fit_of fl_volume fl_surface_area)
             (mkHof [] []) pop'); [|done].
    apply hof_inv_empty. }
  intros hof s3 Hs3.
  pose proof (hof_update_spec (fit_of fl_volume fl_surface_area)
                (mkHof [] []) pop' s2
                (hof_inv_empty fl_volume fl_surface_area) Hev) as H3.
  apply (safe_Ok _ _ _ _ _ _ H3) in Hs3 as (Hhof & _ & Hfrom).
  apply generations_raises; [done|].
  split; [simpl; lia|]. split; [done|]. split; [done|].
  eapply drawn_from_good; [done|constructor|done].
Qed.
End RunErrors.

(** X14: with at least one individual, the only exception [main] can raise
    is the ValueError of [random.sample] on a population of one, and only
    when a generation is run; no IndexError escapes. *)
Theorem main_raises_only_value_error
    (fl_volume fl_surface_area : Z → Z → Q)
    (population_size max_generations : Z) (s : State) :
  (1 ≤ population_size)%Z →
  match main fl_volume fl_surface_area population_size max_generations s with
  | Ok _ _ => True
  | Raise e =>
      e = ValueError ∧ population_size = 1%Z ∧ (0 < max_generations)%Z
  end.
Proof.
  intros Hmu.
  pose proof (main_raises fl_volume fl_surface_area population_size
                max_generations s Hmu) as H1.
  pose proof (main_spec fl_volume fl_surface_area population_size
                max_generations s) as H2.
  unfold raises_only in H1. unfold safe in H2.
  destruct (main _ _ _ _ s) as [[pop hof] s'|e]; [done|].
  destruct H1 as [-> ->]. destruct H2 as [_ Hg]. done.
Qed.

Lemma main_raises_only_value_error_witness :
  main demo_volume demo_surface_area 1 1 zero_draws = Raise ValueError.
Proof.
  pose proof (main_raises_only_value_error demo_volume demo_surface_area
                1 1 zero_draws ltac:(lia)) as H.
  destruct (main demo_volume demo_surface_area 1 1 zero_draws)
    as [[pop hof] s'|e] eqn:E.
  - clear H. vm_compute in E. discriminate E.
  - destruct H as (-> & _). reflexivity.
Defined.

(** ** The size of the archive *)

Lemma decision_vectors_complete (g : list Z) :
  length g = 2 → in_bounds g → g ∈ decision_vectors.
Proof.
  intros Hl Hb. destruct g as [|r [|h [|]]]; try done.
  apply Forall_cons in Hb as [Hr Hb]. apply Forall_cons in Hb as [Hh _].
  unfold decision_vectors. unfold MAX_ATTRIBUTE_SIZE in *.
  apply list_elem_of_bind. exists r. split; [|apply elem_of_seqZ; lia].
  apply list_elem_of_bind. exists h. split; [|apply elem_of_seqZ; lia].
  left.
Qed.

(** X15: the archive that [main] returns never holds more than 625
    members, one per decision vector within the bounds, however many
    generations are run. *)
Theorem archive_size_bounded (fl_volume fl_surface_area : Z → Z → Q)
    (population_size max_generations : Z) (s : State) :
  match main fl_volume fl_surface_area population_size max_generations s with
  | Ok (_, hof) _ =>
      length (items hof) ≤ 625
      ∧ ∀ ind, ind ∈ items hof → genes ind ∈ decision_vectors
  | Raise _ => (population_size < 2)%Z
  end.
Proof.
  pose proof (main_spec fl_volume fl_surface_area population_size
                max_generations s) as H.
  unfold safe in H.
  destruct (main _ _ _ _ s) as [[pop hof] s'|e]; [|by destruct H].
  destruct H as (_ & _ & (_ & _ & Hnd) & Hitems). simpl in Hnd, Hitems.
  assert (Hin : ∀ ind, ind ∈ items hof → genes ind ∈ decision_vectors).
  { intros ind Hind. rewrite Forall_forall in Hitems.
    destruct (Hitems ind Hind) as (Hl & Hb & _).
    by apply decision_vectors_complete. }
  split; [|done].
  assert (Hsub : genes <$> items hof ⊆+ decision_vectors).
  { apply NoDup_submseteq; [done|].
    intros g (ind & -> & Hind)%list_elem_of_fmap. by apply Hin. }
  apply submseteq_length in Hsub. rewrite length_fmap in Hsub.
  assert (length decision_vectors = 625) as Hlen by (by vm_compute).
  lia.
Qed.

(** ** The first front of [sortNondominated] *)

Section FirstFront.
Variable m : nat.
Variable D : nat → nat → bool.
Hypothesis D_asym : ∀ i j, D i j = true → D j i = false.

(** The body of the inner loop adds the edge of the pair it compares and
    keeps the edges that are there. *)
Lemma rank_pair_edges i j c d c' d' :
  rank_pair D i (c, d) j = (c', d') →
  (∀ y x, x ∈ d y → x ∈ d' y)
  ∧ (D i j = true → j ∈ d' i)
  ∧ (D j i = true → i ∈ d' j).
Proof.
  unfold rank_pair. intros Hrun.
  destruct (D i j) eqn:Hij; [|destruct (D j i) eqn:Hji];
    inversion Hrun; subst; clear Hrun.
  - split; [|split].
    + intros y x Hx. destruct (decide (i = y)) as [->|Hne].
      * rewrite fn_lookup_insert. apply elem_of_app. by left.
      * by rewrite fn_lookup_insert_ne.
    + intros _. rewrite fn_lookup_insert. apply elem_of_app. right. left.
    + intros Hji. by rewrite (D_asym _ _ Hij) in Hji.
  - split; [|split].
    + intros y x Hx. destruct (decide (j = y)) as [->|Hne].
      * rewrite fn_lookup_insert. apply elem_of_app. by left.
      * by rewrite fn_lookup_insert_ne.
    + done.
    + intros _. rewrite fn_lookup_insert. apply elem_of_app. right. left.
  - done.
Qed.

Lemma rank_pairs_edges i js : ∀ c d c' d',
  foldl (rank_pair D i) (c, d) js = (c', d') →
  (∀ y x, x ∈ d y → x ∈ d' y)
  ∧ (∀ j, j ∈ js → (D i j = true → j ∈ d' i) ∧ (D j i = true → i ∈ d' j)).
Proof.
  induction js as [|j js IH]; intros c d c' d' Hrun.
  - simpl in Hrun. inversion Hrun; subst. split; [done|].
    intros j Hj. by apply elem_of_nil in Hj.
  - cbn [foldl] in Hrun.
    destruct (rank_pair D i (c, d) j) as [c1 d1] eqn:E.
    apply rank_pair_edges in E as (Hkeep1 & Hij & Hji).
    destruct (IH _ _ _ _ Hrun) as [Hkeep Hnew].
    split; [auto|].
    intros j' [->|Hj']%elem_of_cons; [|by apply Hnew].
    split; intros H; apply Hkeep; auto.
Qed.

(** After the rows of the positions below [i], every dominance between a
    position below [i] and any other is an edge. *)
Lemma rank_rows_complete i : ∀ c d cf,
  i ≤ m →
  foldl (rank_row m D) (λ _, 0%Z, λ _, [], []) (seq 0 i) = (c, d, cf) →
  ∀ a b, a < m → b < m → a < i ∨ b < i → D a b = true → b ∈ d a.
Proof.
  induction i as [|i IH]; intros c d cf Hi Hrun a b Ha Hb Hab Hdom; [lia|].
  rewrite foldl_seq_S in Hrun.
  destruct (foldl (rank_row m D) (λ _, 0%Z, λ _, [], []) (seq 0 i))
    as [[c0 d0] cf0] eqn:E0.
  unfold rank_row in Hrun.
  destruct (foldl (rank_pair D i) (c0, d0) (seq (S i) (m - S i)))
    as [c1 d1] eqn:E1.
  assert (d = d1) as ->.
  { destruct (c1 i =? 0)%Z; by inversion Hrun. }
  apply rank_pairs_edges in E1 as [Hkeep Hnew].
  destruct (decide (a < i ∨ b < i)) as [Hold|Hnold].
  { apply Hkeep. apply (IH c0 d0 cf0); [lia|done|done|done|done|done]. }
  assert (a ≠ b) as Hne.
  { intros ->. by rewrite (D_asym _ _ Hdom) in Hdom. }
  destruct (decide (a = i)) as [->|Hai].
  - apply (Hnew b); [|done]. apply elem_of_seq. lia.
  - assert (b = i) as -> by lia.
    apply (Hnew a); [|done]. apply elem_of_seq. lia.
Qed.

Lemma sum_list_with_zero_inv {A} (f : A → nat) (l : list A) :
  sum_list_with f l = 0 → ∀ x, x ∈ l → f x = 0.
Proof.
  induction l as [|y l IH]; intros Hs x Hx; [by apply elem_of_nil in Hx|].
  simpl in Hs. apply elem_of_cons in Hx as [->|Hx]; [lia|].
  apply IH; [lia|done].
Qed.

(** The first front holds the positions that no position dominates. *)
Lemma first_front_exact c d cf :
  rank_first m D = (c, d, cf) →
  ∀ x, x ∈ cf ↔ x < m ∧ ∀ y, y < m → D y x = false.
Proof.
  intros Hrun x.
  destruct (rank_first_spec m D) as (c' & d' & cf' & Heq & [Hc He] & _ & Hcf).
  rewrite Hrun in Heq. inversion Heq; subst c' d' cf'. clear Heq.
  pose proof (rank_rows_complete m c d cf (le_n m) Hrun) as Hcomplete.
  rewrite Hcf. split; intros [Hx H]; (split; [done|]).
  - intros y Hy. apply not_true_iff_false. intros Hdom.
    assert (x ∈ d y) as Hin by (apply Hcomplete; auto).
    rewrite Hc in H. apply (inj Z.of_nat _ 0) in H.
    unfold indeg in H.
    assert (occ x (d y) = 0) as Hz.
    { apply (sum_list_with_zero_inv _ _ H y).
      apply list_elem_of_filter. split; [apply not_elem_of_nil|].
      apply elem_of_seq. lia. }
    by apply occ_zero in Hz.
  - rewrite Hc. unfold indeg. rewrite sum_list_with_zero; [done|].
    intros y [_ Hy%elem_of_seq]%list_elem_of_filter.
    apply occ_zero. intros Hin. apply He in Hin as (Hdom & _ & _).
    rewrite H in Hdom; [done|lia].
Qed.
End FirstFront.

(** The later fronts are appended to the first, and there are none when
    the first front has as many individuals as are asked for. *)
Lemma rank_rest_prefix weight N dominated fuel : ∀ c cur fronts ps fs,
  rank_rest weight fuel N dominated c cur fronts ps = Some fs →
  ∃ more, fs = fronts ++ more ∧ ((N ≤ Z.of_nat ps)%Z → more = []).
Proof.
  induction fuel as [|fuel IH]; intros c cur fronts ps fs Hrun;
    cbn [rank_rest] in Hrun; destruct (Z.of_nat ps <? N)%Z eqn:Hlt.
  - done.
  - injection Hrun as <-. exists []. by rewrite app_nil_r.
  - destruct (next_round weight dominated c cur ps) as [[c' next] ps'].
    apply IH in Hrun as (more & -> & _).
    exists (next :: more). rewrite <- app_assoc. split; [done|].
    apply Z.ltb_lt in Hlt. lia.
  - injection Hrun as <-. exists []. by rewrite app_nil_r.
Qed.


Lemma dict_append_grouped d ind : grouped d → grouped (dict_append d ind).
Proof.
  unfold grouped. induction d as [|[k l] d IH]; intros Hd; simpl.
  - constructor; [|constructor]. simpl. split; [done|].
    apply Forall_singleton. apply key_eq_refl.
  - apply Forall_cons in Hd as [[Hne Hl] Hd]. simpl in Hne, Hl.
    destruct (key_eq k (wvalues ind)) eqn:E.
    + constructor; [|done]. simpl. split.
      * intros Hnil. by apply app_eq_nil in Hnil as [_ ?].
      * apply Forall_app. split; [done|]. by apply Forall_singleton.
    + constructor; [done|]. by apply IH.
Qed.

Lemma map_fit_ind_grouped (individuals : list Individual) : ∀ d,
  grouped d → grouped (foldl dict_append d individuals).
Proof.
  induction individuals as [|ind l IH]; intros d Hd; simpl; [done|].
  by apply IH, dict_append_grouped.
Qed.

Lemma sortNondominated_first (individuals : list Individual) (k : Z)
    (fronts : list (list Individual)) :
  k ≠ 0%Z →
  sortNondominated individuals k = Some fronts →
  ∃ first rest,
    fronts = first :: rest
    ∧ (∀ p, p ∈ first ↔ nondominated_in individuals p)
    ∧ ((Z.of_nat (length individuals) `min` k ≤ Z.of_nat (length first))%Z →
       rest = []).
Proof.
  intros Hk. unfold sortNondominated.
  destruct (k =? 0)%Z eqn:Hk0; [apply Z.eqb_eq in Hk0; done|]. cbv zeta.
  set (d := foldl dict_append [] individuals).
  set (group := λ i : nat, default [] (d.*2 !! i)).
  set (D := λ i j : nat, match d.*1 !! i, d.*1 !! j with
                         | Some fit_i, Some fit_j => key_dominates fit_i fit_j
                         | _, _ => false
                         end).
  set (N := (Z.of_nat (length individuals) `min` k)%Z).
  change (λ i : nat, length (default [] (d.*2 !! i)))
    with (λ i : nat, length (group i)).
  destruct (rank_fronts (length d.*1) D (λ i, length (group i)) N)
    as [fs|] eqn:Hrf; [|done].
  intros [= <-]. unfold rank_fronts in Hrf.
  destruct (rank_first (length d.*1) D) as [[c dd] cf] eqn:Hfirst.
  apply rank_rest_prefix in Hrf as (more & -> & Hmore).
  assert (Hasym : ∀ i j, D i j = true → D j i = false).
  { intros i j. unfold D. destruct (d.*1 !! i), (d.*1 !! j); try done.
    apply key_dominates_asym. }
  pose proof (first_front_exact (length d.*1) D Hasym c dd cf Hfirst) as Hcf.
  assert (Hgrouped : grouped d).
  { apply map_fit_ind_grouped. constructor. }
  assert (Hlookup : ∀ i kl, d !! i = Some kl →
            i < length d.*1 ∧ d.*1 !! i = Some kl.1 ∧ group i = kl.2
            ∧ kl.2 ≠ []
            ∧ ∀ x, x ∈ kl.2 → key_eq kl.1 (wvalues x) = true ∧ x ∈ individuals).
  { intros i kl Hi. split; [rewrite length_fmap; by eapply lookup_lt_Some|].
    split; [by rewrite list_lookup_fmap, Hi|].
    split; [unfold group; by rewrite list_lookup_fmap, Hi|].
    unfold grouped in Hgrouped. rewrite Forall_forall in Hgrouped.
    destruct (Hgrouped kl (list_elem_of_lookup_2 _ _ _ Hi)) as [Hne Hall].
    split; [done|]. intros x Hx. rewrite Forall_forall in Hall.
    split; [by apply Hall|].
    assert (x ∈ concat d.*2) as Hin.
    { apply elem_of_concat. exists kl.2. split; [done|].
      apply list_elem_of_fmap. exists kl. split; [done|].
      by eapply list_elem_of_lookup_2. }
    unfold d in Hin. apply map_fit_ind_elem in Hin as [?|Hin]; [done|].
    by apply elem_of_nil in Hin. }
  assert (Hfind : ∀ p, p ∈ individuals →
            ∃ i kl, d !! i = Some kl ∧ p ∈ kl.2).
  { intros p Hp.
    assert (p ∈ concat d.*2) as Hin.
    { unfold d. apply map_fit_ind_elem. by left. }
    apply elem_of_concat in Hin as (l & Hpl & Hl).
    apply list_elem_of_fmap in Hl as (kl & -> & Hkl).
    apply list_elem_of_lookup in Hkl as [i Hi]. eauto. }
  assert (Hdom : ∀ i j kli klj p q,
            d !! i = Some kli → d !! j = Some klj →
            p ∈ kli.2 → q ∈ klj.2 →
            D j i = key_dominates (wvalues q) (wvalues p)).
  { intros i j kli klj p q Hi Hj Hp Hq.
    destruct (Hlookup i kli Hi) as (_ & Hfi & _ & _ & Hmi).
    destruct (Hlookup j klj Hj) as (_ & Hfj & _ & _ & Hmj).
    destruct (Hmi p Hp) as [Hep _]. destruct (Hmj q Hq) as [Heq _].
    unfold D. rewrite Hfi, Hfj.
    by rewrite (key_dominates_eq_l _ _ _ Heq),
               (key_dominates_eq_r _ _ _ Hep). }
  exists (concat (group <$> cf)),
         ((λ front : list nat, concat (group <$> front)) <$> more).
  split; [by rewrite fmap_app|]. split.
  - intros p. split.
    + intros (g & Hpg & Hg)%elem_of_concat.
      apply list_elem_of_fmap in Hg as (i & -> & Hi).
      apply Hcf in Hi as [Hi Hnone].
      rewrite length_fmap in Hi.
      destruct (d !! i) as [kli|] eqn:Ei.
      2:{ apply lookup_ge_None in Ei. lia. }
      destruct (Hlookup i kli Ei) as (_ & _ & Hgi & _ & Hmi).
      rewrite Hgi in Hpg. split; [by apply Hmi|].
      intros q Hq. destruct (Hfind q Hq) as (j & klj & Ej & Hqj).
      rewrite <- (Hdom i j kli klj p q) by done.
      apply Hnone. by apply (Hlookup j klj).
    + intros [Hp Hnone]. destruct (Hfind p Hp) as (i & kli & Ei & Hpi).
      destruct (Hlookup i kli Ei) as (Hi & _ & Hgi & _ & _).
      apply elem_of_concat. exists (group i). split; [by rewrite Hgi|].
      apply list_elem_of_fmap. exists i. split; [done|].
      apply Hcf. split; [done|]. intros j Hj.
      rewrite length_fmap in Hj.
      destruct (d !! j) as [klj|] eqn:Ej.
      2:{ apply lookup_ge_None in Ej. lia. }
      destruct (Hlookup j klj Ej) as (_ & _ & _ & Hne & Hmj).
      destruct klj as [kj [|q lj]]; [done|]. simpl in *.
      rewrite (Hdom i j kli (kj, q :: lj) p q); [|done|done|done|left].
      apply Hnone. apply (Hmj q). left.
  - intros HN. rewrite Hmore; [done|].
    rewrite length_concat_sum, sum_list_with_fmap in HN. exact HN.
Qed.


(** ** Selection keeps the individuals that nothing dominates *)

Lemma assign_fronts_same (fronts : list (list Individual)) :
  (∀ front ind, front ∈ fronts → ind ∈ front → is_Some (wvalues ind)) →
  ∃ assigned,
    mapM assignCrowdingDist fronts = Some assigned
    ∧ Forall2 (Forall2 same_ind) fronts assigned
    ∧ Forall (Forall (λ ind, is_Some (crowding_dist ind))) assigned.
Proof.
  induction fronts as [|front fronts IH]; intros Hin.
  { exists []. repeat split; constructor. }
  destruct IH as (assigned & Hrun & Hsame & Hcd).
  { intros f ind Hf Hi. apply (Hin f ind); [by right|done]. }
  destruct (assignCrowdingDist_spec front) as (front' & Hrun' & Hsame' & Hcd').
  { apply Forall_forall. intros ind Hi. apply (Hin front ind); [left|done]. }
  exists (front' :: assigned). split; [|split].
  - apply mapM_Some. constructor; [done|]. by apply mapM_Some.
  - by constructor.
  - by constructor.
Qed.

Lemma keyed_front (front : list Individual)
    (keyed : list (Dist * Individual)) :
  mapM (λ ind, d ← crowding_dist ind; Some (d, ind)) front = Some keyed →
  keyed.*2 = front.
Proof.
  intros Hkeyed. apply mapM_Some_1 in Hkeyed.
  induction Hkeyed as [|ind [d i] l kd H _ IH]; [done|].
  csimpl. rewrite IH. f_equal.
  destruct (crowding_dist ind); [|done]. by injection H as _ ->.
Qed.

(** X16: [selNSGA2] is elitist.  The first front of the ranking holds
    exactly the individuals of the pool that no individual of the pool
    dominates.  When these are at most [k], each of them is among the
    selected (up to its crowding distance); when they are at least [k],
    every selected individual is one of them. *)
Theorem selNSGA2_elitist (pool : list Individual) (k : Z)
    (chosen : list Individual) :
  Forall (λ ind, is_Some (wvalues ind)) pool →
  (0 < k)%Z →
  selNSGA2 pool k = Some chosen →
  ∃ first rest,
    sortNondominated pool k = Some (first :: rest)
    ∧ (∀ p, p ∈ first ↔ nondominated_in pool p)
    ∧ ((Z.of_nat (length first) ≤ k)%Z →
       ∀ p, p ∈ first → ∃ c, c ∈ chosen ∧ same_ind p c)
    ∧ ((k ≤ Z.of_nat (length first))%Z →
       ∀ c, c ∈ chosen → ∃ p, p ∈ first ∧ same_ind p c).
Proof.
  intros Hvalid Hk Hsel.
  destruct (sortNondominated_spec pool k) as (fronts & Hsort & Hin & _ & _).
  destruct (sortNondominated_first pool k fronts)
    as (first & rest & -> & Hfirst & Hrest); [lia|done|].
  exists first, rest. split; [done|]. split; [done|].
  unfold selNSGA2 in Hsel. rewrite Hsort in Hsel.
  cbn [mbind option_bind] in Hsel.
  destruct (assign_fronts_same (first :: rest))
    as (assigned & Hrun & Hsame & Hcd).
  { intros front ind Hf Hi. rewrite Forall_forall in Hvalid.
    apply Hvalid. by eapply Hin. }
  rewrite Hrun in Hsel. cbn [mbind option_bind] in Hsel. cbv zeta in Hsel.
  apply Forall2_cons_inv_l in Hsame as (first' & rest' & Hf & Hr & ->).
  assert (Hlen : length first' = length first)
    by (symmetry; by eapply Forall2_length).
  assert (Hto : ∀ p, p ∈ first → ∃ c, c ∈ first' ∧ same_ind p c).
  { intros p (i & Hi)%list_elem_of_lookup.
    destruct (Forall2_lookup_l _ _ _ _ _ Hf Hi) as (c & Hc & Hpc).
    exists c. split; [by eapply list_elem_of_lookup_2|done]. }
  assert (Hfrom : ∀ c, c ∈ first' → ∃ p, p ∈ first ∧ same_ind p c).
  { intros c (i & Hi)%list_elem_of_lookup.
    destruct (Forall2_lookup_r _ _ _ _ _ Hf Hi) as (p & Hp & Hpc).
    exists p. split; [by eapply list_elem_of_lookup_2|done]. }
  apply Forall_cons in Hcd as [Hcd _].
  destruct rest' as [|second rest'].
  - (* one front *)
    simpl in Hsel. rewrite Z.sub_0_r in Hsel.
    apply Z.ltb_lt in Hk as Hkb. rewrite Hkb in Hsel.
    destruct (mapM (λ ind, d ← crowding_dist ind; Some (d, ind)) first')
      as [keyed|] eqn:Hkeyed; [|done].
    cbn [mbind option_bind] in Hsel. injection Hsel as <-.
    apply keyed_front in Hkeyed.
    set (sorted := (stable_sort (λ a b, Dist_ltb b.1 a.1) keyed).*2).
    assert (Hperm : sorted ≡ₚ first').
    { unfold sorted. by rewrite stable_sort_perm, Hkeyed. }
    split.
    + intros Hle p Hp. destruct (Hto p Hp) as (c & Hc & Hpc).
      exists c. split; [|done].
      rewrite take_ge; [by rewrite Hperm|]. rewrite Hperm, Hlen. lia.
    + intros _ c Hc. apply Hfrom. rewrite <- Hperm.
      eapply elem_of_sublist; [exact Hc|apply sublist_take].
  - (* several fronts: the first is taken whole *)
    split.
    + intros _ p Hp. destruct (Hto p Hp) as (c & Hc & Hpc).
      exists c. split; [|done].
      assert (Hpre : ∃ more,
                concat (removelast (first' :: second :: rest'))
                = first' ++ more).
      { exists (concat (removelast (second :: rest'))). done. }
      destruct Hpre as (more & Hpre). rewrite Hpre in Hsel.
      destruct (0 <? k - Z.of_nat (length (first' ++ more)))%Z.
      * destruct (list.last (first' :: second :: rest')); [|done].
        cbn [mbind option_bind] in Hsel.
        destruct (mapM _ l); [|done].
        cbn [mbind option_bind] in Hsel. injection Hsel as <-.
        rewrite !elem_of_app. by left; left.
      * injection Hsel as <-. rewrite elem_of_app. by left.
    + intros Hle. exfalso.
      apply Forall2_length in Hr. simpl in Hr.
      rewrite Hrest in Hr; [done|]. lia.
Qed.

Lemma selNSGA2_elitist_witness :
  ∃ chosen first rest,
    selNSGA2 plain_front 2 = Some chosen
    ∧ sortNondominated plain_front 2 = Some (first :: rest)
    ∧ (∀ p, p ∈ first ↔ nondominated_in plain_front p)
    ∧ ((Z.of_nat (length first) ≤ 2)%Z →
       ∀ p, p ∈ first → ∃ c, c ∈ chosen ∧ same_ind p c)
    ∧ ((2 ≤ Z.of_nat (length first))%Z →
       ∀ c, c ∈ chosen → ∃ p, p ∈ first ∧ same_ind p c).
Proof.
  assert (Hv : Forall (λ ind, is_Some (wvalues ind)) plain_front).
  { repeat constructor; by eexists. }
  destruct (selNSGA2 plain_front 2) as [chosen|] eqn:E.
  - destruct (selNSGA2_elitist plain_front 2 chosen Hv ltac:(lia) E)
      as (first & rest & H).
    exists chosen, first, rest. split; [reflexivity|exact H].
  - vm_compute in E. discriminate E.
Defined.

(** ** Selection prefers the larger crowding distance *)

Lemma Dist_ltb_asym (a b : Dist) : Dist_ltb a b = true → Dist_ltb b a = false.
Proof.
  destruct a as [x|], b as [y|]; simpl; try done.
  intros H. qprop. apply Qltb_ge. lra.
Qed.

Lemma Dist_ltb_trans (x y z : Dist) :
  Dist_ltb y x = true → Dist_ltb y z = false → Dist_ltb x z = false.
Proof.
  destruct x as [x|], y as [y|], z as [z|]; simpl; try done.
  intros H1 H2. qprop. apply Qltb_ge. lra.
Qed.

Lemma insert_by_distance {A} (x : Dist * A) (l : list (Dist * A)) :
  StronglySorted (λ a b, Dist_ltb a.1 b.1 = false) l →
  StronglySorted (λ a b, Dist_ltb a.1 b.1 = false)
                 (insert_sorted (λ a b, Dist_ltb b.1 a.1) x l).
Proof.
  induction l as [|y l IH]; intros Hl; simpl.
  - repeat constructor.
  - apply StronglySorted_cons in Hl as [Hy Hl].
    destruct (Dist_ltb y.1 x.1) eqn:E.
    + apply StronglySorted_cons. split; [|by apply StronglySorted_cons].
      constructor; [by apply Dist_ltb_asym|].
      eapply Forall_impl; [exact Hy|]. simpl. intros z Hz.
      by apply Dist_ltb_trans with y.1.
    + apply StronglySorted_cons. split; [|by apply IH].
      rewrite insert_sorted_perm. by constructor.
Qed.

Lemma sort_by_distance {A} (l : list (Dist * A)) :
  StronglySorted (λ a b, Dist_ltb a.1 b.1 = false)
                 (stable_sort (λ a b, Dist_ltb b.1 a.1) l).
Proof.
  unfold stable_sort.
  assert (∀ acc, StronglySorted (λ a b : Dist * A, Dist_ltb a.1 b.1 = false) acc →
            StronglySorted (λ a b, Dist_ltb a.1 b.1 = false)
              (foldl (λ acc x, insert_sorted (λ a b, Dist_ltb b.1 a.1) x acc)
                     acc l)) as H.
  { induction l as [|x l IH]; intros acc Hacc; simpl; [done|].
    by apply IH, insert_by_distance. }
  apply H. constructor.
Qed.

Lemma keyed_distance (front : list Individual)
    (keyed : list (Dist * Individual)) :
  mapM (λ ind, d ← crowding_dist ind; Some (d, ind)) front = Some keyed →
  ∀ d ind, (d, ind) ∈ keyed → crowding_dist ind = Some d.
Proof.
  intros Hkeyed. apply mapM_Some_1 in Hkeyed.
  induction Hkeyed as [|ind0 [d0 i0] l kd H _ IH]; intros d ind Hin.
  - by apply elem_of_nil in Hin.
  - apply elem_of_cons in Hin as [Heq|Hin]; [|by apply IH].
    injection Heq as -> ->.
    destruct (crowding_dist ind0) as [d1|] eqn:E; [|done].
    simpl in H. injection H as <- <-. done.
Qed.

(** X17: [selNSGA2] takes the leading fronts whole and cuts the last one by
    crowding distance: the selected are the individuals of all fronts but
    the last, followed by part of the last front, and no individual kept
    from the last front has a smaller crowding distance than one that is
    dropped from it. *)
Theorem selNSGA2_prefers_spread (pool : list Individual) (k : Z)
    (chosen : list Individual) :
  Forall (λ ind, is_Some (wvalues ind)) pool →
  k ≠ 0%Z →
  selNSGA2 pool k = Some chosen →
  ∃ fronts init last' kept dropped,
    sortNondominated pool k = Some fronts
    ∧ mapM assignCrowdingDist fronts = Some (init ++ [last'])
    ∧ chosen = concat init ++ kept
    ∧ kept ++ dropped ≡ₚ last'
    ∧ length kept = Z.to_nat (k - Z.of_nat (length (concat init)))
                    `min` length last'
    ∧ ∀ a b da db,
        a ∈ kept → b ∈ dropped →
        crowding_dist a = Some da → crowding_dist b = Some db →
        Dist_ltb da db = false.
Proof.
  intros Hvalid Hk Hsel.
  destruct (sortNondominated_spec pool k) as (fronts & Hsort & Hin & _ & Hst).
  destruct (Hst Hk) as (init0 & last0 & -> & _).
  unfold selNSGA2 in Hsel. rewrite Hsort in Hsel.
  cbn [mbind option_bind] in Hsel.
  destruct (assign_fronts_same (init0 ++ [last0]))
    as (assigned & Hrun & Hsame & Hcd).
  { intros front ind Hf Hi. rewrite Forall_forall in Hvalid.
    apply Hvalid. by eapply Hin. }
  rewrite Hrun in Hsel. cbn [mbind option_bind] in Hsel. cbv zeta in Hsel.
  apply Forall2_app_inv_l in Hsame as (init & lst & _ & Hl & ->).
  apply Forall2_cons_inv_l in Hl as (last' & nil' & _ & Hnil & ->).
  apply Forall2_nil_inv_l in Hnil as ->.
  rewrite removelast_last in Hsel.
  exists (init0 ++ [last0]), init, last'.
  destruct (0 <? k - Z.of_nat (length (concat init)))%Z eqn:Hpos.
  - rewrite last_snoc in Hsel. cbn [mbind option_bind] in Hsel.
    destruct (mapM (λ ind, d ← crowding_dist ind; Some (d, ind)) last')
      as [keyed|] eqn:Hkeyed; [|done].
    cbn [mbind option_bind] in Hsel. injection Hsel as <-.
    pose proof (keyed_distance _ _ Hkeyed) as Hdist.
    apply keyed_front in Hkeyed.
    set (n := Z.to_nat (k - Z.of_nat (length (concat init)))).
    set (sortedK := stable_sort (λ a b : Dist * Individual,
                                   Dist_ltb b.1 a.1) keyed).
    assert (HpermK : sortedK ≡ₚ keyed) by apply stable_sort_perm.
    assert (Hperm : sortedK.*2 ≡ₚ last') by (by rewrite HpermK, Hkeyed).
    exists (take n sortedK.*2), (drop n sortedK.*2).
    split; [done|]. split; [done|]. split; [done|].
    split; [by rewrite take_drop|].
    split; [by rewrite length_take, Hperm|].
    intros a b da db Ha Hb Hda Hdb.
    apply list_elem_of_lookup in Ha as [i Hi].
    apply lookup_take_Some in Hi as [Hi Hin'].
    apply list_elem_of_lookup in Hb as [j Hj].
    rewrite lookup_drop in Hj.
    rewrite list_lookup_fmap in Hi, Hj.
    destruct (sortedK !! i) as [[da' a']|] eqn:Ei; [|done].
    destruct (sortedK !! (n + j)) as [[db' b']|] eqn:Ej; [|done].
    simpl in Hi, Hj. injection Hi as ->. injection Hj as ->.
    assert (crowding_dist a = Some da') as Ha'.
    { apply Hdist. rewrite <- HpermK. by eapply list_elem_of_lookup_2. }
    assert (crowding_dist b = Some db') as Hb'.
    { apply Hdist. rewrite <- HpermK. by eapply list_elem_of_lookup_2. }
    assert (da' = da) as -> by congruence.
    assert (db' = db) as -> by congruence.
    apply (StronglySorted_lookup _ _ (sort_by_distance keyed) i (n + j)
             (da, a) (db, b)); [lia|done|done].
  - injection Hsel as <-. exists [], last'.
    split; [done|]. split; [done|]. split; [by rewrite app_nil_r|].
    split; [done|]. apply Z.ltb_ge in Hpos.
    split; [simpl; lia|].
    intros a b da db Ha. by apply elem_of_nil in Ha.
Qed.

Lemma selNSGA2_prefers_spread_witness :
  ∃ chosen fronts init last' kept dropped,
    selNSGA2 plain_front 2 = Some chosen
    ∧ sortNondominated plain_front 2 = Some fronts
    ∧ mapM assignCrowdingDist fronts = Some (init ++ [last'])
    ∧ chosen = concat init ++ kept
    ∧ kept ++ dropped ≡ₚ last'
    ∧ length kept = Z.to_nat (2 - Z.of_nat (length (concat init)))
                    `min` length last'
    ∧ ∀ a b da db,
        a ∈ kept → b ∈ dropped →
        crowding_dist a = Some da → crowding_dist b = Some db →
        Dist_ltb da db = false.
Proof.
  assert (Hv : Forall (λ ind, is_Some (wvalues ind)) plain_front).
  { repeat constructor; by eexists. }
  destruct (selNSGA2 plain_front 2) as [chosen|] eqn:E.
  - destruct (selNSGA2_prefers_spread plain_front 2 chosen Hv
                ltac:(lia) E) as (fronts & init & last' & kept & dropped & H).
    exists chosen, fronts, init, last', kept, dropped.
    split; [reflexivity|exact H].
  - vm_compute in E. discriminate E.
Defined.

(** ** The fronts of [sortNondominated] are layers *)

Lemma layered_snoc {A} (dom : A → A → bool) (fs : list (list A))
    (cur next : list A) :
  layered dom (fs ++ [cur]) →
  (∀ x y, x ∈ next → y ∈ next → dom y x = false) →
  (∀ x, x ∈ next → ∃ y, y ∈ cur ∧ dom y x = true) →
  layered dom ((fs ++ [cur]) ++ [next]).
Proof.
  intros [Hw Hn] Hw' Hn'. split.
  - intros f x y [Hf| ->%list_elem_of_singleton]%elem_of_app; [by eapply Hw|].
    apply Hw'.
  - intros i f g x Hf Hg Hx.
    destruct (decide (S i < length (fs ++ [cur]))) as [Hlt|Hge].
    + rewrite lookup_app_l in Hf by lia. rewrite lookup_app_l in Hg by lia.
      by eapply Hn.
    + assert (length (fs ++ [cur]) = S (length fs)) as Hlen.
      { rewrite length_app. simpl. lia. }
      assert (S i = length (fs ++ [cur])) as Hi.
      { apply lookup_lt_Some in Hg. rewrite length_app in Hg. simpl in Hg. lia. }
      rewrite Hi, list_lookup_middle in Hg by done. injection Hg as <-.
      rewrite lookup_app_l in Hf by lia.
      assert (i = length fs) as -> by lia.
      rewrite list_lookup_middle in Hf by done. injection Hf as <-.
      by apply Hn'.
Qed.

Section Layers.
Variable m : nat.
Variable D : nat → nat → bool.
Variable weight : nat → nat.
Hypothesis D_irrefl : ∀ i, D i i = false.
Hypothesis D_trans : ∀ i j k, D i j = true → D j k = true → D i k = true.
Variable dominated : nat → list nat.
Hypothesis sound : ∀ y x, x ∈ dominated y → D y x = true ∧ x < m ∧ y < m.
Hypothesis complete : ∀ a b, a < m → b < m → D a b = true → b ∈ dominated a.

Lemma ranked_within c P cur x y :
  ranked m dominated c P cur → x ∈ cur → y ∈ cur → D y x = false.
Proof.
  intros (Hnd & Hlt & Hc & Hz) Hx Hy.
  apply not_true_iff_false. intros Hdom.
  assert (x < m) as Hxm by (apply Hlt, elem_of_app; by right).
  assert (y < m) as Hym by (apply Hlt, elem_of_app; by right).
  assert (x ∈ dominated y) as Hin by (by apply complete).
  assert (c x = 0%Z) as H0.
  { apply Hz; [done|]. apply elem_of_app. by right. }
  rewrite Hc in H0. apply (inj Z.of_nat _ 0) in H0. unfold indeg in H0.
  assert (occ x (dominated y) = 0) as Ho.
  { apply (sum_list_with_zero_inv _ _ H0 y).
    apply list_elem_of_filter. split; [|apply elem_of_seq; lia].
    apply NoDup_app in Hnd as (_ & Hdisj & _).
    intros HyP. by apply (Hdisj y). }
  by apply occ_zero in Ho.
Qed.

Lemma ranked_next c c' P cur next x :
  ranked m dominated c P cur → ranked m dominated c' (P ++ cur) next →
  x ∈ next → ∃ y, y ∈ cur ∧ D y x = true.
Proof.
  intros (Hnd & Hlt & Hc & Hz) (Hnd' & Hlt' & Hc' & Hz') Hx.
  assert (x < m) as Hxm by (apply Hlt', elem_of_app; by right).
  assert (x ∉ P ++ cur) as Hnot.
  { apply NoDup_app in Hnd' as (_ & Hdisj & _). intros Hin.
    by apply (Hdisj x). }
  assert (c' x = 0%Z) as H0'.
  { apply Hz'; [done|]. apply elem_of_app. by right. }
  assert (c x ≠ 0%Z) as H0.
  { intros H0. apply Hnot. by apply Hz. }
  rewrite Hc in H0. rewrite Hc' in H0'. apply (inj Z.of_nat _ 0) in H0'.
  rewrite (indeg_split m dominated P cur x) in H0; [|done|].
  2:{ intros y Hy. apply Hlt, elem_of_app. by right. }
  rewrite H0' in H0. simpl in H0.
  destruct (decide (Exists (λ p, x ∈ dominated p) cur)) as [Hex|Hno].
  - apply Exists_exists in Hex as (y & Hy & Hin). exists y. split; [done|].
    by apply sound in Hin as [? _].
  - exfalso. apply H0. rewrite sum_list_with_zero; [done|].
    intros p Hp. apply occ_zero. intros Hin. apply Hno.
    apply Exists_exists. eauto.
Qed.

Lemma rank_rest_layered N fuel : ∀ c cur init ps fs,
  ranked m dominated c (concat init) cur →
  layered D (init ++ [cur]) →
  rank_rest weight fuel N dominated c cur (init ++ [cur]) ps = Some fs →
  layered D fs.
Proof.
  induction fuel as [|fuel IH]; intros c cur init ps fs Hr Hl Hrun;
    cbn [rank_rest] in Hrun; destruct (Z.of_nat ps <? N)%Z.
  - done.
  - by injection Hrun as <-.
  - destruct (next_round_spec m D weight D_irrefl D_trans dominated c
                (concat init) cur ps sound Hr)
      as (c' & next & Hnext & Hr' & _).
    rewrite Hnext in Hrun.
    assert (Hcat : concat (init ++ [cur]) = concat init ++ cur).
    { rewrite concat_app. simpl. by rewrite app_nil_r. }
    apply (IH c' next (init ++ [cur]) (ps + sum_list_with weight next) fs);
      [by rewrite Hcat| |done].
    apply layered_snoc; [done| |].
    + intros x y. by apply (ranked_within c' (concat init ++ cur) next).
    + intros x. by apply (ranked_next c c' (concat init) cur next).
  - by injection Hrun as <-.
Qed.
End Layers.

Lemma rank_fronts_layered (m : nat) (D : nat → nat → bool)
    (weight : nat → nat) (N : Z) (fs : list (list nat)) :
  (∀ i, D i i = false) →
  (∀ i j k, D i j = true → D j k = true → D i k = true) →
  rank_fronts m D weight N = Some fs →
  layered D fs.
Proof.
  intros Hirr Htrans Hrun. unfold rank_fronts in Hrun.
  assert (Hasym : ∀ i j, D i j = true → D j i = false).
  { intros i j Hij. apply not_true_iff_false. intros Hji.
    pose proof (Htrans _ _ _ Hij Hji) as Hc. by rewrite Hirr in Hc. }
  destruct (rank_first_spec m D) as (c & d & cf & Heq & [Hc He] & Hnd & Hcf).
  pose proof (rank_rows_complete m D Hasym m c d cf (le_n m) Heq) as Hcomp.
  rewrite Heq in Hrun.
  assert (Hr : ranked m d c (concat []) cf).
  { split; [done|]. split; [intros x Hx; by apply Hcf in Hx as [? _]|].
    split; [done|]. intros x Hx. simpl. rewrite Hcf. tauto. }
  assert (Hcomplete : ∀ a b, a < m → b < m → D a b = true → b ∈ d a).
  { intros a b Ha Hb. apply Hcomp; auto. }
  assert (Hfirst : layered D ([] ++ [cf])).
  { split.
    - intros f x y ->%list_elem_of_singleton.
      by apply (ranked_within m D d Hcomplete c (concat []) cf).
    - intros i f g x Hf Hg. destruct i; done. }
  by apply (rank_rest_layered m D weight Hirr Htrans d He Hcomplete N m
              c cf [] (sum_list_with weight cf) fs).
Qed.


(** X18: the fronts that [sortNondominated] returns are layers of
    dominance: no individual of a front dominates another individual of
    the same front, and every individual of a front after the first is
    dominated by an individual of the front before it. *)
Theorem sortNondominated_layers (individuals : list Individual) (k : Z)
    (fronts : list (list Individual)) :
  sortNondominated individuals k = Some fronts →
  layered (λ q p, key_dominates (wvalues q) (wvalues p)) fronts.
Proof.
  unfold sortNondominated.
  destruct (k =? 0)%Z eqn:Hk0.
  { intros [= <-]. split.
    - intros f x y Hf. by apply elem_of_nil in Hf.
    - intros i f g x Hf. done. }
  cbv zeta.
  set (d := foldl dict_append [] individuals).
  set (group := λ i : nat, default [] (d.*2 !! i)).
  set (D := λ i j : nat, match d.*1 !! i, d.*1 !! j with
                         | Some fit_i, Some fit_j => key_dominates fit_i fit_j
                         | _, _ => false
                         end).
  set (N := (Z.of_nat (length individuals) `min` k)%Z).
  change (λ i : nat, length (default [] (d.*2 !! i)))
    with (λ i : nat, length (group i)).
  destruct (rank_fronts (length d.*1) D (λ i, length (group i)) N)
    as [fs|] eqn:Hrf; [|done].
  intros [= <-].
  apply rank_fronts_layered in Hrf as [Hw Hn].
  2:{ intros i. unfold D. destruct (d.*1 !! i); [|done].
      apply key_dominates_irrefl. }
  2:{ intros i j l. unfold D.
      destruct (d.*1 !! i), (d.*1 !! j), (d.*1 !! l); try done.
      apply key_dominates_trans. }
  assert (Hgrouped : grouped d).
  { apply map_fit_ind_grouped. constructor. }
  assert (Hgroup : ∀ i p, p ∈ group i →
            ∃ kl, d !! i = Some kl ∧ d.*1 !! i = Some kl.1 ∧ p ∈ kl.2
                  ∧ key_eq kl.1 (wvalues p) = true).
  { intros i p Hp. unfold group in Hp. rewrite list_lookup_fmap in Hp.
    destruct (d !! i) as [kl|] eqn:Ei; [|by apply elem_of_nil in Hp].
    simpl in Hp. exists kl. split; [done|].
    split; [by rewrite list_lookup_fmap, Ei|]. split; [done|].
    unfold grouped in Hgrouped. rewrite Forall_forall in Hgrouped.
    destruct (Hgrouped kl (list_elem_of_lookup_2 _ _ _ Ei)) as [_ Hall].
    rewrite Forall_forall in Hall. by apply Hall. }
  assert (Hdom : ∀ i j p q, p ∈ group i → q ∈ group j →
            D j i = key_dominates (wvalues q) (wvalues p)).
  { intros i j p q Hp Hq.
    destruct (Hgroup i p Hp) as (kli & _ & Hfi & _ & Hep).
    destruct (Hgroup j q Hq) as (klj & _ & Hfj & _ & Heq).
    unfold D. rewrite Hfi, Hfj.
    by rewrite (key_dominates_eq_l _ _ _ Heq),
               (key_dominates_eq_r _ _ _ Hep). }
  split.
  - intros F p q (f & -> & Hf)%list_elem_of_fmap Hp Hq.
    apply elem_of_concat in Hp as (gp & Hp & Hgp).
    apply list_elem_of_fmap in Hgp as (i & -> & Hi).
    apply elem_of_concat in Hq as (gq & Hq & Hgq).
    apply list_elem_of_fmap in Hgq as (j & -> & Hj).
    rewrite <- (Hdom i j p q) by done. by apply (Hw f).
  - intros n F G p HF HG Hp.
    rewrite list_lookup_fmap in HF, HG.
    destruct (fs !! n) as [f|] eqn:Ef; [|done].
    destruct (fs !! S n) as [g|] eqn:Eg; [|done].
    simpl in HF, HG. injection HF as <-. injection HG as <-.
    apply elem_of_concat in Hp as (gp & Hp & Hgp).
    apply list_elem_of_fmap in Hgp as (i & -> & Hi).
    destruct (Hn n f g i Ef Eg Hi) as (j & Hj & Hji).
    assert (∃ q, q ∈ group j) as [q Hq].
    { unfold D in Hji. rewrite list_lookup_fmap in Hji.
      destruct (d !! j) as [klj|] eqn:Ej; [|done].
      unfold grouped in Hgrouped. rewrite Forall_forall in Hgrouped.
      destruct (Hgrouped klj (list_elem_of_lookup_2 _ _ _ Ej)) as [Hne _].
      destruct klj as [kj [|q lj]]; [done|]. exists q.
      unfold group. rewrite list_lookup_fmap, Ej. left. }
    exists q. split.
    + apply elem_of_concat. exists (group j). split; [done|].
      apply list_elem_of_fmap. eauto.
    + by rewrite <- (Hdom i j p q).
Qed.

Lemma sortNondominated_layers_witness :
  ∃ fronts,
    sortNondominated chain_pool 3 = Some fronts
    ∧ length fronts = 3
    ∧ layered (λ q p, key_dominates (wvalues q) (wvalues p)) fronts.
Proof.
  destruct (sortNondominated chain_pool 3) as [fronts|] eqn:E.
  - exists fronts. split; [reflexivity|]. split.
    + vm_compute in E. injection E as <-. reflexivity.
    + exact (sortNondominated_layers chain_pool 3 fronts E).
  - vm_compute in E. discriminate E.
Defined.
